(** * AirCab-Sync: the matching-and-pricing engine

    A shallow embedding of the ride-pooling core:
    - [src/utils/distance.ts]       (route sequencing, location compatibility),
    - [src/services/matchingEngine.ts] (the matching engine),
    - [src/services/pricingService.ts] (the pricing formula),
    - [src/services/poolService.ts] and [src/services/rideService.ts]
      (pool membership, capacity counters and cancellation).

    Conventions of the embedding.
    - A JavaScript [number] that carries a quantity (kilometres, money, a
      score) is an exact rational [Q]; floating-point rounding, [NaN] and
      infinities are not modelled.  The sentinel [Infinity] of a running
      minimum is [None : option Q], the sentinel index [-1] is
      [None : option nat].
    - Integer columns (passenger and luggage counts, sequence indices) are [Z].
    - [calculateDistance] (the haversine formula) is transcendental; it is a
      parameter of every definition that calls it.  The general theorems hold
      for every distance function; closed examples are evaluated with
      [gridDistance].
    - [throw new Error(msg)] is [Throw msg]; a [TypeError] raised by reading a
      property of [undefined] is [Throw] as well.
    - The relational store is a record of three tables held as lists of rows;
      [db.transaction] commits the callback's state or rolls back on a throw.
      The cache, the logger and the pricing-history table never feed back
      into the tables and are left out, except for the group sizes that
      [generateOptimalPools] logs. *)

From Stdlib Require Import QArith Qround Qminmax Qabs Lqa.
From stdpp Require Import gmap strings list.

(** ** Results of fallible code *)

Inductive result (A : Type) : Type :=
| Ok (a : A)
| Throw (msg : string)
| OutOfFuel.
Arguments Ok {A} a.
Arguments Throw {A} msg.
Arguments OutOfFuel {A}.

Definition rbind {A B} (r : result A) (k : A → result B) : result B :=
  match r with
  | Ok a => k a
  | Throw m => Throw m
  | OutOfFuel => OutOfFuel
  end.

Notation "'let*' x ':=' r 'in' k" := (rbind r (λ x, k))
  (at level 10, x pattern, r at level 100, k at level 200, only parsing).

Definition is_Ok {A} (r : result A) : Prop := ∃ a, r = Ok a.

(** ** Numbers *)

Definition Qlt_bool (x y : Q) : bool := negb (Qle_bool y x).

(** [parseFloat(x.toFixed(2))]: the nearest multiple of 1/100, a tie going
    away from zero (toFixed rounds the magnitude, picking the larger [n]). *)
Definition toFixed2 (x : Q) : Q :=
  if Qlt_le_dec x 0
  then (- (Qfloor ((- x) * 100 + (1 # 2)) # 100))%Q
  else (Qfloor (x * 100 + (1 # 2)) # 100)%Q.

(** ** The data model ([src/models/types], as used by the services) *)

Inductive RideStatus := pending | matched | confirmed | cancelled | completed.
Inductive PoolStatus :=
  forming | pool_confirmed | in_progress | pool_completed | pool_cancelled.
Inductive StopType := pickup | dropoff.

Global Instance RideStatus_eq_dec : EqDecision RideStatus.
Proof. solve_decision. Defined.
Global Instance PoolStatus_eq_dec : EqDecision PoolStatus.
Proof. solve_decision. Defined.
Global Instance StopType_eq_dec : EqDecision StopType.
Proof. solve_decision. Defined.

Record RideRequest := {
  req_id : string;            (* [id] *)
  user_id : string;
  pickup_latitude : Q;
  pickup_longitude : Q;
  dropoff_latitude : Q;
  dropoff_longitude : Q;
  passenger_count : Z;
  luggage_count : Z;
  max_detour_km : Q;
  status : RideStatus;
  requested_at : Z            (* [Date.getTime()], milliseconds *)
}.

Record RidePool := {
  pool_id : string;
  pool_code : string;
  pool_status : PoolStatus;
  current_passenger_count : Z;
  current_luggage_count : Z;
  max_passengers : Z;
  max_luggage : Z
}.

Record PoolMember := {
  member_pool_id : string;
  ride_request_id : string;
  pickup_sequence : Z;
  dropoff_sequence : Z;
  detour_distance_km : Q;
  price : Q
}.

(** [config.ridePooling] ([src/config]). *)
Record RidePoolingConfig := {
  maxPassengersPerPool : Z;
  maxLuggageCapacity : Z;
  maxDetourToleranceKm : Q;
  baseFare : Q;
  perKmRate : Q;
  surgeMultiplierMax : Q;
  poolDiscountPercent : Q
}.

(** The values the configuration takes when no environment variable is set. *)
Definition defaultConfig : RidePoolingConfig := {|
  maxPassengersPerPool := 4;
  maxLuggageCapacity := 8;
  maxDetourToleranceKm := 5;
  baseFare := 50;
  perKmRate := 15;
  surgeMultiplierMax := 25 # 10;
  poolDiscountPercent := 20
|}.

(** ** Pricing ([PricingService]) *)

Record PriceBreakdown := {
  base_fare : Q;
  distance_fare : Q;
  subtotal : Q;
  surge_multiplier : Q;
  surge_amount : Q;
  pool_discount : Q;
  final_price : Q;
  demand_factor : Q;
  distance_km : Q
}.

Section Pricing.
Variable calculateDistance : Q → Q → Q → Q → Q.
Variable config : RidePoolingConfig.

Definition calculateSurgeMultiplier (demandFactor : Q) : Q :=
  let baseMultiplier := 1%Q in
  let surgeImpact := (1 # 2)%Q in
  let calculatedSurge := (baseMultiplier + demandFactor * surgeImpact)%Q in
  Qmin calculatedSurge (surgeMultiplierMax config).

Definition calculatePoolDiscount (poolSize : Z) : Q :=
  let baseDiscount := poolDiscountPercent config in
  let bonusDiscount := ((inject_Z poolSize - 1) * 5)%Q in
  Qmin (baseDiscount + bonusDiscount) 30.

(** [getDemandFactor] reads the cache, the database and the clock; its
    value is the argument [demandFactor]. *)
Definition calculatePrice (demandFactor : Q) (request : RideRequest)
    (isPooled : bool) (poolSize : Z) : PriceBreakdown :=
  let distance := calculateDistance
    (pickup_latitude request) (pickup_longitude request)
    (dropoff_latitude request) (dropoff_longitude request) in
  let baseFare := baseFare config in
  let distanceFare := (distance * perKmRate config)%Q in
  let subtotal := (baseFare + distanceFare)%Q in
  let surgeMultiplier := calculateSurgeMultiplier demandFactor in
  let surgeAmount := (subtotal * (surgeMultiplier - 1))%Q in
  let poolDiscount :=
    if isPooled
    then ((subtotal + surgeAmount) * (calculatePoolDiscount poolSize / 100))%Q
    else 0%Q in
  let finalPrice := Qmax 0 (subtotal + surgeAmount - poolDiscount) in
  {| base_fare := baseFare;
     distance_fare := distanceFare;
     subtotal := subtotal;
     surge_multiplier := surgeMultiplier;
     surge_amount := surgeAmount;
     pool_discount := poolDiscount;
     final_price := toFixed2 finalPrice;
     demand_factor := demandFactor;
     distance_km := toFixed2 distance |}.
End Pricing.

(** ** Route sequencing ([src/utils/distance.ts]) *)

(** A stop as [analyzeRouteWithNewMember] builds it; [optimizeRoute] reads
    [lat], [lon], [type] and [userId] and passes the objects through. *)
Record Stop := {
  stop_id : string;           (* [id] *)
  lat : Q;
  lon : Q;
  stop_type : StopType;       (* [type] *)
  userId : string;
  requestId : string
}.

Record LatLon := { pt_lat : Q; pt_lon : Q }.

(** The mutable locals of [optimizeRoute]. *)
Record RouteState := {
  optimized : list Stop;
  visited : gset nat;
  userPickedUp : gset string
}.

(** [distance < minDistance], where [None] is [Infinity]. *)
Definition belowMin (distance : Q) (minDistance : option Q) : bool :=
  match minDistance with
  | None => true
  | Some m => Qlt_bool distance m
  end.

Section RouteSequencer.
Variable calculateDistance : Q → Q → Q → Q → Q.

(** The inner [for] of [optimizeRoute]: [i] runs over the indices of
    [rest], the remaining suffix of [stops]. *)
Fixpoint scanNearest (st : RouteState) (i : nat) (rest : list Stop)
    (nearestIdx : option nat) (minDistance : option Q)
    : result (option nat) :=
  match rest with
  | [] => Ok nearestIdx
  | s :: rest' =>
    if decide (i ∈ visited st)
    then scanNearest st (S i) rest' nearestIdx minDistance
    else if decide (stop_type s = dropoff ∧ userId s ∉ userPickedUp st)
    then scanNearest st (S i) rest' nearestIdx minDistance
    else
      match last (optimized st) with
      | None => Throw "TypeError"
      | Some cur =>
        let distance :=
          calculateDistance (lat cur) (lon cur) (lat s) (lon s) in
        if belowMin distance minDistance
        then scanNearest st (S i) rest' (Some i) (Some distance)
        else scanNearest st (S i) rest' nearestIdx minDistance
      end
  end.

(** The fallback [for]: the first index that is not visited. *)
Fixpoint firstUnvisited (seen : gset nat) (i : nat) (rest : list Stop)
    : option nat :=
  match rest with
  | [] => None
  | _ :: rest' =>
    if decide (i ∈ seen) then firstUnvisited seen (S i) rest' else Some i
  end.

(** One iteration of the [while] loop. *)
Definition loopBody (stops : list Stop) (st : RouteState)
    : result RouteState :=
  let* nearestIdx := scanNearest st 0 stops None None in
  let nearestIdx :=
    match nearestIdx with
    | None => firstUnvisited (visited st) 0 stops
    | Some i => Some i
    end in
  match nearestIdx with
  | None => Throw "TypeError"          (* [stops[-1].type] *)
  | Some k =>
    match stops !! k with
    | None => Throw "TypeError"
    | Some s =>
      Ok {| optimized := optimized st ++ [s];
            visited := {[k]} ∪ visited st;
            userPickedUp :=
              if decide (stop_type s = pickup)
              then {[userId s]} ∪ userPickedUp st
              else userPickedUp st |}
    end
  end.

(** The [while (optimized.length < stops.length)] loop.  [fuel] bounds the
    number of iterations; every iteration pushes one stop, so the
    [length stops] that [optimizeRoute] supplies is never used up. *)
Fixpoint whileLoop (stops : list Stop) (fuel : nat) (st : RouteState)
    : result RouteState :=
  if length (optimized st) <? length stops then
    match fuel with
    | O => OutOfFuel
    | S fuel' => let* st' := loopBody stops st in whileLoop stops fuel' st'
    end
  else Ok st.

Definition initialState (s0 : Stop) : RouteState :=
  {| optimized := [s0];
     visited := {[0]};
     userPickedUp :=
       if decide (stop_type s0 = pickup) then {[userId s0]} else ∅ |}.

Definition optimizeRoute (stops : list Stop) : result (list Stop) :=
  if length stops <=? 1 then Ok stops
  else
    match stops !! 0 with
    | None => Throw "TypeError"
    | Some s0 =>
      let* st := whileLoop stops (length stops) (initialState s0) in
      Ok (optimized st)
    end.

(** The states the [while] loop passes through on input [stops]. *)
Inductive loopReaches (stops : list Stop) : RouteState → Prop :=
| reaches_initial s0 :
    stops !! 0 = Some s0 → loopReaches stops (initialState s0)
| reaches_step st st' :
    loopReaches stops st →
    length (optimized st) < length stops →
    loopBody stops st = Ok st' →
    loopReaches stops st'.

(** The fallback branch runs in state [st] when the scan finds nothing. *)
Definition fallbackTaken (stops : list Stop) (st : RouteState) : Prop :=
  length (optimized st) < length stops ∧
  scanNearest st 0 stops None None = Ok None.

(** The loop of [calculateTotalDistance], [total] being its accumulator. *)
Fixpoint sumLegs (route : list Stop) (total : Q) : Q :=
  match route with
  | a :: (b :: _) as tl =>
    sumLegs tl (total + calculateDistance (lat a) (lon a) (lat b) (lon b))%Q
  | _ => total
  end.

Definition calculateTotalDistance (route : list Stop) : Q :=
  sumLegs route 0.

Definition areLocationsCompatible (req1Pickup req1Dropoff req2Pickup
    req2Dropoff : LatLon) (maxDetourKm : Q) : bool :=
  let pickupDistance := calculateDistance
    (pt_lat req1Pickup) (pt_lon req1Pickup)
    (pt_lat req2Pickup) (pt_lon req2Pickup) in
  let dropoffDistance := calculateDistance
    (pt_lat req1Dropoff) (pt_lon req1Dropoff)
    (pt_lat req2Dropoff) (pt_lon req2Dropoff) in
  Qle_bool pickupDistance maxDetourKm
  && Qle_bool dropoffDistance (maxDetourKm * 2).
End RouteSequencer.

(** ** The matching engine ([MatchingEngine]) *)

Record PoolCandidate := {
  pool : RidePool;
  existingMembers : list PoolMember;
  existingRequests : list RideRequest
}.

(** The value returned by [analyzeRouteWithNewMember]; [detours] is the
    [Map] in insertion order. *)
Record RouteAnalysis := {
  valid : bool;
  route : list Stop;
  detours : list (string * Q);
  totalDistance : Q
}.

Definition invalidAnalysis : RouteAnalysis :=
  {| valid := false; route := []; detours := []; totalDistance := 0 |}.

(** [Map.prototype.set]: an existing key keeps its place. *)
Fixpoint mapSet (k : string) (v : Q) (m : list (string * Q))
    : list (string * Q) :=
  match m with
  | [] => [(k, v)]
  | (k', v') :: m' =>
    if decide (k' = k) then (k, v) :: m' else (k', v') :: mapSet k v m'
  end.

Definition pickupStop (req : RideRequest) : Stop :=
  {| stop_id := req_id req +:+ "-pickup";
     lat := pickup_latitude req;
     lon := pickup_longitude req;
     stop_type := pickup;
     userId := user_id req;
     requestId := req_id req |}.

Definition dropoffStop (req : RideRequest) : Stop :=
  {| stop_id := req_id req +:+ "-dropoff";
     lat := dropoff_latitude req;
     lon := dropoff_longitude req;
     stop_type := dropoff;
     userId := user_id req;
     requestId := req_id req |}.

(** The stops array of [analyzeRouteWithNewMember]. *)
Definition buildStops (newRequest : RideRequest)
    (existingRequests : list RideRequest) : list Stop :=
  flat_map (λ req, [pickupStop req; dropoffStop req]) existingRequests
  ++ [pickupStop newRequest; dropoffStop newRequest].

(** The search for a rider's positions, comparing [optimizedRoute[i].id]
    with [req.id]. *)
Fixpoint findPortion (rid : string) (i : nat) (rest : list Stop)
    (pickupIdx dropoffIdx : option nat) : option nat * option nat :=
  match rest with
  | [] => (pickupIdx, dropoffIdx)
  | s :: rest' =>
    if decide (stop_id s = rid) then
      let pickupIdx :=
        if decide (stop_type s = pickup) then Some i else pickupIdx in
      let dropoffIdx :=
        if decide (stop_type s = dropoff) then Some i else dropoffIdx in
      findPortion rid (S i) rest' pickupIdx dropoffIdx
    else findPortion rid (S i) rest' pickupIdx dropoffIdx
  end.

Definition checkCapacityConstraints (pool : RidePool) (request : RideRequest)
    : bool :=
  let hasPassengerCapacity :=
    (current_passenger_count pool + passenger_count request
       <=? max_passengers pool)%Z in
  let hasLuggageCapacity :=
    (current_luggage_count pool + luggage_count request
       <=? max_luggage pool)%Z in
  hasPassengerCapacity && hasLuggageCapacity.

Definition pickupOf (r : RideRequest) : LatLon :=
  {| pt_lat := pickup_latitude r; pt_lon := pickup_longitude r |}.
Definition dropoffOf (r : RideRequest) : LatLon :=
  {| pt_lat := dropoff_latitude r; pt_lon := dropoff_longitude r |}.

Section MatchingEngine.
Variable calculateDistance : Q → Q → Q → Q → Q.
Variable config : RidePoolingConfig.

Definition checkLocationCompatibility (newRequest : RideRequest)
    (existingRequests : list RideRequest) : bool :=
  if (length existingRequests =? 0)%nat then true
  else
    let maxDetour := maxDetourToleranceKm config in
    if existsb (λ existingReq,
          areLocationsCompatible calculateDistance
            (pickupOf newRequest) (dropoffOf newRequest)
            (pickupOf existingReq) (dropoffOf existingReq) maxDetour)
        existingRequests
    then true
    else (length existingRequests =? 0)%nat.

(** The sum of the legs [optimizedRoute[i] → optimizedRoute[i+1]] for
    [pickupIdx ≤ i < dropoffIdx]. *)
Definition actualDistanceOf (optimizedRoute : list Stop)
    (pickupIdx dropoffIdx : nat) : result Q :=
  foldl (λ acc i,
      let* actualDistance := acc in
      match optimizedRoute !! i, optimizedRoute !! S i with
      | Some a, Some b =>
        Ok (actualDistance
            + calculateDistance (lat a) (lon a) (lat b) (lon b))%Q
      | _, _ => Throw "TypeError"
      end)
    (Ok 0%Q) (seq pickupIdx (dropoffIdx - pickupIdx)).

(** The detour of one rider along the route; [None] when the rider's pickup
    or dropoff position is not found. *)
Definition riderDetour (optimizedRoute : list Stop) (req : RideRequest)
    : result (option Q) :=
  let directDistance := calculateDistance
    (pickup_latitude req) (pickup_longitude req)
    (dropoff_latitude req) (dropoff_longitude req) in
  match findPortion (req_id req) 0 optimizedRoute None None with
  | (Some pickupIdx, Some dropoffIdx) =>
    let* actualDistance :=
      actualDistanceOf optimizedRoute pickupIdx dropoffIdx in
    Ok (Some (actualDistance - directDistance)%Q)
  | _ => Ok None
  end.

(** The loop over [[...existingRequests, newRequest]]; [None] is the early
    [return { valid: false, ... }]. *)
Fixpoint riderLoop (optimizedRoute : list Stop) (riders : list RideRequest)
    (detours : list (string * Q)) : result (option (list (string * Q))) :=
  match riders with
  | [] => Ok (Some detours)
  | req :: riders' =>
    let* found := riderDetour optimizedRoute req in
    match found with
    | None => Ok None
    | Some detour =>
      let detours := mapSet (req_id req) detour detours in
      let maxDetour :=
        Qmin (max_detour_km req) (maxDetourToleranceKm config) in
      if Qlt_bool maxDetour detour then Ok None
      else riderLoop optimizedRoute riders' detours
    end
  end.

Definition analyzeRouteWithNewMember (newRequest : RideRequest)
    (existingRequests : list RideRequest)
    (existingMembers : list PoolMember) : result RouteAnalysis :=
  let stops := buildStops newRequest existingRequests in
  let* optimizedRoute := optimizeRoute calculateDistance stops in
  let totalDistance := calculateTotalDistance calculateDistance optimizedRoute in
  let* checked :=
    riderLoop optimizedRoute (existingRequests ++ [newRequest]) [] in
  match checked with
  | None => Ok invalidAnalysis
  | Some detours =>
    Ok {| valid := true;
          route := optimizedRoute;
          detours := detours;
          totalDistance := totalDistance |}
  end.

Definition calculateMatchScore (routeAnalysis : RouteAnalysis)
    (pool : RidePool) (request : RideRequest) : Q :=
  let avgDetour :=
    (foldl Qplus 0 (snd <$> detours routeAnalysis)
     / inject_Z (Z.of_nat (length (detours routeAnalysis))))%Q in
  let utilizationScore :=
    (inject_Z (current_passenger_count pool)
     / inject_Z (max_passengers pool))%Q in
  let detourScore := Qmax 0 (10 - avgDetour) in
  let distanceScore := Qmax 0 (50 - totalDistance routeAnalysis) in
  (utilizationScore * 30 + detourScore * 40 + distanceScore * 30)%Q.

(** [compatiblePools.sort((a, b) => b.score - a.score)]: a stable sort,
    highest score first. *)
Fixpoint insertByScore (x : PoolCandidate * Q)
    (sorted : list (PoolCandidate * Q)) : list (PoolCandidate * Q) :=
  match sorted with
  | [] => [x]
  | y :: sorted' =>
    if Qlt_bool (snd x) (snd y) then y :: insertByScore x sorted'
    else x :: sorted
  end.

Definition sortByScore (l : list (PoolCandidate * Q))
    : list (PoolCandidate * Q) :=
  foldr insertByScore [] l.

(** The [for] loop of [findBestMatch] over [availablePools]. *)
Fixpoint collectCompatible (request : RideRequest)
    (availablePools : list PoolCandidate)
    (compatiblePools : list (PoolCandidate * Q))
    : result (list (PoolCandidate * Q)) :=
  match availablePools with
  | [] => Ok compatiblePools
  | poolCandidate :: rest =>
    if negb (checkCapacityConstraints (pool poolCandidate) request)
    then collectCompatible request rest compatiblePools
    else if negb (checkLocationCompatibility request
                    (existingRequests poolCandidate))
    then collectCompatible request rest compatiblePools
    else
      let* routeAnalysis :=
        analyzeRouteWithNewMember request
          (existingRequests poolCandidate) (existingMembers poolCandidate) in
      if negb (valid routeAnalysis)
      then collectCompatible request rest compatiblePools
      else
        let score :=
          calculateMatchScore routeAnalysis (pool poolCandidate) request in
        collectCompatible request rest
          (compatiblePools ++ [(poolCandidate, score)])
  end.

(** [None] is the [null] of "no match". *)
Definition findBestMatch (request : RideRequest)
    (availablePools : list PoolCandidate) : result (option PoolCandidate) :=
  let* compatiblePools := collectCompatible request availablePools [] in
  match compatiblePools with
  | [] => Ok None
  | _ => Ok (fst <$> head (sortByScore compatiblePools))
  end.
End MatchingEngine.

(** ** Batch pooling ([MatchingEngine.generateOptimalPools]) *)

(** [[...requests].sort((a, b) => a.requested_at - b.requested_at)]: a stable
    sort, earliest first. *)
Fixpoint insertByTime (x : RideRequest) (sorted : list RideRequest)
    : list RideRequest :=
  match sorted with
  | [] => [x]
  | y :: sorted' =>
    if (requested_at y <? requested_at x)%Z then y :: insertByTime x sorted'
    else x :: sorted
  end.

Definition sortByTime (l : list RideRequest) : list RideRequest :=
  foldr insertByTime [] l.

(** What the batch loop holds: the returned array [pools], the set
    [assigned], and the sizes written by
    [logger.info(`Created pool with ${compatible.length} members`)]. *)
Record BatchState (MatchResult : Type) := {
  pools : list MatchResult;
  assigned : gset string;
  createdSizes : list nat
}.
Arguments pools {MatchResult} _.
Arguments assigned {MatchResult} _.
Arguments createdSizes {MatchResult} _.

Section BatchPooling.
Variable calculateDistance : Q → Q → Q → Q → Q.
Variable config : RidePoolingConfig.
Variable MatchResult : Type.

(** The inner [for] over [sortedRequests]: returns [compatible] and
    [assigned] as they stand when the loop ends or breaks. *)
Fixpoint absorbLoop (others : list RideRequest)
    (compatible : list RideRequest) (assigned : gset string)
    : list RideRequest * gset string :=
  match others with
  | [] => (compatible, assigned)
  | otherRequest :: others' =>
    if decide (req_id otherRequest ∈ assigned)
    then absorbLoop others' compatible assigned
    else if (maxPassengersPerPool config <=? Z.of_nat (length compatible))%Z
    then (compatible, assigned)
    else
      if checkLocationCompatibility calculateDistance config
           otherRequest compatible
      then
        let totalPassengers :=
          (foldl (λ sum r, sum + passenger_count r) 0 compatible
           + passenger_count otherRequest)%Z in
        let totalLuggage :=
          (foldl (λ sum r, sum + luggage_count r) 0 compatible
           + luggage_count otherRequest)%Z in
        if (totalPassengers <=? maxPassengersPerPool config)%Z
           && (totalLuggage <=? maxLuggageCapacity config)%Z
        then absorbLoop others' (compatible ++ [otherRequest])
               ({[req_id otherRequest]} ∪ assigned)
        else absorbLoop others' compatible assigned
      else absorbLoop others' compatible assigned
  end.

(** The outer [for] over [sortedRequests]. *)
Fixpoint seedLoop (sortedRequests rest : list RideRequest)
    (st : BatchState MatchResult) : BatchState MatchResult :=
  match rest with
  | [] => st
  | request :: rest' =>
    if decide (req_id request ∈ assigned st)
    then seedLoop sortedRequests rest' st
    else
      let '(compatible, assigned') :=
        absorbLoop sortedRequests [request]
          ({[req_id request]} ∪ assigned st) in
      seedLoop sortedRequests rest'
        {| pools := pools st;
           assigned := assigned';
           createdSizes := createdSizes st ++ [length compatible] |}
  end.

Definition batchRun (requests : list RideRequest) : BatchState MatchResult :=
  let sortedRequests := sortByTime requests in
  seedLoop sortedRequests sortedRequests
    {| pools := []; assigned := ∅; createdSizes := [] |}.

Definition generateOptimalPools (requests : list RideRequest)
    : list MatchResult :=
  pools (batchRun requests).
End BatchPooling.

(** ** The store and its transactions *)

Record Db := {
  ride_requests : list RideRequest;
  ride_pools : list RidePool;
  pool_members : list PoolMember
}.

(** A statement sequence running on one client inside a transaction. *)
Definition Tx (A : Type) : Type := Db → result (A * Db).

Definition txBind {A B} (m : Tx A) (k : A → Tx B) : Tx B :=
  λ db, match m db with
        | Ok (a, db') => k a db'
        | Throw e => Throw e
        | OutOfFuel => OutOfFuel
        end.

Definition txRet {A} (a : A) : Tx A := λ db, Ok (a, db).
Definition txThrow {A} (e : string) : Tx A := λ _, Throw e.

Notation "'do*' x ← m ; k" := (txBind m (λ x, k))
  (at level 10, x pattern, m at level 100, k at level 200, only parsing).

(** [db.transaction(callback)]: COMMIT when the callback returns, ROLLBACK
    (the store is left as it was) when it throws. *)
Definition transaction {A} (callback : Tx A) (db : Db) : result A * Db :=
  match callback db with
  | Ok (a, db') => (Ok a, db')
  | Throw e => (Throw e, db)
  | OutOfFuel => (OutOfFuel, db)
  end.

(** *** Queries *)

Definition selectRequest (rid : string) : Tx (list RideRequest) :=
  λ db, Ok (filter (λ r, req_id r = rid) (ride_requests db), db).

Definition selectMembersOfRequest (rid : string) : Tx (list PoolMember) :=
  λ db, Ok (filter (λ m, ride_request_id m = rid) (pool_members db), db).

Definition selectMembersOfPool (poolId : string) : Tx (list PoolMember) :=
  λ db, Ok (filter (λ m, member_pool_id m = poolId) (pool_members db), db).

(** [SELECT passenger_count, luggage_count FROM ride_requests
     WHERE id = ANY(rideIds)]. *)
Definition selectRequestsIn (rideIds : list string) : Tx (list RideRequest) :=
  λ db, Ok (filter (λ r, req_id r ∈ rideIds) (ride_requests db), db).

Definition setRequestStatus (s : RideStatus) (r : RideRequest) : RideRequest :=
  {| req_id := req_id r; user_id := user_id r;
     pickup_latitude := pickup_latitude r;
     pickup_longitude := pickup_longitude r;
     dropoff_latitude := dropoff_latitude r;
     dropoff_longitude := dropoff_longitude r;
     passenger_count := passenger_count r;
     luggage_count := luggage_count r;
     max_detour_km := max_detour_km r;
     status := s;
     requested_at := requested_at r |}.

(** [UPDATE ride_requests SET status = s WHERE id = rid RETURNING *]. *)
Definition updateRequestStatus (rid : string) (s : RideStatus)
    : Tx (list RideRequest) :=
  λ db,
    let rows :=
      (λ r, if decide (req_id r = rid) then setRequestStatus s r else r)
        <$> ride_requests db in
    Ok (filter (λ r, req_id r = rid) rows,
        {| ride_requests := rows;
           ride_pools := ride_pools db;
           pool_members := pool_members db |}).

Definition setPoolCounts (passengers luggage : Z) (p : RidePool) : RidePool :=
  {| pool_id := pool_id p; pool_code := pool_code p;
     pool_status := pool_status p;
     current_passenger_count := passengers;
     current_luggage_count := luggage;
     max_passengers := max_passengers p;
     max_luggage := max_luggage p |}.

Definition setPoolStatus (s : PoolStatus) (p : RidePool) : RidePool :=
  {| pool_id := pool_id p; pool_code := pool_code p;
     pool_status := s;
     current_passenger_count := current_passenger_count p;
     current_luggage_count := current_luggage_count p;
     max_passengers := max_passengers p;
     max_luggage := max_luggage p |}.

Definition updatePool (poolId : string) (f : RidePool → RidePool) : Tx unit :=
  λ db,
    Ok (tt,
        {| ride_requests := ride_requests db;
           ride_pools :=
             (λ p, if decide (pool_id p = poolId) then f p else p)
               <$> ride_pools db;
           pool_members := pool_members db |}).

(** [INSERT INTO ride_pools ... RETURNING *]: the primary key and the
    UNIQUE pool code reject a duplicate. *)
Definition insertPool (p : RidePool) : Tx RidePool :=
  λ db,
    if decide (Exists (λ q, pool_id q = pool_id p
                            ∨ pool_code q = pool_code p) (ride_pools db))
    then Throw "duplicate key value violates unique constraint"
    else Ok (p, {| ride_requests := ride_requests db;
                   ride_pools := ride_pools db ++ [p];
                   pool_members := pool_members db |}).

(** [INSERT INTO pool_members ...]: both foreign keys and
    UNIQUE(pool_id, ride_request_id) are checked. *)
Definition insertMember (m : PoolMember) : Tx unit :=
  λ db,
    if decide (Exists (λ p, pool_id p = member_pool_id m) (ride_pools db)
               ∧ Exists (λ r, req_id r = ride_request_id m) (ride_requests db))
    then
      if decide (Exists (λ m', member_pool_id m' = member_pool_id m
                               ∧ ride_request_id m' = ride_request_id m)
                   (pool_members db))
      then Throw "duplicate key value violates unique constraint"
      else Ok (tt, {| ride_requests := ride_requests db;
                      ride_pools := ride_pools db;
                      pool_members := pool_members db ++ [m] |})
    else Throw "insert or update violates foreign key constraint".

Definition deleteMembers (P : PoolMember → Prop) `{∀ m, Decision (P m)}
    : Tx unit :=
  λ db,
    Ok (tt, {| ride_requests := ride_requests db;
               ride_pools := ride_pools db;
               pool_members := filter (λ m, ¬ P m) (pool_members db) |}).

(** ** Pool membership ([PoolService]) and cancellation ([RideService]) *)

Section PoolCoordinator.
Variable calculateDistance : Q → Q → Q → Q → Q.
Variable config : RidePoolingConfig.
(** The value [getDemandFactor] yields while the operation runs. *)
Variable demandFactor : Q.

Definition addMemberToPoolInternal (poolId rideRequestId : string) : Tx unit :=
  do* rideResult ← selectRequest rideRequestId;
  match rideResult with
  | [] => txThrow "Ride request not found"
  | ride :: _ =>
    do* existingMember ← selectMembersOfRequest rideRequestId;
    if (0 <? length existingMember)%nat
    then txThrow "Ride already in a pool"
    else
      do* members ← selectMembersOfPool poolId;
      let currentCount := Z.of_nat (length members) in
      let isPooled := (0 <? currentCount)%Z in
      let poolSize := (currentCount + 1)%Z in
      let priceBreakdown :=
        calculatePrice calculateDistance config demandFactor
          ride isPooled poolSize in
      do* _ ← insertMember
        {| member_pool_id := poolId;
           ride_request_id := rideRequestId;
           pickup_sequence := currentCount + 1;
           dropoff_sequence := (currentCount + 1) * 2;
           detour_distance_km := 0;
           price := final_price priceBreakdown |};
      do* _ ← updateRequestStatus rideRequestId matched;
      txRet tt
  end.

Definition recalculatePoolCapacityInternal (poolId : string) : Tx unit :=
  do* membersResult ← selectMembersOfPool poolId;
  let rideIds := ride_request_id <$> membersResult in
  if (length rideIds =? 0)%nat
  then updatePool poolId (setPoolCounts 0 0)
  else
    do* ridesResult ← selectRequestsIn rideIds;
    let totalPassengers :=
      foldl (λ sum r, sum + passenger_count r)%Z 0%Z ridesResult in
    let totalLuggage :=
      foldl (λ sum r, sum + luggage_count r)%Z 0%Z ridesResult in
    updatePool poolId (setPoolCounts totalPassengers totalLuggage).

Definition recalculatePoolCapacity (poolId : string) (db : Db)
    : result unit * Db :=
  transaction (recalculatePoolCapacityInternal poolId) db.

Fixpoint addMembers (poolId : string) (rideRequestIds : list string)
    : Tx unit :=
  match rideRequestIds with
  | [] => txRet tt
  | rideRequestId :: rest =>
    do* _ ← addMemberToPoolInternal poolId rideRequestId;
    addMembers poolId rest
  end.

(** [newPoolId] is the key [gen_random_uuid()] draws and [poolCode] the code
    [generatePoolCode] draws.  The returned pool is the row as inserted. *)
Definition createPool (newPoolId poolCode : string)
    (rideRequestIds : list string) (db : Db) : result RidePool * Db :=
  transaction
    (do* pool ← insertPool
       {| pool_id := newPoolId;
          pool_code := poolCode;
          pool_status := forming;
          current_passenger_count := 0;
          current_luggage_count := 0;
          max_passengers := maxPassengersPerPool config;
          max_luggage := maxLuggageCapacity config |};
     do* _ ← addMembers (pool_id pool) rideRequestIds;
     do* _ ← recalculatePoolCapacityInternal (pool_id pool);
     txRet pool) db.

Definition addMemberToPool (poolId rideRequestId : string) (db : Db)
    : result unit * Db :=
  transaction
    (do* _ ← addMemberToPoolInternal poolId rideRequestId;
     recalculatePoolCapacityInternal poolId) db.

Definition removeMemberFromPool (poolId rideRequestId : string) (db : Db)
    : result unit * Db :=
  transaction
    (do* _ ← deleteMembers
       (λ m, member_pool_id m = poolId ∧ ride_request_id m = rideRequestId);
     do* _ ← recalculatePoolCapacityInternal poolId;
     do* memberCount ← selectMembersOfPool poolId;
     if (length memberCount =? 0)%nat
     then updatePool poolId (setPoolStatus pool_cancelled)
     else txRet tt) db.

(** [recalculatePoolCapacity] opens a transaction of its own; inside the
    caller's transaction its effect joins the caller's state. *)
Definition cancelRideRequest (rid : string) (db : Db)
    : result RideRequest * Db :=
  transaction
    (do* result ← selectRequest rid;
     match result with
     | [] => txThrow "Ride request not found"
     | rideRequest :: _ =>
       if decide (status rideRequest = cancelled)
       then txThrow "Ride request already cancelled"
       else if decide (status rideRequest = completed)
       then txThrow "Cannot cancel completed ride"
       else
         do* updateResult ← updateRequestStatus rid cancelled;
         match updateResult with
         | [] => txThrow "TypeError"      (* not reached: the row is locked *)
         | updatedRequest :: _ =>
           do* _ ←
             (if decide (status rideRequest = matched)
              then
                do* _ ← deleteMembers (λ m, ride_request_id m = rid);
                do* poolResult ← selectMembersOfRequest rid;
                match poolResult with
                | [] => txRet tt
                | row :: _ =>
                  recalculatePoolCapacityInternal (member_pool_id row)
                end
              else txRet tt);
           txRet updatedRequest
         end
     end) db.
End PoolCoordinator.

(** ** The formulas and predicates of the specification *)

(** A distance function for closed examples: coordinates are read as
    kilometres on a grid and the distance is the taxicab one.  It stands in
    for [calculateDistance] wherever an example has to be evaluated. *)
Definition gridDistance (lat1 lon1 lat2 lon2 : Q) : Q :=
  (Qabs (lat2 - lat1) + Qabs (lon2 - lon1))%Q.

Definition mkRequest (rid uid : string) (plat plon dlat dlon : Q)
    (passengers luggage : Z) (maxDetour : Q) (st : RideStatus) (at_ : Z)
    : RideRequest :=
  {| req_id := rid; user_id := uid;
     pickup_latitude := plat; pickup_longitude := plon;
     dropoff_latitude := dlat; dropoff_longitude := dlon;
     passenger_count := passengers; luggage_count := luggage;
     max_detour_km := maxDetour; status := st; requested_at := at_ |}.

Section SpecPricing.
Variable config : RidePoolingConfig.

(** The pricing formula as the specification writes it, §4.3. *)
Definition spec_subtotal (distanceKm : Q) : Q :=
  (baseFare config + distanceKm * perKmRate config)%Q.
Definition spec_surge (demandFactor : Q) : Q :=
  Qmin (1 + demandFactor * (5 # 10)) (surgeMultiplierMax config).
Definition spec_surge_amount (distanceKm demandFactor : Q) : Q :=
  (spec_subtotal distanceKm * (spec_surge demandFactor - 1))%Q.
Definition spec_discount_pct (isPooled : bool) (poolSize : Z) : Q :=
  if isPooled
  then Qmin (poolDiscountPercent config + (inject_Z poolSize - 1) * 5) 30
  else 0%Q.
Definition spec_pool_discount (distanceKm demandFactor : Q)
    (isPooled : bool) (poolSize : Z) : Q :=
  ((spec_subtotal distanceKm + spec_surge_amount distanceKm demandFactor)
   * spec_discount_pct isPooled poolSize / 100)%Q.
Definition spec_final_price (distanceKm demandFactor : Q)
    (isPooled : bool) (poolSize : Z) : Q :=
  Qmax 0 (spec_subtotal distanceKm + spec_surge_amount distanceKm demandFactor
          - spec_pool_discount distanceKm demandFactor isPooled poolSize).

(** Every reported quantity but [distance_km], against the formula. *)
Definition followsFormula (b : PriceBreakdown) (distanceKm demandFactor : Q)
    (isPooled : bool) (poolSize : Z) : Prop :=
  (base_fare b == baseFare config)%Q
  ∧ (distance_fare b == distanceKm * perKmRate config)%Q
  ∧ (subtotal b == spec_subtotal distanceKm)%Q
  ∧ (surge_multiplier b == spec_surge demandFactor)%Q
  ∧ (surge_amount b == spec_surge_amount distanceKm demandFactor)%Q
  ∧ (pool_discount b
     == spec_pool_discount distanceKm demandFactor isPooled poolSize)%Q
  ∧ (final_price b
     == toFixed2
          (spec_final_price distanceKm demandFactor isPooled poolSize))%Q
  ∧ (demand_factor b == demandFactor)%Q.

(** The claim as the specification states it: rounding at [final_price]
    only, so [distance_km] is reported at full precision. *)
Definition roundsOnlyFinalPrice (b : PriceBreakdown)
    (distanceKm demandFactor : Q) (isPooled : bool) (poolSize : Z) : Prop :=
  followsFormula b distanceKm demandFactor isPooled poolSize
  ∧ (distance_km b == distanceKm)%Q.
End SpecPricing.

(** The coarse location filter as the specification states it, §4.4 step 2:
    the tolerance is the request's own [max_detour_km]. *)
Definition locationFilter_spec (calculateDistance : Q → Q → Q → Q → Q)
    (request : RideRequest) (existingRequests : list RideRequest) : Prop :=
  existingRequests = []
  ∨ ∃ m, m ∈ existingRequests
      ∧ (calculateDistance (pickup_latitude request) (pickup_longitude request)
           (pickup_latitude m) (pickup_longitude m)
         <= max_detour_km request)%Q
      ∧ (calculateDistance (dropoff_latitude request)
           (dropoff_longitude request)
           (dropoff_latitude m) (dropoff_longitude m)
         <= 2 * max_detour_km request)%Q.

(** ** Fixtures and predicates used by the theorems *)

(** A trip of ten kilometres. *)
Definition tenKmTrip : RideRequest :=
  mkRequest "r-10km" "u-1" 0 0 10 0 1 0 5 pending 0.

(** A trip of a third of a kilometre. *)
Definition thirdKmTrip : RideRequest :=
  mkRequest "r-third" "u-1" 0 0 (1 # 3) 0 1 0 5 pending 0.

(** A rider who tolerates 1 km of detour and a pool member 3 km away. *)
Definition strictRider : RideRequest :=
  mkRequest "r-new" "u-new" 0 0 20 0 1 0 1 pending 10.
Definition memberThreeKmAway : RideRequest :=
  mkRequest "r-old" "u-old" 3 0 20 0 1 0 5 matched 0.

(** A store holding one cancelled and one completed request. *)
Definition cancelledRide : RideRequest :=
  mkRequest "r-1" "u-1" 0 0 10 0 1 1 5 cancelled 0.
Definition completedRide : RideRequest :=
  mkRequest "r-2" "u-2" 0 0 10 0 1 1 5 completed 0.
Definition terminalDb : Db :=
  {| ride_requests := [cancelledRide; completedRide];
     ride_pools := []; pool_members := [] |}.

(** The number of members of a pool among the rows [members]. *)
Definition memberCountOf (poolId : string) (members : list PoolMember) : Z :=
  Z.of_nat (length (filter (λ m, member_pool_id m = poolId) members)).

(** The shape of the row inserted for request [rid] into pool [poolId] when
    the pool had [n] members. *)
Definition insertedAfter (n : Z) (poolId rid : string) (row : PoolMember)
    : Prop :=
  member_pool_id row = poolId
  ∧ ride_request_id row = rid
  ∧ detour_distance_km row = 0%Q
  ∧ pickup_sequence row = (n + 1)%Z
  ∧ dropoff_sequence row = (2 * (n + 1))%Z.

(** A store with three pending requests and no pool, the pool opened for the
    first two, and the same pool after the third has joined. *)
Definition rideA : RideRequest :=
  mkRequest "r-a" "u-a" 0 0 10 0 2 1 5 pending 0.
Definition rideB : RideRequest :=
  mkRequest "r-b" "u-b" 1 0 10 1 1 2 5 pending 1.
Definition rideC : RideRequest :=
  mkRequest "r-c" "u-c" 0 1 11 0 1 0 5 pending 2.
Definition freshDb : Db :=
  {| ride_requests := [rideA; rideB; rideC];
     ride_pools := []; pool_members := [] |}.
Definition openedPool : RidePool :=
  {| pool_id := "p-1"; pool_code := "POOLAAAAAA"; pool_status := forming;
     current_passenger_count := 0; current_luggage_count := 0;
     max_passengers := 4; max_luggage := 8 |}.
Definition poolDb : Db :=
  snd (createPool gridDistance defaultConfig 0 "p-1" "POOLAAAAAA"
         ["r-a"; "r-b"] freshDb).
Definition joinedDb : Db :=
  snd (addMemberToPool gridDistance defaultConfig 0 "p-1" "r-c" poolDb).

Definition requestOf (db : Db) (rid : string) : option RideRequest :=
  head (filter (λ r, req_id r = rid) (ride_requests db)).

(** The sum of [f] over the requests of the current members of a pool. *)
Definition sumOverMembers (f : RideRequest → Z) (db : Db) (poolId : string)
    : Z :=
  foldr (λ m acc, match requestOf db (ride_request_id m) with
                  | Some r => (f r + acc)%Z
                  | None => acc
                  end)
    0%Z (filter (λ m, member_pool_id m = poolId) (pool_members db)).

Definition countersMatch (db : Db) (p : RidePool) : Prop :=
  current_passenger_count p = sumOverMembers passenger_count db (pool_id p)
  ∧ current_luggage_count p = sumOverMembers luggage_count db (pool_id p).

Definition countersConsistent (db : Db) : Prop :=
  Forall (countersMatch db) (ride_pools db).

(** The pool store after a cancellation, and after a removal. *)
Definition afterCancelDb : Db := snd (cancelRideRequest "r-a" poolDb).
Definition afterRemoveDb : Db := snd (removeMemberFromPool "p-1" "r-a" poolDb).

(** ** Predicates on the state of the route loop *)

(** The constraint of the scan: a dropoff is skipped until its rider has
    been picked up. *)
Definition eligible (st : RouteState) (s : Stop) : Prop :=
  ¬ (stop_type s = dropoff ∧ userId s ∉ userPickedUp st).

(** What every state of the loop satisfies: [optimized] lists the stops at
    the visited indices, in the order of the visits. *)
Definition routeInv (stops : list Stop) (st : RouteState) : Prop :=
  ∃ order : list nat,
    NoDup order
    ∧ (∀ i, i ∈ order → i < length stops)
    ∧ visited st = list_to_set order
    ∧ Forall2 (λ i s, stops !! i = Some s) order (optimized st)
    ∧ optimized st ≠ [].

(** [userPickedUp] holds exactly the riders whose pickup is on the route so
    far, and every dropoff on it comes after a pickup of the same rider. *)
Definition pickupInv (st : RouteState) : Prop :=
  (∀ u, u ∈ userPickedUp st
        ↔ ∃ s, s ∈ optimized st ∧ stop_type s = pickup ∧ userId s = u)
  ∧ ∀ j d, optimized st !! j = Some d → stop_type d = dropoff →
      ∃ i p, i < j ∧ optimized st !! i = Some p
             ∧ stop_type p = pickup ∧ userId p = userId d.

(** Exactly one pickup stop and one dropoff stop for every rider that has a
    stop at all. *)
Definition onePickupOneDropoff (stops : list Stop) : Prop :=
  ∀ s, s ∈ stops →
    length (filter (λ t, userId t = userId s ∧ stop_type t = pickup) stops) = 1
    ∧ length (filter (λ t, userId t = userId s ∧ stop_type t = dropoff) stops)
      = 1.

(** On the returned route every rider's pickup precedes that rider's
    dropoff. *)
Definition pickupBeforeDropoff (route : list Stop) : Prop :=
  ∀ i j p d, route !! i = Some p → route !! j = Some d →
    stop_type p = pickup → stop_type d = dropoff → userId p = userId d →
    i < j.

(** ** The accepted-match constraints *)

(** A stop made by [analyzeRouteWithNewMember]. *)
Definition builtStop (s : Stop) : Prop :=
  ∃ r, s = pickupStop r ∨ s = dropoffStop r.

(** What the specification requires of a pool accepted for a request: room
    for the request, and for every rider of the combined pool a detour
    along the sequenced route within the rider's and the global bound. *)
Definition acceptedMatchConstraints (calculateDistance : Q → Q → Q → Q → Q)
    (config : RidePoolingConfig) (request : RideRequest) (c : PoolCandidate)
    : Prop :=
  (current_passenger_count (pool c) + passenger_count request
     ≤ max_passengers (pool c))%Z
  ∧ (current_luggage_count (pool c) + luggage_count request
       ≤ max_luggage (pool c))%Z
  ∧ ∃ optimizedRoute,
      optimizeRoute calculateDistance
        (buildStops request (existingRequests c)) = Ok optimizedRoute
      ∧ ∀ rider, rider ∈ existingRequests c ++ [request] →
          ∃ detour,
            riderDetour calculateDistance optimizedRoute rider
              = Ok (Some detour)
            ∧ (detour
               <= Qmin (max_detour_km rider) (maxDetourToleranceKm config))%Q.

(** ** The matching scenario of the specification *)

(** A pool at 3 of 4 passengers with one member, and a request of one
    passenger whose pickup lies 2 km from the member's pickup and whose
    dropoff lies 3 km from the member's dropoff; both tolerate 5 km. *)
Definition scenarioMember : RideRequest :=
  mkRequest "req-m" "user-m" 0 0 20 0 3 2 5 matched 0.
Definition scenarioRequest : RideRequest :=
  mkRequest "req-n" "user-n" 2 0 20 3 1 1 5 pending 60000.
Definition scenarioPool : RidePool :=
  {| pool_id := "pool-1"; pool_code := "POOLSCENE1"; pool_status := forming;
     current_passenger_count := 3; current_luggage_count := 2;
     max_passengers := 4; max_luggage := 8 |}.
Definition scenarioCandidate : PoolCandidate :=
  {| pool := scenarioPool;
     existingMembers :=
       [{| member_pool_id := "pool-1"; ride_request_id := "req-m";
           pickup_sequence := 1; dropoff_sequence := 2;
           detour_distance_km := 0; price := 350 |}];
     existingRequests := [scenarioMember] |}.

(** The detour of a rider whose pickup and dropoff stand at the given
    positions of the route: the distance travelled between the two minus the
    direct distance. *)
Definition detourBetween (calculateDistance : Q → Q → Q → Q → Q)
    (optimizedRoute : list Stop) (req : RideRequest)
    (pickupIdx dropoffIdx : nat) : result Q :=
  let* actualDistance :=
    actualDistanceOf calculateDistance optimizedRoute pickupIdx dropoffIdx in
  Ok (actualDistance
      - calculateDistance (pickup_latitude req) (pickup_longitude req)
          (dropoff_latitude req) (dropoff_longitude req))%Q.

(** A full pool (4 of 4 passengers) whose member travels exactly the
    request's trip. *)
Definition fullPoolMember : RideRequest :=
  mkRequest "req-f" "user-f" 2 0 20 3 4 2 5 matched 0.
Definition fullCandidate : PoolCandidate :=
  {| pool :=
       {| pool_id := "pool-2"; pool_code := "POOLSCENE2";
          pool_status := forming;
          current_passenger_count := 4; current_luggage_count := 2;
          max_passengers := 4; max_luggage := 8 |};
     existingMembers :=
       [{| member_pool_id := "pool-2"; ride_request_id := "req-f";
           pickup_sequence := 1; dropoff_sequence := 2;
           detour_distance_km := 0; price := 350 |}];
     existingRequests := [fullPoolMember] |}.

(** ** The batch scenario of the specification *)

(** Five pending requests of one passenger each, submitted a second apart,
    with pickups within 1 km and dropoffs within 2 km of one another. *)
Definition fiveRequests : list RideRequest :=
  [ mkRequest "req-1" "user-1" 0 0 20 0 1 1 5 pending 1000;
    mkRequest "req-2" "user-2" (1 # 2) 0 20 1 1 1 5 pending 2000;
    mkRequest "req-3" "user-3" 0 (1 # 2) 21 0 1 1 5 pending 3000;
    mkRequest "req-4" "user-4" (1 # 2) (1 # 2) 21 1 1 1 5 pending 4000;
    mkRequest "req-5" "user-5" 1 0 20 (1 # 2) 1 1 5 pending 5000 ].

(** Every two of the requests pass the pairwise location check. *)
Definition pairwiseCompatible (calculateDistance : Q → Q → Q → Q → Q)
    (config : RidePoolingConfig) (requests : list RideRequest) : Prop :=
  ∀ a b, a ∈ requests → b ∈ requests →
    areLocationsCompatible calculateDistance (pickupOf a) (dropoffOf a)
      (pickupOf b) (dropoffOf b) (maxDetourToleranceKm config) = true.

(** The stops of the matching scenario, as [analyzeRouteWithNewMember]
    hands them to [optimizeRoute]. *)
Definition scenarioStops : list Stop :=
  buildStops scenarioRequest [scenarioMember].

(** ** Integrity of the store *)

(** The two uniqueness constraints of the schema that the counters rely
    on: the primary key of [ride_requests] and UNIQUE(pool_id,
    ride_request_id) of [pool_members]. *)
Definition keysUnique (db : Db) : Prop :=
  NoDup (req_id <$> ride_requests db)
  ∧ NoDup ((λ m, (member_pool_id m, ride_request_id m)) <$> pool_members db).

Definition sumZ (l : list Z) : Z := foldr Z.add 0%Z l.

(** [db1] differs from [db] at most in the membership of pool [poolId] and
    in the status of requests. *)
Definition onlyTouches (poolId : string) (db db1 : Db) : Prop :=
  ride_pools db1 = ride_pools db
  ∧ (∀ other, other ≠ poolId →
       filter (λ m, member_pool_id m = other) (pool_members db1)
       = filter (λ m, member_pool_id m = other) (pool_members db))
  ∧ (∀ i, passenger_count <$> requestOf db1 i
          = passenger_count <$> requestOf db i)
  ∧ (∀ i, luggage_count <$> requestOf db1 i
          = luggage_count <$> requestOf db i)
  ∧ (keysUnique db → keysUnique db1).

(** The invariant of the store: unique keys, and every pool's counters
    equal to the sums over its current members. *)
Definition storeInv (db : Db) : Prop :=
  keysUnique db ∧ countersConsistent db.

(** * The rest of the code *)

(** ** Detour of a route ([src/utils/distance.ts]) *)

(** What the properties of routes ask of a distance function: it is never
    negative, a point is at distance 0 from itself, and a detour through a
    third point is never shorter. *)
Definition distanceLaws (calculateDistance : Q → Q → Q → Q → Q) : Prop :=
  (∀ a b c d, 0 <= calculateDistance a b c d)%Q
  ∧ (∀ a b, calculateDistance a b a b == 0)%Q
  ∧ (∀ a b c d e f,
       calculateDistance a b e f
       <= calculateDistance a b c d + calculateDistance c d e f)%Q.

Definition coordsOf (s : Stop) : LatLon := {| pt_lat := lat s; pt_lon := lon s |}.

Section Detour.
Variable calculateDistance : Q → Q → Q → Q → Q.

Definition distanceBetween (p q : LatLon) : Q :=
  calculateDistance (pt_lat p) (pt_lon p) (pt_lat q) (pt_lon q).

(** The loop of [calculateDetour] over [fullRoute]. *)
Fixpoint sumPointLegs (fullRoute : list LatLon) (totalWithNewPoint : Q) : Q :=
  match fullRoute with
  | a :: (b :: _) as tl =>
    sumPointLegs tl (totalWithNewPoint + distanceBetween a b)%Q
  | _ => totalWithNewPoint
  end.

Definition calculateDetour (currentRoute : list LatLon) (newPoint : LatLon)
    : Q :=
  match currentRoute with
  | [] => 0%Q
  | first :: _ =>
    let directDistance :=
      distanceBetween first (List.last currentRoute first) in
    let totalWithNewPoint := sumPointLegs (currentRoute ++ [newPoint]) 0 in
    (totalWithNewPoint - directDistance)%Q
  end.
End Detour.

(** ** The demand factor ([PricingService]) *)

(** [calculateDemandFactor], given the clock: [now] in milliseconds and the
    local [hour] of the day.  The query counts the pending requests of the
    last five minutes. *)
Definition countRecentPending (now : Z) (db : Db) : Z :=
  Z.of_nat (length (filter
    (λ r, status r = pending ∧ (now - 300000 < requested_at r)%Z)
    (ride_requests db))).

Definition demandFactorOf (pendingCount hour : Z) : Q :=
  let timeOfDayFactor :=
    if ((7 <=? hour) && (hour <=? 9) || (17 <=? hour) && (hour <=? 20))%Z
    then (15 # 10)%Q else 1%Q in
  let volumeFactor :=
    if (50 <? pendingCount)%Z then 2%Q
    else if (30 <? pendingCount)%Z then (15 # 10)%Q
    else if (10 <? pendingCount)%Z then 1%Q
    else (5 # 10)%Q in
  let demandFactor := ((volumeFactor + timeOfDayFactor) / 2)%Q in
  Qmin demandFactor 2.

Definition calculateDemandFactor (now hour : Z) (db : Db) : Q :=
  demandFactorOf (countRecentPending now db) hour.

(** [getDemandFactor]: the cached entry of key [demand:factor] when there is
    one, else the computed factor, which is written to the cache.  The first
    component is the factor, the second the entry afterwards. *)
Definition getDemandFactor (cached : option Q) (now hour : Z) (db : Db)
    : Q * option Q :=
  match cached with
  | Some demandFactor => (demandFactor, cached)
  | None =>
    let demandFactor := calculateDemandFactor now hour db in
    (demandFactor, Some demandFactor)
  end.

(** ** The nearest stop found so far by the scan *)

(** What the scan's two variables say after it has passed over the stops
    [pre]: either no unvisited eligible stop was seen, or [nearestIdx] is
    the first among the nearest of them and [minDistance] its distance from
    the current stop [cur]. *)
Definition nearestSoFar (calculateDistance : Q → Q → Q → Q → Q)
    (st : RouteState) (cur : Stop) (pre : list Stop)
    (nearestIdx : option nat) (minDistance : option Q) : Prop :=
  match nearestIdx, minDistance with
  | None, None =>
    ∀ j t, pre !! j = Some t → j ∉ visited st → ¬ eligible st t
  | Some k, Some m =>
    ∃ s, pre !! k = Some s
      ∧ m = calculateDistance (lat cur) (lon cur) (lat s) (lon s)
      ∧ (k ∉ visited st) ∧ eligible st s
      ∧ ∀ j t, pre !! j = Some t → j ∉ visited st → eligible st t →
          (m <= calculateDistance (lat cur) (lon cur) (lat t) (lon t))%Q
          ∧ (j < k →
             (m < calculateDistance (lat cur) (lon cur) (lat t) (lon t))%Q)
  | _, _ => False
  end.

(** The state of the route loop on the scenario's stops after its first
    iteration. *)
Definition scenarioSecondState : RouteState :=
  match loopBody gridDistance scenarioStops
          (initialState (pickupStop scenarioMember)) with
  | Ok st => st
  | _ => initialState (pickupStop scenarioMember)
  end.

(** ** Totals of a group of requests *)

Definition totalPassengersOf (group : list RideRequest) : Z :=
  foldl (λ sum r, sum + passenger_count r)%Z 0%Z group.
Definition totalLuggageOf (group : list RideRequest) : Z :=
  foldl (λ sum r, sum + luggage_count r)%Z 0%Z group.

(** A group within the three caps of the batch loop. *)
Definition withinCaps (config : RidePoolingConfig) (group : list RideRequest)
    : Prop :=
  (Z.of_nat (length group) ≤ maxPassengersPerPool config)%Z
  ∧ (totalPassengersOf group ≤ maxPassengersPerPool config)%Z
  ∧ (totalLuggageOf group ≤ maxLuggageCapacity config)%Z.

(** ** More of [RideService] and [PoolService] *)

(** [updateRideStatus]: one UPDATE outside any transaction. *)
Definition updateRideStatus (rid : string) (s : RideStatus) (db : Db)
    : result RideRequest * Db :=
  match updateRequestStatus rid s db with
  | Ok ([], db') => (Throw "Ride request not found", db')
  | Ok (row :: _, db') => (Ok row, db')
  | Throw e => (Throw e, db)
  | OutOfFuel => (OutOfFuel, db)
  end.

(** [updatePoolStatus]: [UPDATE ride_pools SET status = s WHERE id = poolId
    RETURNING *]. *)
Definition updatePoolStatus (poolId : string) (s : PoolStatus) (db : Db)
    : result RidePool * Db :=
  let rows :=
    (λ p, if decide (pool_id p = poolId) then setPoolStatus s p else p)
      <$> ride_pools db in
  match filter (λ p, pool_id p = poolId) rows with
  | [] => (Throw "Pool not found", db)
  | row :: _ =>
    (Ok row, {| ride_requests := ride_requests db;
                ride_pools := rows;
                pool_members := pool_members db |})
  end.

(** [getRideRequest]: the cached entry of key [ride:id] when there is one,
    else the row of the store, which is then cached.  The second component
    is the cache entry afterwards. *)
Definition getRideRequest (cached : option RideRequest) (rid : string)
    (db : Db) : option RideRequest * option RideRequest :=
  match cached with
  | Some rideRequest => (Some rideRequest, cached)
  | None =>
    match filter (λ r, req_id r = rid) (ride_requests db) with
    | [] => (None, None)
    | rideRequest :: _ => (Some rideRequest, Some rideRequest)
    end
  end.

(** [getAvailablePools].  The rows of [ride_pools] are held in the order of
    their insertion, which is the order of [created_at]. *)
Definition getAvailablePools (db : Db) : list PoolCandidate :=
  let poolsResult :=
    take 50
      (filter (λ p, (pool_status p = forming ∨ pool_status p = pool_confirmed)
                    ∧ (current_passenger_count p < max_passengers p)%Z)
         (ride_pools db)) in
  (λ pool,
     let membersResult :=
       filter (λ m, member_pool_id m = pool_id pool) (pool_members db) in
     let requestIds := ride_request_id <$> membersResult in
     {| pool := pool;
        existingMembers := membersResult;
        existingRequests :=
          filter (λ r, req_id r ∈ requestIds) (ride_requests db) |})
    <$> poolsResult.

Section Matching.
Variable calculateDistance : Q → Q → Q → Q → Q.
Variable config : RidePoolingConfig.
Variable demandFactor : Q.

(** [triggerMatching].  [cached] is the cache entry of the request,
    [newPoolId] and [poolCode] are the key and the code drawn if a pool is
    created. *)
Definition triggerMatching (cached : option RideRequest) (rid : string)
    (newPoolId poolCode : string) (db : Db) : result unit * Db :=
  match (getRideRequest cached rid db).1 with
  | None => (Ok tt, db)
  | Some request =>
    if decide (status request ≠ pending) then (Ok tt, db)
    else
      let availablePools := getAvailablePools db in
      match findBestMatch calculateDistance config request availablePools with
      | Ok (Some bestMatch) =>
        addMemberToPool calculateDistance config demandFactor
          (pool_id (pool bestMatch)) rid db
      | Ok None =>
        match createPool calculateDistance config demandFactor
                newPoolId poolCode [rid] db with
        | (Ok _, db') => (Ok tt, db')
        | (Throw e, db') => (Throw e, db')
        | (OutOfFuel, db') => (OutOfFuel, db')
        end
      | Throw e => (Throw e, db)
      | OutOfFuel => (OutOfFuel, db)
      end
  end.
End Matching.

(** A request belongs to at most one pool. *)
Definition atMostOnePool (db : Db) : Prop :=
  NoDup (ride_request_id <$> pool_members db).

(** A store whose pool is full (4 of 4 passengers) and a fourth request of
    two passengers. *)
Definition rideD : RideRequest :=
  mkRequest "r-d" "u-d" 1 1 11 1 2 1 5 pending 3.
Definition fullPoolDb : Db :=
  snd (createPool gridDistance defaultConfig 0 "p-1" "POOLAAAAAA"
         ["r-a"; "r-b"; "r-c"]
         {| ride_requests := [rideA; rideB; rideC; rideD];
            ride_pools := []; pool_members := [] |}).
Definition overfullDb : Db :=
  snd (addMemberToPool gridDistance defaultConfig 0 "p-1" "r-d" fullPoolDb).

(** The row [createPool] inserts into [ride_pools]. *)
Definition openedRow (config : RidePoolingConfig)
    (newPoolId poolCode : string) : RidePool :=
  {| pool_id := newPoolId;
     pool_code := poolCode;
     pool_status := forming;
     current_passenger_count := 0;
     current_luggage_count := 0;
     max_passengers := maxPassengersPerPool config;
     max_luggage := maxLuggageCapacity config |}.

(** * Theorems *)

(** ** Numbers *)

Lemma Qlt_bool_iff x y : Qlt_bool x y = true ↔ (x < y)%Q.
Proof.
  unfold Qlt_bool. rewrite negb_true_iff.
  split; intros H.
  - apply Qnot_le_lt. intros Hle. apply Qle_bool_iff in Hle. congruence.
  - destruct (Qle_bool y x) eqn:E; [|done].
    apply Qle_bool_iff in E. exfalso. by apply (Qlt_not_le x y).
Qed.

Global Instance toFixed2_proper : Proper (Qeq ==> eq) toFixed2.
Proof.
  intros x y Hxy. unfold toFixed2.
  destruct (Qlt_le_dec x 0) as [Hx|Hx], (Qlt_le_dec y 0) as [Hy|Hy].
  - by rewrite Hxy.
  - rewrite Hxy in Hx. exfalso. by apply (Qlt_not_le y 0).
  - rewrite Hxy in Hx. exfalso. by apply (Qlt_not_le y 0).
  - by rewrite Hxy.
Qed.

(** ** Pricing *)

Section PricingFacts.
Variable calculateDistance : Q → Q → Q → Q → Q.
Variable config : RidePoolingConfig.

Lemma calculatePrice_followsFormula demandFactor request isPooled poolSize :
  followsFormula config
    (calculatePrice calculateDistance config demandFactor request
       isPooled poolSize)
    (calculateDistance (pickup_latitude request) (pickup_longitude request)
       (dropoff_latitude request) (dropoff_longitude request))
    demandFactor isPooled poolSize.
Proof.
  set (d := calculateDistance _ _ _ _).
  assert (Hsurge : (calculateSurgeMultiplier config demandFactor
                    == spec_surge config demandFactor)%Q).
  { unfold calculateSurgeMultiplier, spec_surge. cbv zeta.
    apply Q.min_compat; [|reflexivity].
    apply Qplus_comp; [reflexivity|]. apply Qmult_comp; reflexivity. }
  assert (Hdisc : ((if isPooled
                    then (spec_subtotal config d
                          + spec_subtotal config d
                            * (calculateSurgeMultiplier config demandFactor - 1))
                         * (calculatePoolDiscount config poolSize / 100)
                    else 0)
                   == spec_pool_discount config d demandFactor
                        isPooled poolSize)%Q).
  { unfold spec_pool_discount, spec_surge_amount, spec_discount_pct,
      calculatePoolDiscount. cbv zeta.
    destruct isPooled.
    - rewrite Hsurge. field.
    - field. }
  unfold followsFormula, calculatePrice; cbn -[Qmin Qmax toFixed2].
  fold d. fold (spec_subtotal config d).
  repeat split; try reflexivity.
  - exact Hsurge.
  - unfold spec_surge_amount. by rewrite Hsurge.
  - exact Hdisc.
  - unfold spec_final_price.
    rewrite Hdisc. unfold spec_surge_amount. by rewrite Hsurge.
Qed.
End PricingFacts.

Lemma toFixed2_close x : (Qabs (toFixed2 x - x) <= 1 # 200)%Q.
Proof.
  assert (Hn : ∀ n : Z, (n # 100 == inject_Z n / 100)%Q).
  { intros n. unfold Qeq, Qdiv, Qmult, Qinv, inject_Z. simpl. lia. }
  assert (Hpos : ∀ y, (Qabs ((Qfloor (y * 100 + (1 # 2)) # 100) - y)
                        <= 1 # 200)%Q).
  { intros y. rewrite Hn.
    pose proof (Qfloor_le (y * 100 + (1 # 2))) as Hlo.
    pose proof (Qlt_floor (y * 100 + (1 # 2))) as Hhi.
    rewrite inject_Z_plus in Hhi.
    set (f := inject_Z (Qfloor (y * 100 + (1 # 2)))) in *.
    change (inject_Z 1) with 1%Q in Hhi.
    assert (Hdiv : (f / 100 == f * (1 # 100))%Q) by field.
    rewrite Hdiv. apply Qabs_Qle_condition. split; lra. }
  unfold toFixed2. destruct (Qlt_le_dec x 0) as [Hx|Hx].
  - specialize (Hpos (- x)%Q).
    rewrite <- Qabs_opp.
    assert (He : (- (- (Qfloor (- x * 100 + (1 # 2)) # 100) - x)
                  == (Qfloor (- x * 100 + (1 # 2)) # 100) - - x)%Q) by ring.
    by rewrite He.
  - apply Hpos.
Qed.

(** C4 (the code at the scenario's input).  With base fare 50, rate 15 per
    km, a 10 km trip and demand factor 0, [calculatePrice] reports surge 1,
    subtotal 200 and a solo final price of 200; for a pooled ride with
    [poolSize = 2] it applies a discount of 25 percent, not 20: the pool
    discount is 50 and the final price 150. *)
Theorem poolSize2_discount_is_25
    (calculateDistance : Q → Q → Q → Q → Q) (request : RideRequest) :
  (calculateDistance (pickup_latitude request) (pickup_longitude request)
     (dropoff_latitude request) (dropoff_longitude request) == 10)%Q →
  let solo := calculatePrice calculateDistance defaultConfig 0 request false 1 in
  let pooled := calculatePrice calculateDistance defaultConfig 0 request true 2 in
  (surge_multiplier solo == 1)%Q
  ∧ (subtotal solo == 200)%Q
  ∧ (final_price solo == 200)%Q
  ∧ (calculatePoolDiscount defaultConfig 2 == 25)%Q
  ∧ (pool_discount pooled == 50)%Q
  ∧ (final_price pooled == 150)%Q
  ∧ ¬ (final_price pooled == 160)%Q.
Proof.
  intros Hd solo pooled. subst solo pooled.
  unfold calculatePrice; cbn -[Qmin Qmax toFixed2 Qplus Qmult Qminus Qdiv].
  rewrite !Hd.
  repeat split; try (vm_compute; reflexivity).
  vm_compute. discriminate.
Qed.

Lemma poolSize2_discount_is_25_witness :
  (final_price (calculatePrice gridDistance defaultConfig 0 tenKmTrip true 2)
   == 150)%Q.
Proof.
  pose proof (poolSize2_discount_is_25 gridDistance tenKmTrip) as H.
  cbv zeta in H.
  assert (Hd : (gridDistance (pickup_latitude tenKmTrip)
                  (pickup_longitude tenKmTrip) (dropoff_latitude tenKmTrip)
                  (dropoff_longitude tenKmTrip) == 10)%Q)
    by (vm_compute; reflexivity).
  exact (proj1 (proj2 (proj2 (proj2 (proj2 (proj2 (H Hd))))))).
Defined.



(** ** The coarse location filter *)

Section LocationFilter.
Variable calculateDistance : Q → Q → Q → Q → Q.
Variable config : RidePoolingConfig.

Lemma areLocationsCompatible_iff p1 d1 p2 d2 maxDetourKm :
  areLocationsCompatible calculateDistance p1 d1 p2 d2 maxDetourKm = true
  ↔ (calculateDistance (pt_lat p1) (pt_lon p1) (pt_lat p2) (pt_lon p2)
       <= maxDetourKm)%Q
    ∧ (calculateDistance (pt_lat d1) (pt_lon d1) (pt_lat d2) (pt_lon d2)
       <= maxDetourKm * 2)%Q.
Proof.
  unfold areLocationsCompatible. rewrite andb_true_iff.
  by rewrite !Qle_bool_iff.
Qed.
End LocationFilter.

(** C8 as stated fails: with the configured tolerance of 5 km, a request
    whose own [max_detour_km] is 1 passes the filter against a member 3 km
    away, although no member lies within the request's own tolerance. *)
Lemma locationFilter_ignores_request_tolerance :
  checkLocationCompatibility gridDistance defaultConfig strictRider
    [memberThreeKmAway] = true
  ∧ ¬ locationFilter_spec gridDistance strictRider [memberThreeKmAway].
Proof.
  split; [vm_compute; reflexivity|].
  intros [Hnil | (m & Hm & Hp & _)]; [discriminate|].
  apply list_elem_of_singleton in Hm. subst m.
  vm_compute in Hp. by apply Hp.
Qed.

(** C8 (amended).  The coarse location filter passes a candidate exactly
    when the pool has no existing member, or some existing member's pickup
    is within the configured tolerance [maxDetourToleranceKm] of the
    request's pickup and that same member's dropoff is within twice that
    tolerance of the request's dropoff.  The request's own [max_detour_km]
    plays no part. *)
Theorem checkLocationCompatibility_iff
    (calculateDistance : Q → Q → Q → Q → Q) (config : RidePoolingConfig)
    (newRequest : RideRequest) (existingRequests : list RideRequest) :
  checkLocationCompatibility calculateDistance config newRequest
    existingRequests = true
  ↔ existingRequests = []
    ∨ ∃ m, m ∈ existingRequests
        ∧ (calculateDistance
             (pickup_latitude newRequest) (pickup_longitude newRequest)
             (pickup_latitude m) (pickup_longitude m)
           <= maxDetourToleranceKm config)%Q
        ∧ (calculateDistance
             (dropoff_latitude newRequest) (dropoff_longitude newRequest)
             (dropoff_latitude m) (dropoff_longitude m)
           <= 2 * maxDetourToleranceKm config)%Q.
Proof.
  unfold checkLocationCompatibility.
  destruct existingRequests as [|e rest]; [naive_solver|].
  cbn [length Nat.eqb].
  set (f := λ existingReq : RideRequest, areLocationsCompatible _ _ _ _ _ _).
  destruct (existsb f (e :: rest)) eqn:E.
  - split; [|done]. intros _. right.
    apply existsb_exists in E as (m & Hin & Hm).
    apply areLocationsCompatible_iff in Hm as [Hp Hd]. cbn in Hp, Hd.
    exists m. split; [by apply list_elem_of_In|]. split; [done|].
    by rewrite Qmult_comm.
  - split; [done|]. intros [Hnil | (m & Hin & Hp & Hd)]; [done|].
    assert (existsb f (e :: rest) = true) as Hex; [|congruence].
    apply existsb_exists. exists m. split; [by apply list_elem_of_In|].
    apply areLocationsCompatible_iff. cbn. split; [done|].
    by rewrite Qmult_comm.
Qed.

(** ** Cancellation of a request in a terminal state *)

(** C3 (amended).  [cancelRideRequest] applied to a request whose status is
    already cancelled or completed raises an error ("Ride request already
    cancelled", "Cannot cancel completed ride") and leaves the store as it
    was. *)
Theorem cancel_terminal_throws (rid : string) (db : Db) (r : RideRequest) :
  head (filter (λ r, req_id r = rid) (ride_requests db)) = Some r →
  status r = cancelled ∨ status r = completed →
  cancelRideRequest rid db
  = (Throw (if decide (status r = cancelled)
            then "Ride request already cancelled"
            else "Cannot cancel completed ride"), db).
Proof.
  intros Hhead Hst.
  unfold cancelRideRequest, transaction, txBind, selectRequest.
  destruct (filter _ (ride_requests db)) as [|r' rows]; [done|].
  cbn in Hhead. assert (r' = r) as -> by congruence.
  destruct (decide (status r = cancelled)) as [Hc|Hc]; [done|].
  destruct (decide (status r = completed)) as [Hd|Hd]; [done|].
  destruct Hst; contradiction.
Qed.

Lemma cancel_terminal_throws_witness :
  cancelRideRequest "r-1" terminalDb
  = (Throw "Ride request already cancelled", terminalDb)
  ∧ cancelRideRequest "r-2" terminalDb
    = (Throw "Cannot cancel completed ride", terminalDb).
Proof.
  split.
  - apply (cancel_terminal_throws "r-1" terminalDb cancelledRide);
      [reflexivity | left; reflexivity].
  - apply (cancel_terminal_throws "r-2" terminalDb completedRide);
      [reflexivity | right; reflexivity].
Defined.

(** C3 as stated fails: cancelling an already cancelled request does not
    succeed, it throws. *)
Lemma cancel_cancelled_is_an_error :
  ¬ is_Ok (fst (cancelRideRequest "r-1" terminalDb)).
Proof. intros [a Ha]. vm_compute in Ha. discriminate. Qed.

(** ** Rows written when a request joins a pool *)

Section MemberRows.
Variable calculateDistance : Q → Q → Q → Q → Q.
Variable config : RidePoolingConfig.
Variable demandFactor : Q.

Lemma addMemberToPoolInternal_row poolId rid db db' :
  addMemberToPoolInternal calculateDistance config demandFactor poolId rid db
    = Ok (tt, db') →
  ∃ row, pool_members db' = pool_members db ++ [row]
    ∧ ride_pools db' = ride_pools db
    ∧ insertedAfter (memberCountOf poolId (pool_members db)) poolId rid row.
Proof.
  unfold addMemberToPoolInternal, txBind, selectRequest,
    selectMembersOfRequest, selectMembersOfPool, txThrow, txRet.
  destruct (filter _ (ride_requests db)) as [|ride rows]; [done|].
  destruct (0 <? length _)%nat; [done|].
  unfold insertMember. cbn [member_pool_id ride_request_id].
  destruct (decide (Exists _ _ ∧ Exists _ _)); [|done].
  destruct (decide (Exists _ (pool_members db))); [done|].
  cbn. intros [= <-]. cbn.
  eexists. split; [reflexivity|]. split; [reflexivity|].
  unfold insertedAfter, memberCountOf. cbn. repeat split; lia.
Qed.

Lemma recalculatePoolCapacityInternal_members poolId db db' :
  recalculatePoolCapacityInternal poolId db = Ok (tt, db') →
  pool_members db' = pool_members db ∧ ride_requests db' = ride_requests db.
Proof.
  unfold recalculatePoolCapacityInternal, txBind, selectMembersOfPool,
    selectRequestsIn, updatePool.
  destruct (length _ =? 0)%nat; intros [= <-]; done.
Qed.

Lemma addMembers_rows poolId rids : ∀ db db',
  addMembers calculateDistance config demandFactor poolId rids db
    = Ok (tt, db') →
  ∃ rows, pool_members db' = pool_members db ++ rows
    ∧ length rows = length rids
    ∧ ∀ i rid row, rids !! i = Some rid → rows !! i = Some row →
        insertedAfter (memberCountOf poolId (pool_members db ++ take i rows))
          poolId rid row.
Proof.
  induction rids as [|rid rids IH]; intros db db'; cbn.
  - intros [= <-]. exists []. rewrite app_nil_r. by repeat split.
  - unfold txBind at 1.
    destruct (addMemberToPoolInternal _ _ _ _ _ db) as [[[] db1]| |] eqn:E;
      [|done..].
    intros Hrest.
    apply addMemberToPoolInternal_row in E as (row & Hrow & _ & Hshape).
    apply IH in Hrest as (rows & Hrows & Hlen & Hall).
    exists (row :: rows). rewrite Hrows, Hrow, <- app_assoc. cbn.
    split; [done|]. split; [by rewrite Hlen|].
    intros [|i] rid' row' Hrid Hlook; cbn in *.
    + injection Hrid as <-. injection Hlook as <-.
      by rewrite app_nil_r.
    + specialize (Hall i rid' row' Hrid Hlook).
      by rewrite Hrow, <- app_assoc in Hall.
Qed.

(** C10.  A member row written by [addMemberToPool] or by [createPool]
    stores a detour of 0 and the sequence indices [n + 1] and [2 * (n + 1)],
    where [n] is the number of members the pool had just before the row was
    inserted; neither the optimized route nor the rider's detour enters. *)
Theorem persisted_member_rows :
  (∀ poolId rid db db',
     addMemberToPool calculateDistance config demandFactor poolId rid db
       = (Ok tt, db') →
     ∃ row, pool_members db' = pool_members db ++ [row]
       ∧ insertedAfter (memberCountOf poolId (pool_members db))
           poolId rid row)
  ∧ (∀ newPoolId poolCode rids db created db',
       createPool calculateDistance config demandFactor newPoolId poolCode
         rids db = (Ok created, db') →
       ∃ rows, pool_members db' = pool_members db ++ rows
         ∧ length rows = length rids
         ∧ ∀ i rid row, rids !! i = Some rid → rows !! i = Some row →
             insertedAfter
               (memberCountOf newPoolId (pool_members db ++ take i rows))
               newPoolId rid row).
Proof.
  split.
  - intros poolId rid db db'. unfold addMemberToPool, transaction, txBind.
    destruct (addMemberToPoolInternal _ _ _ _ _ db) as [[[] db1]| |] eqn:E;
      [|done..].
    destruct (recalculatePoolCapacityInternal _ db1) as [[[] db2]| |] eqn:R;
      [|done..].
    intros [= <-].
    apply addMemberToPoolInternal_row in E as (row & Hrow & _ & Hshape).
    apply recalculatePoolCapacityInternal_members in R as [R _].
    exists row. by rewrite R.
  - intros newPoolId poolCode rids db created db'.
    unfold createPool, transaction, txBind at 1 2 3.
    unfold insertPool at 1.
    destruct (decide (Exists _ (ride_pools db))); [done|].
    cbn [pool_id].
    destruct (addMembers _ _ _ _ _ _) as [[[] db1]| |] eqn:E; [|done..].
    destruct (recalculatePoolCapacityInternal _ db1) as [[[] db2]| |] eqn:R;
      [|done..].
    unfold txRet. intros Hres.
    assert (db' = db2) as -> by congruence. clear Hres.
    apply addMembers_rows in E as (rows & Hrows & Hlen & Hall).
    apply recalculatePoolCapacityInternal_members in R as [R _].
    cbn in Hrows. exists rows. rewrite R. split; [done|]. split; done.
Qed.
End MemberRows.

Lemma persisted_member_rows_witness :
  (∃ row, pool_members joinedDb = pool_members poolDb ++ [row]
     ∧ insertedAfter 2 "p-1" "r-c" row)
  ∧ (∃ rows, pool_members poolDb = rows
       ∧ length rows = 2%nat
       ∧ ∀ i rid row, ["r-a"; "r-b"] !! i = Some rid → rows !! i = Some row →
           insertedAfter (memberCountOf "p-1" (take i rows)) "p-1" rid row).
Proof.
  split.
  - apply (proj1 (persisted_member_rows gridDistance defaultConfig 0)
             "p-1" "r-c" poolDb joinedDb).
    vm_compute. reflexivity.
  - apply (proj2 (persisted_member_rows gridDistance defaultConfig 0)
             "p-1" "POOLAAAAAA" ["r-a"; "r-b"] freshDb openedPool poolDb).
    vm_compute. reflexivity.
Defined.


(** ** Route sequencing *)

Section RouteFacts.
Variable calculateDistance : Q → Q → Q → Q → Q.

Lemma scanNearest_spec st cur : last (optimized st) = Some cur →
  ∀ rest i acc minD,
  ∃ r, scanNearest calculateDistance st i rest acc minD = Ok r
    ∧ (r = acc
       ∨ ∃ k s, r = Some k ∧ (i ≤ k) ∧ rest !! (k - i) = Some s
           ∧ (k ∉ visited st) ∧ eligible st s).
Proof.
  intros Hcur rest. induction rest as [|s rest IH]; intros i acc minD; cbn.
  { eauto. }
  assert (Hshift : ∀ acc' minD',
    ∃ r, scanNearest calculateDistance st (S i) rest acc' minD' = Ok r
      ∧ (r = acc'
         ∨ ∃ k s', r = Some k ∧ (i ≤ k) ∧ (s :: rest) !! (k - i) = Some s'
             ∧ (k ∉ visited st) ∧ eligible st s')).
  { intros acc' minD'.
    destruct (IH (S i) acc' minD') as (r & Hr & [->|(k & s' & -> & ? & ? & ?)]).
    - eauto.
    - exists (Some k). split; [done|]. right. exists k, s'.
      replace (k - i) with (S (k - S i)) by lia. cbn.
      split; [done|]. split; [lia|]. done. }
  destruct (decide (i ∈ visited st)) as [Hv|Hv]; [apply Hshift|].
  destruct (decide (stop_type s = dropoff ∧ userId s ∉ userPickedUp st))
    as [Hne|He]; [apply Hshift|].
  rewrite Hcur.
  destruct (belowMin _ minD); [|apply Hshift].
  destruct (Hshift (Some i) (Some (calculateDistance (lat cur) (lon cur)
                                     (lat s) (lon s))))
    as (r & Hr & [->|Hk]).
  - exists (Some i). split; [done|]. right. exists i, s.
    rewrite Nat.sub_diag. cbn. by repeat split.
  - exists r. split; [done|]. by right.
Qed.

Lemma scanNearest_finds st cur : last (optimized st) = Some cur →
  ∀ rest i acc minD,
  (acc ≠ None ∨ minD = None) →
  (∃ j s, rest !! j = Some s ∧ ((i + j) ∉ visited st) ∧ eligible st s) →
  scanNearest calculateDistance st i rest acc minD ≠ Ok None.
Proof.
  intros Hcur rest. induction rest as [|s rest IH]; intros i acc minD Hacc.
  { intros (j & s & Hj & _). by rewrite lookup_nil in Hj. }
  assert (Hkeep : ∀ acc' minD', acc' ≠ None →
    scanNearest calculateDistance st (S i) rest acc' minD' ≠ Ok None).
  { intros acc' minD' Hsome Hscan.
    destruct (scanNearest_spec st cur Hcur rest (S i) acc' minD')
      as (r & Hr & [->|(k & s' & -> & _)]); congruence. }
  intros (j & s' & Hj & Hv & He). cbn.
  assert (Hrest : j ≠ 0 →
    scanNearest calculateDistance st (S i) rest acc minD ≠ Ok None).
  { intros Hj0. apply IH; [done|].
    destruct j as [|j]; [done|]. exists j, s'. cbn in Hj.
    split; [done|]. split; [|done].
    by replace (S i + j) with (i + S j) by lia. }
  destruct (decide (i ∈ visited st)) as [Hvi|Hvi].
  { apply Hrest. intros ->. by rewrite Nat.add_0_r in Hv. }
  destruct (decide (stop_type s = dropoff ∧ userId s ∉ userPickedUp st))
    as [Hne|Hel].
  { apply Hrest. intros ->. cbn in Hj. injection Hj as ->. by apply He. }
  rewrite Hcur.
  destruct (belowMin _ minD) eqn:Hb; [by apply Hkeep|].
  apply Hkeep. destruct Hacc as [?| ->]; [done|]. discriminate.
Qed.

Lemma firstUnvisited_Some seen rest : ∀ i k,
  firstUnvisited seen i rest = Some k →
  i ≤ k < i + length rest ∧ k ∉ seen.
Proof.
  induction rest as [|s rest IH]; intros i k; cbn; [done|].
  destruct (decide (i ∈ seen)).
  - intros H. apply IH in H as [H1 H2]. split; [lia|done].
  - intros [= <-]. split; [lia|done].
Qed.

Lemma firstUnvisited_None seen rest : ∀ i,
  firstUnvisited seen i rest = None →
  ∀ j, j < length rest → (i + j) ∈ seen.
Proof.
  induction rest as [|s rest IH]; intros i; cbn; [lia|].
  destruct (decide (i ∈ seen)) as [Hi|Hi]; [|done].
  intros H [|j] Hj.
  - by rewrite Nat.add_0_r.
  - replace (i + S j) with (S i + j) by lia. apply IH; [done|lia].
Qed.

(** Fewer visits than stops leave some index unvisited. *)
Lemma unvisited_exists (stops : list Stop) (order : list nat) :
  NoDup order → (∀ i, i ∈ order → i < length stops) →
  length order < length stops →
  ∃ k, firstUnvisited (list_to_set order) 0 stops = Some k.
Proof.
  intros Hnd Hlt Hlen.
  destruct (firstUnvisited _ 0 stops) as [k|] eqn:E; [eauto|].
  exfalso.
  assert (Hsub : seq 0 (length stops) ⊆+ order).
  { apply NoDup_submseteq; [apply NoDup_seq|].
    intros j Hj. apply elem_of_seq in Hj.
    assert (Hin : (0 + j) ∈ (list_to_set order : gset nat))
      by (apply (firstUnvisited_None _ _ _ E j); lia).
    by apply elem_of_list_to_set in Hin. }
  apply submseteq_length in Hsub. rewrite length_seq in Hsub. lia.
Qed.

Lemma loopBody_inv stops st :
  routeInv stops st → length (optimized st) < length stops →
  ∃ st', loopBody calculateDistance stops st = Ok st'
    ∧ routeInv stops st'
    ∧ length (optimized st') = S (length (optimized st)).
Proof.
  intros (order & Hnd & Hlt & Hvis & Hall & Hne) Hlen.
  destruct (last (optimized st)) as [cur|] eqn:Hcur;
    [|by apply last_None in Hcur].
  assert (Hpick : ∃ k, (k ∉ visited st) ∧ k < length stops
    ∧ rbind (scanNearest calculateDistance st 0 stops None None)
        (λ nearestIdx, Ok match nearestIdx with
                          | None => firstUnvisited (visited st) 0 stops
                          | Some i => Some i
                          end) = Ok (Some k)).
  { destruct (scanNearest_spec st cur Hcur stops 0 None None)
      as (r & -> & [->|(k & s & -> & _ & Hk & Hv & _)]); cbn.
    - destruct (unvisited_exists stops order) as [k Hk]; [done..| |].
      { apply Forall2_length in Hall. lia. }
      rewrite Hvis, Hk. exists k.
      apply firstUnvisited_Some in Hk as [Hk1 Hk2].
      split; [done|]. split; [lia|done].
    - exists k. split; [done|]. split; [|done].
      apply lookup_lt_Some in Hk. lia. }
  destruct Hpick as (k & Hkv & Hklt & Hpick).
  unfold loopBody.
  destruct (scanNearest calculateDistance st 0 stops None None)
    as [r| |]; cbn in Hpick |- *; [|done..].
  injection Hpick as ->.
  destruct (lookup_lt_is_Some_2 stops k Hklt) as [s Hs]. rewrite Hs.
  eexists. split; [reflexivity|]. cbn. split; [|by rewrite length_app; cbn; lia].
  exists (order ++ [k]). cbn. repeat split.
  - apply NoDup_app. split; [done|]. split; [|apply NoDup_singleton].
    intros x Hx ->%list_elem_of_singleton.
    apply Hkv. rewrite Hvis. by apply elem_of_list_to_set.
  - intros i [Hi| ->%list_elem_of_singleton]%elem_of_app; auto.
  - rewrite list_to_set_snoc_L, Hvis. apply union_comm_L.
  - apply Forall2_app; [done|]. by constructor.
  - by destruct (optimized st).
Qed.

Lemma whileLoop_total stops : ∀ fuel st,
  routeInv stops st → length (optimized st) ≤ length stops →
  length stops - length (optimized st) ≤ fuel →
  ∃ st', whileLoop calculateDistance stops fuel st = Ok st'
    ∧ routeInv stops st'
    ∧ length (optimized st') = length stops.
Proof.
  induction fuel as [|fuel IH]; intros st Hinv Hle Hfuel; cbn -[Nat.ltb].
  - destruct (Nat.ltb_spec (length (optimized st)) (length stops)); [lia|].
    exists st. split; [done|]. split; [done|lia].
  - destruct (Nat.ltb_spec (length (optimized st)) (length stops)) as [Hlt|Hge].
    + destruct (loopBody_inv stops st Hinv Hlt) as (st1 & -> & Hinv1 & Hlen1).
      cbn. apply IH; [done|lia..].
    + exists st. split; [done|]. split; [done|lia].
Qed.

(** An invariant of the loop body holds of the state the loop returns. *)
Lemma whileLoop_invariant stops (I : RouteState → Prop) :
  (∀ st st', I st → length (optimized st) < length stops →
             loopBody calculateDistance stops st = Ok st' → I st') →
  ∀ fuel st st', I st →
    whileLoop calculateDistance stops fuel st = Ok st' → I st'.
Proof.
  intros Hstep. induction fuel as [|fuel IH]; intros st st' HI; cbn -[Nat.ltb].
  - destruct (Nat.ltb_spec (length (optimized st)) (length stops));
      [done|]. by intros [= <-].
  - destruct (Nat.ltb_spec (length (optimized st)) (length stops)) as [Hlt|Hge];
      [|by intros [= <-]].
    destruct (loopBody calculateDistance stops st) as [st1| |] eqn:E;
      [|done..].
    cbn. apply IH. by eapply Hstep.
Qed.

Lemma initialState_inv stops s0 :
  stops !! 0 = Some s0 → routeInv stops (initialState s0).
Proof.
  intros H0. exists [0]. cbn.
  split; [apply NoDup_singleton|].
  split; [intros i ->%list_elem_of_singleton; by apply lookup_lt_Some in H0|].
  split; [by rewrite union_empty_r_L|].
  split; [by repeat constructor|done].
Qed.

Lemma routeInv_final_Permutation stops st :
  routeInv stops st → length (optimized st) = length stops →
  optimized st ≡ₚ stops.
Proof.
  intros (order & Hnd & Hlt & _ & Hall & _) Hlen.
  assert (Hperm : order ≡ₚ seq 0 (length stops)).
  { apply submseteq_length_Permutation.
    - apply NoDup_submseteq; [done|].
      intros i Hi. apply elem_of_seq. specialize (Hlt i Hi). lia.
    - rewrite length_seq. apply Forall2_length in Hall. lia. }
  assert (Hopt : Some <$> optimized st = (stops !!.) <$> order).
  { clear -Hall. induction Hall as [|i s order l Hi _ IH]; [done|].
    cbn. by rewrite Hi, IH. }
  assert (Hstops : Some <$> stops = (stops !!.) <$> seq 0 (length stops)).
  { apply list_eq. intros i. rewrite !list_lookup_fmap.
    destruct (decide (i < length stops)) as [Hi|Hi].
    - rewrite lookup_seq_lt by done. cbn.
      by destruct (lookup_lt_is_Some_2 stops i Hi) as [s ->].
    - rewrite lookup_seq_ge, lookup_ge_None_2 by lia. done. }
  apply (fmap_Permutation (stops !!.)) in Hperm.
  rewrite <- Hopt, <- Hstops in Hperm.
  destruct stops as [|s0 stops'].
  { destruct (optimized st); [done|discriminate]. }
  apply (fmap_Permutation (from_option id s0)) in Hperm.
  rewrite <- !list_fmap_compose in Hperm.
  by rewrite !list_fmap_id in Hperm.
Qed.
End RouteFacts.

Lemma optimizeRoute_Permutation
    (calculateDistance : Q → Q → Q → Q → Q) (stops : list Stop) :
  ∃ route, optimizeRoute calculateDistance stops = Ok route ∧ route ≡ₚ stops.
Proof.
  unfold optimizeRoute.
  destruct (Nat.leb_spec (length stops) 1) as [Hshort|Hlong]; [by eauto|].
  destruct stops as [|s0 stops'] eqn:Hs; [cbn in Hlong; lia|].
  rewrite <- Hs in *. assert (H0 : stops !! 0 = Some s0) by by rewrite Hs.
  rewrite H0.
  destruct (whileLoop_total calculateDistance stops (length stops)
              (initialState s0)) as (st & -> & Hinv & Hlen).
  - by apply initialState_inv.
  - cbn. lia.
  - cbn. lia.
  - cbn. eexists. split; [done|]. by apply routeInv_final_Permutation.
Qed.

(** ** The matching engine never accepts a pool *)

Lemma list_ascii_of_string_app (a b : string) :
  String.list_ascii_of_string (a +:+ b)
  = String.list_ascii_of_string a ++ String.list_ascii_of_string b.
Proof.
  induction a as [|c a IH]; [done|].
  change (String c a +:+ b) with (String c (a +:+ b)). cbn. by rewrite IH.
Qed.

(** No identifier ends both in "-pickup" and in "-dropoff". *)
Lemma pickup_id_not_dropoff_id (a b : string) :
  a +:+ "-pickup" ≠ b +:+ "-dropoff".
Proof.
  intros H. apply (f_equal String.list_ascii_of_string) in H.
  rewrite !list_ascii_of_string_app in H.
  apply (f_equal last) in H. cbn in H.
  rewrite !last_app_cons in H. cbn in H. discriminate.
Qed.

Lemma buildStops_built newRequest existing s :
  s ∈ buildStops newRequest existing → builtStop s.
Proof.
  unfold buildStops. rewrite elem_of_app. intros [Hin|Hin].
  - apply list_elem_of_In, in_flat_map in Hin as (r & _ & Hr).
    exists r. destruct Hr as [<-|[<-|[]]]; [by left|by right].
  - exists newRequest.
    rewrite !elem_of_cons, elem_of_nil in Hin.
    destruct Hin as [->|[->|[]]]; [by left|by right].
Qed.

Lemma findPortion_spec rid rest : ∀ i p d p' d',
  findPortion rid i rest p d = (p', d') →
  (p' = p ∨ ∃ s, s ∈ rest ∧ stop_id s = rid ∧ stop_type s = pickup)
  ∧ (d' = d ∨ ∃ s, s ∈ rest ∧ stop_id s = rid ∧ stop_type s = dropoff).
Proof.
  induction rest as [|s rest IH]; intros i p d p' d'; cbn.
  { intros [= <- <-]. by split; left. }
  destruct (decide (stop_id s = rid)) as [Hid|Hid].
  - intros H. apply IH in H as [Hp Hd]. split.
    + destruct Hp as [->|(s' & ? & ? & ?)].
      * destruct (decide (stop_type s = pickup)); [|by left].
        right. exists s. split; [left|done].
      * right. exists s'. split; [by right|done].
    + destruct Hd as [->|(s' & ? & ? & ?)].
      * destruct (decide (stop_type s = dropoff)); [|by left].
        right. exists s. split; [left|done].
      * right. exists s'. split; [by right|done].
  - intros H. apply IH in H as [Hp Hd]. split.
    + destruct Hp as [->|(s' & ? & ? & ?)]; [by left|].
      right. exists s'. split; [by right|done].
    + destruct Hd as [->|(s' & ? & ? & ?)]; [by left|].
      right. exists s'. split; [by right|done].
Qed.

Section NoMatch.
Variable calculateDistance : Q → Q → Q → Q → Q.
Variable config : RidePoolingConfig.

(** On a route of built stops no rider has both positions found: the stop
    identifiers carry a suffix that the request identifier lacks. *)
Lemma riderDetour_not_found optimizedRoute req :
  (∀ s, s ∈ optimizedRoute → builtStop s) →
  riderDetour calculateDistance optimizedRoute req = Ok None.
Proof.
  intros Hbuilt. unfold riderDetour.
  destruct (findPortion _ 0 optimizedRoute None None) as [p d] eqn:E.
  apply findPortion_spec in E as [Hp Hd].
  destruct p as [p|]; [|done]. destruct d as [d|]; [|done]. exfalso.
  destruct Hp as [?|(sp & Hsp & Hidp & Htp)]; [done|].
  destruct Hd as [?|(sd & Hsd & Hidd & Htd)]; [done|].
  destruct (Hbuilt sp Hsp) as [rp [-> | ->]]; [|done].
  destruct (Hbuilt sd Hsd) as [rd [-> | ->]]; [done|].
  cbn in Hidp, Hidd. rewrite <- Hidd in Hidp.
  by apply pickup_id_not_dropoff_id in Hidp.
Qed.

Lemma analyzeRouteWithNewMember_invalid newRequest existing members :
  analyzeRouteWithNewMember calculateDistance config newRequest existing
    members = Ok invalidAnalysis.
Proof.
  unfold analyzeRouteWithNewMember.
  destruct (optimizeRoute_Permutation calculateDistance
              (buildStops newRequest existing)) as (route & -> & Hperm).
  cbn.
  assert (Hbuilt : ∀ s, s ∈ route → builtStop s).
  { intros s Hs. rewrite Hperm in Hs. by eapply buildStops_built. }
  destruct (existing ++ [newRequest]) as [|req riders] eqn:E.
  { by destruct existing. }
  cbn. by rewrite (riderDetour_not_found route req Hbuilt).
Qed.

Lemma collectCompatible_unchanged request pools : ∀ acc,
  collectCompatible calculateDistance config request pools acc = Ok acc.
Proof.
  induction pools as [|c pools IH]; intros acc; cbn; [done|].
  destruct (negb (checkCapacityConstraints _ _)); [done|].
  destruct (negb (checkLocationCompatibility _ _ _ _)); [done|].
  rewrite analyzeRouteWithNewMember_invalid. cbn. done.
Qed.

Lemma findBestMatch_none request pools :
  findBestMatch calculateDistance config request pools = Ok None.
Proof.
  unfold findBestMatch. by rewrite collectCompatible_unchanged.
Qed.
End NoMatch.

(** C1 (the code at the scenario's input).  The pool has room for the
    request and passes the location filter; the sequenced route is member
    pickup, request pickup, member dropoff, request dropoff, along which
    both riders have a detour of 0 km.  Still [findBestMatch] answers "no
    match": [analyzeRouteWithNewMember] looks for stops whose [id] equals
    the request's [id], finds none, and declares the route invalid.  The
    same holds for every request, every list of candidates and every
    distance function. *)
Theorem findBestMatch_scenario_no_match :
  checkCapacityConstraints scenarioPool scenarioRequest = true
  ∧ checkLocationCompatibility gridDistance defaultConfig scenarioRequest
      [scenarioMember] = true
  ∧ optimizeRoute gridDistance (buildStops scenarioRequest [scenarioMember])
    = Ok [pickupStop scenarioMember; pickupStop scenarioRequest;
          dropoffStop scenarioMember; dropoffStop scenarioRequest]
  ∧ detourBetween gridDistance
      [pickupStop scenarioMember; pickupStop scenarioRequest;
       dropoffStop scenarioMember; dropoffStop scenarioRequest]
      scenarioMember 0 2 = Ok 0%Q
  ∧ detourBetween gridDistance
      [pickupStop scenarioMember; pickupStop scenarioRequest;
       dropoffStop scenarioMember; dropoffStop scenarioRequest]
      scenarioRequest 1 3 = Ok 0%Q
  ∧ analyzeRouteWithNewMember gridDistance defaultConfig scenarioRequest
      [scenarioMember] (existingMembers scenarioCandidate)
    = Ok invalidAnalysis
  ∧ findBestMatch gridDistance defaultConfig scenarioRequest
      [scenarioCandidate] = Ok None
  ∧ ∀ calculateDistance config request availablePools,
      findBestMatch calculateDistance config request availablePools = Ok None.
Proof.
  split; [vm_compute; reflexivity|].
  split; [vm_compute; reflexivity|].
  split; [vm_compute; reflexivity|].
  split; [vm_compute; reflexivity|].
  split; [vm_compute; reflexivity|].
  split; [apply analyzeRouteWithNewMember_invalid|].
  split; [apply findBestMatch_none|].
  apply findBestMatch_none.
Qed.

(** ** Batch pooling returns no pool *)

Section BatchFacts.
Variable calculateDistance : Q → Q → Q → Q → Q.
Variable config : RidePoolingConfig.
Variable MatchResult : Type.

Lemma seedLoop_pools sortedRequests rest : ∀ st,
  pools (seedLoop calculateDistance config MatchResult sortedRequests rest st)
  = pools st.
Proof.
  induction rest as [|request rest IH]; intros st; cbn; [done|].
  destruct (decide (req_id request ∈ assigned st)); [apply IH|].
  destruct (absorbLoop _ _ _ _ _) as [compatible assigned'].
  by rewrite IH.
Qed.

Lemma generateOptimalPools_nil requests :
  generateOptimalPools calculateDistance config MatchResult requests = [].
Proof. unfold generateOptimalPools, batchRun. by rewrite seedLoop_pools. Qed.
End BatchFacts.

(** C5 (the code at the scenario's input).  For five pending requests with
    pairwise-compatible locations the batch loop forms a group of 4 and a
    group of 1, which it only logs: the array it returns is never pushed to
    and is empty, for these five requests and for every other input. *)
Theorem generateOptimalPools_returns_no_pool :
  length fiveRequests = 5
  ∧ pairwiseCompatible gridDistance defaultConfig fiveRequests
  ∧ createdSizes (batchRun gridDistance defaultConfig (list RideRequest)
                    fiveRequests) = [4; 1]
  ∧ generateOptimalPools gridDistance defaultConfig (list RideRequest)
      fiveRequests = []
  ∧ ∀ calculateDistance config MatchResult requests,
      generateOptimalPools calculateDistance config MatchResult requests = [].
Proof.
  split; [reflexivity|].
  split.
  { intros a b Ha Hb.
    repeat (apply elem_of_cons in Ha as [->|Ha]);
      try (by apply elem_of_nil in Ha);
      repeat (apply elem_of_cons in Hb as [->|Hb]);
      try (by apply elem_of_nil in Hb);
      vm_compute; reflexivity. }
  split; [vm_compute; reflexivity|].
  split; [apply generateOptimalPools_nil|].
  apply generateOptimalPools_nil.
Qed.

(** ** Accepted matches satisfy the constraints *)

Section AcceptedMatch.
Variable calculateDistance : Q → Q → Q → Q → Q.
Variable config : RidePoolingConfig.

Lemma checkCapacityConstraints_iff p request :
  checkCapacityConstraints p request = true
  ↔ (current_passenger_count p + passenger_count request
       ≤ max_passengers p)%Z
    ∧ (current_luggage_count p + luggage_count request ≤ max_luggage p)%Z.
Proof.
  unfold checkCapacityConstraints. by rewrite andb_true_iff, !Z.leb_le.
Qed.

Lemma riderLoop_Some optimizedRoute riders : ∀ detours0 detours',
  riderLoop calculateDistance config optimizedRoute riders detours0
    = Ok (Some detours') →
  ∀ rider, rider ∈ riders →
    ∃ detour,
      riderDetour calculateDistance optimizedRoute rider = Ok (Some detour)
      ∧ (detour
         <= Qmin (max_detour_km rider) (maxDetourToleranceKm config))%Q.
Proof.
  induction riders as [|req riders IH]; intros detours0 detours'; cbn.
  { intros _ rider Hin. by apply elem_of_nil in Hin. }
  destruct (riderDetour calculateDistance optimizedRoute req)
    as [[detour|]| |] eqn:E; cbn; [|done..].
  destruct (Qlt_bool _ detour) eqn:Hlt; [done|].
  intros Hrest rider [->|Hin]%elem_of_cons.
  - exists detour. split; [done|].
    apply Qnot_lt_le. intros Hgt. apply Qlt_bool_iff in Hgt. congruence.
  - by eapply IH.
Qed.

Lemma analyzeRouteWithNewMember_valid request c a :
  analyzeRouteWithNewMember calculateDistance config request
    (existingRequests c) (existingMembers c) = Ok a →
  valid a = true →
  ∃ optimizedRoute,
    optimizeRoute calculateDistance
      (buildStops request (existingRequests c)) = Ok optimizedRoute
    ∧ ∀ rider, rider ∈ existingRequests c ++ [request] →
        ∃ detour,
          riderDetour calculateDistance optimizedRoute rider
            = Ok (Some detour)
          ∧ (detour
             <= Qmin (max_detour_km rider) (maxDetourToleranceKm config))%Q.
Proof.
  unfold analyzeRouteWithNewMember.
  destruct (optimizeRoute _ _) as [optimizedRoute| |]; cbn; [|done..].
  destruct (riderLoop _ _ _ _ _) as [[detours'|]| |] eqn:E; cbn; [|try done..].
  - intros _ _. exists optimizedRoute. split; [done|].
    by eapply riderLoop_Some.
  - by intros [= <-].
Qed.

Lemma collectCompatible_accepted request availablePools : ∀ acc out,
  collectCompatible calculateDistance config request availablePools acc
    = Ok out →
  ∀ x, x ∈ out →
    x ∈ acc
    ∨ (x.1 ∈ availablePools
       ∧ acceptedMatchConstraints calculateDistance config request x.1).
Proof.
  induction availablePools as [|c rest IH]; intros acc out; cbn.
  { intros [= <-] x Hx. by left. }
  assert (Hskip : collectCompatible calculateDistance config request rest acc
                    = Ok out →
    ∀ x, x ∈ out →
      x ∈ acc
      ∨ (x.1 ∈ c :: rest
         ∧ acceptedMatchConstraints calculateDistance config request x.1)).
  { intros H x Hx. destruct (IH _ _ H x Hx) as [?|[? ?]]; [by left|].
    right. split; [by right|done]. }
  destruct (checkCapacityConstraints (pool c) request) eqn:Hcap; cbn;
    [|done].
  destruct (checkLocationCompatibility _ _ _ _); cbn; [|done].
  destruct (analyzeRouteWithNewMember _ _ _ _ _) as [a| |] eqn:Ha; cbn;
    [|done..].
  destruct (valid a) eqn:Hvalid; cbn; [|done].
  intros H x Hx. destruct (IH _ _ H x Hx) as [Hacc|[? ?]].
  - apply elem_of_app in Hacc as [?|Hnew]; [by left|].
    apply list_elem_of_singleton in Hnew as ->. right. cbn.
    split; [by left|].
    apply checkCapacityConstraints_iff in Hcap as [? ?].
    split; [done|]. split; [done|].
    by eapply analyzeRouteWithNewMember_valid.
  - right. split; [by right|done].
Qed.

Lemma elem_of_insertByScore x y sorted :
  y ∈ insertByScore x sorted → y = x ∨ y ∈ sorted.
Proof.
  induction sorted as [|z sorted IH]; cbn.
  { intros ->%list_elem_of_singleton. by left. }
  destruct (Qlt_bool x.2 z.2).
  - intros [->|Hin]%elem_of_cons; [right; left|].
    destruct (IH Hin) as [?|?]; [by left|right; by right].
  - intros [->|Hin]%elem_of_cons; [by left|by right].
Qed.

Lemma elem_of_sortByScore y l : y ∈ sortByScore l → y ∈ l.
Proof.
  induction l as [|x l IH]; cbn; [done|].
  intros [->|Hin]%elem_of_insertByScore; [left|right; by apply IH].
Qed.

(** Whatever [findBestMatch] returns went through the three filters. *)
Lemma findBestMatch_Some request availablePools c :
  findBestMatch calculateDistance config request availablePools
    = Ok (Some c) →
  c ∈ availablePools
  ∧ acceptedMatchConstraints calculateDistance config request c.
Proof.
  unfold findBestMatch.
  destruct (collectCompatible _ _ _ _ _) as [out| |] eqn:E; cbn; [|done..].
  destruct out as [|x0 out']; [done|].
  destruct (head (sortByScore (x0 :: out'))) as [x|] eqn:Hhead; [|done].
  cbn. intros [= <-].
  apply head_Some_elem_of, elem_of_sortByScore in Hhead.
  destruct (collectCompatible_accepted _ _ _ _ E x Hhead) as [Hnil|?];
    [by apply elem_of_nil in Hnil|done].
Qed.
End AcceptedMatch.



(** ** Pickup before dropoff *)

Lemma filter_two_positions {A} (P : A → Prop) `{∀ x, Decision (P x)}
    (l : list A) i j a b :
  l !! i = Some a → l !! j = Some b → i ≠ j → P a → P b →
  2 ≤ length (filter P l).
Proof.
  assert (Hlt : ∀ i j a b, i < j → l !! i = Some a → l !! j = Some b →
                  P a → P b → 2 ≤ length (filter P l)).
  { clear i j a b. intros i j a b Hij Hi Hj Ha Hb.
    rewrite <- (take_drop_middle l i a Hi).
    rewrite filter_app, filter_cons_True, length_app by done. cbn.
    assert (Hin : b ∈ filter P (drop (S i) l)).
    { apply list_elem_of_filter. split; [done|].
      apply list_elem_of_lookup. exists (j - S i).
      rewrite lookup_drop. by replace (S i + (j - S i)) with j by lia. }
    destruct (filter P (drop (S i) l)); [by apply elem_of_nil in Hin|].
    cbn. lia. }
  intros Hi Hj Hne Ha Hb.
  destruct (Nat.lt_total i j) as [?|[?|?]]; [by eapply Hlt|done|by eapply Hlt].
Qed.

Section PickupBeforeDropoff.
Variable calculateDistance : Q → Q → Q → Q → Q.
Variable stops : list Stop.
Hypothesis Hpairs : onePickupOneDropoff stops.

Lemma pickup_exists s :
  s ∈ stops →
  ∃ i p, stops !! i = Some p ∧ stop_type p = pickup ∧ userId p = userId s.
Proof.
  intros Hs. destruct (Hpairs s Hs) as [Hone _].
  destruct (filter _ stops) as [|p ps] eqn:E; [done|].
  assert (Hp : p ∈ filter (λ t, userId t = userId s ∧ stop_type t = pickup)
                 stops) by (rewrite E; left).
  apply list_elem_of_filter in Hp as [[Hu Ht] Hin].
  apply list_elem_of_lookup in Hin as [i Hi]. by exists i, p.
Qed.

Lemma visited_on_route st i s :
  routeInv stops st → i ∈ visited st → stops !! i = Some s →
  s ∈ optimized st.
Proof.
  intros (order & _ & _ & Hvis & Hall & _) Hi Hs.
  rewrite Hvis in Hi. apply elem_of_list_to_set in Hi.
  apply list_elem_of_lookup in Hi as [n Hn].
  destruct (Forall2_lookup_l _ _ _ _ _ Hall Hn) as (s' & Hs' & Heq).
  apply list_elem_of_lookup. exists n. congruence.
Qed.

(** While stops remain, the scan finds an eligible one. *)
Lemma scanNearest_succeeds st :
  routeInv stops st → pickupInv st →
  length (optimized st) < length stops →
  ∃ k s, scanNearest calculateDistance st 0 stops None None = Ok (Some k)
    ∧ stops !! k = Some s ∧ (k ∉ visited st) ∧ eligible st s.
Proof.
  intros Hinv [Hpicked _] Hlen.
  pose proof Hinv as (order & Hnd & Hlt & Hvis & Hall & Hne).
  destruct (last (optimized st)) as [cur|] eqn:Hcur;
    [|by apply last_None in Hcur].
  assert (Hcand : ∃ j s, stops !! j = Some s ∧ ((0 + j) ∉ visited st)
                         ∧ eligible st s).
  { destruct (unvisited_exists stops order) as [k0 Hk0]; [done..| |].
    { apply Forall2_length in Hall. lia. }
    apply firstUnvisited_Some in Hk0 as [Hrange Hk0].
    rewrite <- Hvis in Hk0.
    destruct (lookup_lt_is_Some_2 stops k0) as [s Hs]; [lia|].
    destruct (decide (stop_type s = dropoff ∧ userId s ∉ userPickedUp st))
      as [[Hdrop Hnot]|Hel]; [|by exists k0, s].
    destruct (pickup_exists s) as (i & p & Hi & Hp & Hu).
    { apply list_elem_of_lookup. by exists k0. }
    exists i, p. split; [done|]. split.
    - intros Hvisited. apply Hnot, Hpicked. exists p.
      split; [|done]. by eapply visited_on_route.
    - intros [Hpd _]. congruence. }
  destruct (scanNearest_spec calculateDistance st cur Hcur stops 0 None None)
    as (r & Hr & [->|(k & s & -> & _ & Hk & Hv & He)]).
  - exfalso. by eapply (scanNearest_finds calculateDistance st cur Hcur
                          stops 0 None None); [right| |].
  - rewrite Nat.sub_0_r in Hk. by exists k, s.
Qed.

Lemma loopBody_pickupInv st st' :
  routeInv stops st → pickupInv st →
  length (optimized st) < length stops →
  loopBody calculateDistance stops st = Ok st' →
  pickupInv st'.
Proof.
  intros Hinv Hpick Hlen.
  destruct (scanNearest_succeeds st Hinv Hpick Hlen)
    as (k & s & Hscan & Hs & Hv & He).
  destruct Hpick as [Hpicked Horder].
  unfold loopBody. rewrite Hscan. cbn. rewrite Hs. intros [= <-]. cbn.
  split.
  - intros u. split.
    + intros Hu.
      assert (Hcase : (stop_type s = pickup ∧ u = userId s)
                      ∨ u ∈ userPickedUp st).
      { destruct (decide (stop_type s = pickup)); [|by right].
        apply elem_of_union in Hu as [->%elem_of_singleton|?];
          [by left|by right]. }
      destruct Hcase as [[Ht ->]|Hold].
      * exists s. split; [|done]. apply elem_of_app. right. left.
      * apply Hpicked in Hold as (p & Hp & ? & ?).
        exists p. split; [|done]. apply elem_of_app. by left.
    + intros (p & [Hp| ->%list_elem_of_singleton]%elem_of_app & Ht & Hu).
      * assert (u ∈ userPickedUp st) by (apply Hpicked; by exists p).
        destruct (decide (stop_type s = pickup)); [|done].
        apply elem_of_union. by right.
      * rewrite decide_True by done. apply elem_of_union. left.
        by apply elem_of_singleton.
  - intros j d Hj Hd.
    apply lookup_snoc_Some in Hj as [[Hjlt Hj]|[-> <-]].
    + destruct (Horder j d Hj Hd) as (i & p & ? & Hi & ? & ?).
      exists i, p. split; [done|]. split; [|done].
      by apply lookup_app_l_Some.
    + assert (Hu : userId s ∈ userPickedUp st).
      { destruct (decide (userId s ∈ userPickedUp st)); [done|].
        exfalso. by apply He. }
      apply Hpicked in Hu as (p & Hp & Ht & Hup).
      apply list_elem_of_lookup in Hp as [i Hi].
      exists i, p. split; [by apply lookup_lt_Some in Hi|].
      split; [by apply lookup_app_l_Some|done].
Qed.

Lemma initialState_pickupInv s0 :
  stop_type s0 = pickup → pickupInv (initialState s0).
Proof.
  intros Ht. unfold initialState, pickupInv. cbn.
  rewrite decide_True by done. split.
  - intros u. rewrite elem_of_singleton. split.
    + intros ->. exists s0. split; [left|done].
    + by intros (p & ->%list_elem_of_singleton & _ & <-).
  - intros [|j] d Hj Hd; cbn in Hj; [|done]. congruence.
Qed.

Lemma loopReaches_inv st :
  stop_type <$> head stops = Some pickup →
  loopReaches calculateDistance stops st →
  routeInv stops st ∧ pickupInv st.
Proof.
  intros Hhead Hreach. induction Hreach as [s0 H0|st st' _ [Hinv Hpick] Hlen Hbody].
  - split; [by apply initialState_inv|]. apply initialState_pickupInv.
    rewrite head_lookup, H0 in Hhead. by injection Hhead.
  - split; [|by eapply loopBody_pickupInv].
    destruct (loopBody_inv calculateDistance stops st Hinv Hlen)
      as (st1 & Hst1 & ? & _). congruence.
Qed.
End PickupBeforeDropoff.

(** Both hypotheses of the theorem below are needed.  When the list starts
    with a dropoff, that dropoff stays first on the route; when a rider has
    a dropoff but no pickup, the scan comes back empty and the fallback
    branch takes the dropoff. *)
Example dropoff_first_stays_first :
  optimizeRoute gridDistance
    [dropoffStop scenarioMember; pickupStop scenarioMember]
  = Ok [dropoffStop scenarioMember; pickupStop scenarioMember].
Proof. vm_compute. reflexivity. Qed.

Example missing_pickup_takes_fallback :
  fallbackTaken gridDistance
    [pickupStop scenarioMember; dropoffStop scenarioRequest]
    (initialState (pickupStop scenarioMember))
  ∧ optimizeRoute gridDistance
      [pickupStop scenarioMember; dropoffStop scenarioRequest]
    = Ok [pickupStop scenarioMember; dropoffStop scenarioRequest].
Proof.
  split; [split; [cbn; lia|]|]; vm_compute; reflexivity.
Qed.



(** ** Capacity counters after a membership change *)

Lemma foldl_sumZ {A} (f : A → Z) (l : list A) : ∀ a,
  foldl (λ sum r, sum + f r)%Z a l = (a + sumZ (f <$> l))%Z.
Proof.
  induction l as [|x l IH]; intros a.
  - cbn. lia.
  - cbn [foldl]. rewrite IH, fmap_cons. unfold sumZ. cbn [foldr]. lia.
Qed.

Lemma sumZ_cons x l : sumZ (x :: l) = (x + sumZ l)%Z.
Proof. reflexivity. Qed.

Lemma sumZ_replace_one (a : string) (c : Z) (h : string → Z) ids :
  NoDup ids → h a = 0%Z →
  sumZ ((λ i, if decide (a = i) then c else h i) <$> ids)
  = ((if decide (a ∈ ids) then c else 0) + sumZ (h <$> ids))%Z.
Proof.
  intros Hnd Ha. induction Hnd as [|i ids Hi Hnd IH].
  { rewrite decide_False; [done|]. apply not_elem_of_nil. }
  rewrite !fmap_cons, !sumZ_cons, IH.
  destruct (decide (a = i)) as [->|Hne].
  - rewrite (decide_True (P := i ∈ i :: ids)) by left.
    rewrite (decide_False (P := i ∈ ids)) by done. lia.
  - destruct (decide (a ∈ ids)) as [Hin|Hin].
    + rewrite (decide_True (P := a ∈ i :: ids)) by by right. lia.
    + rewrite (decide_False (P := a ∈ i :: ids)); [lia|].
      by intros [?|?]%elem_of_cons.
Qed.

(** The sum the recalculation query computes is the sum over the member
    identifiers of each member's request. *)
Lemma recalculated_sum (f : RideRequest → Z) (requests : list RideRequest)
    (ids : list string) :
  NoDup (req_id <$> requests) → NoDup ids →
  sumZ (f <$> filter (λ r, req_id r ∈ ids) requests)
  = sumZ ((λ i, from_option f 0%Z
                  (head (filter (λ r, req_id r = i) requests))) <$> ids).
Proof.
  intros Hreq Hids. induction requests as [|r requests IH].
  { clear. induction ids as [|i ids IHids]; [done|].
    rewrite fmap_cons, sumZ_cons, <- IHids. done. }
  rewrite fmap_cons in Hreq.
  apply NoDup_cons in Hreq as [Hfresh Hreq]. specialize (IH Hreq).
  transitivity
    (sumZ ((λ i, if decide (req_id r = i) then f r
                 else from_option f 0%Z
                        (head (filter (λ r', req_id r' = i) requests)))
             <$> ids)).
  - assert (Hzero : from_option f 0%Z
                     (head (filter (λ r', req_id r' = req_id r) requests))
                   = 0%Z).
    { destruct (filter (λ r', req_id r' = req_id r) requests)
        as [|r' rs] eqn:E; [done|]. exfalso.
      assert (Hr' : r' ∈ filter (λ r', req_id r' = req_id r) requests)
        by (rewrite E; left).
      apply list_elem_of_filter in Hr' as [Heq Hr'].
      apply Hfresh. rewrite <- Heq. by apply list_elem_of_fmap_2. }
    pose proof (sumZ_replace_one (req_id r) (f r)
                  (λ i, from_option f 0%Z
                          (head (filter (λ r', req_id r' = i) requests)))
                  ids Hids Hzero) as Hrep.
    cbn beta in Hrep. rewrite Hrep.
    rewrite <- IH. rewrite filter_cons.
    destruct (decide (req_id r ∈ ids)); [|lia].
    rewrite fmap_cons, sumZ_cons. lia.
  - f_equal. apply list_fmap_ext. intros _ i _. rewrite filter_cons.
    by destruct (decide (req_id r = i)).
Qed.

Lemma sumOverMembers_alt f db poolId :
  sumOverMembers f db poolId
  = sumZ ((λ i, from_option f 0%Z (requestOf db i))
            <$> (ride_request_id
                   <$> filter (λ m, member_pool_id m = poolId)
                         (pool_members db))).
Proof.
  unfold sumOverMembers.
  induction (filter _ (pool_members db)) as [|m ms IH]; [done|].
  rewrite !fmap_cons, sumZ_cons, <- IH. cbn [foldr].
  destruct (requestOf db (ride_request_id m)); cbn; lia.
Qed.

Lemma members_of_pool_NoDup (members : list PoolMember) poolId :
  NoDup ((λ m, (member_pool_id m, ride_request_id m)) <$> members) →
  NoDup (ride_request_id
           <$> filter (λ m, member_pool_id m = poolId) members).
Proof.
  induction members as [|m members IH]; [constructor|].
  rewrite fmap_cons. intros [Hfresh Hnd]%NoDup_cons. rewrite filter_cons.
  destruct (decide (member_pool_id m = poolId)) as [Hp|Hp]; [|by apply IH].
  rewrite fmap_cons. apply NoDup_cons. split; [|by apply IH].
  intros Hin. apply Hfresh.
  apply list_elem_of_fmap in Hin as (m' & Hid & Hm').
  apply list_elem_of_filter in Hm' as [Hp' Hm'].
  apply list_elem_of_fmap. exists m'. split; [|done]. congruence.
Qed.

(** After the recalculation the counters of the pool equal the sums over
    its members. *)
Lemma recalculate_countersMatch poolId db db' :
  keysUnique db →
  recalculatePoolCapacityInternal poolId db = Ok (tt, db') →
  ride_requests db' = ride_requests db
  ∧ pool_members db' = pool_members db
  ∧ Forall2 (λ q q', pool_id q' = pool_id q
                     ∧ pool_status q' = pool_status q
                     ∧ if decide (pool_id q = poolId)
                       then countersMatch db' q' else q' = q)
      (ride_pools db) (ride_pools db').
Proof.
  intros [Hreq Hmem].
  pose proof (members_of_pool_NoDup _ poolId Hmem) as Hids.
  assert (Hsum : ∀ f,
    foldl (λ sum r, sum + f r)%Z 0%Z
      (filter (λ r, req_id r ∈ ride_request_id
                      <$> filter (λ m, member_pool_id m = poolId)
                            (pool_members db)) (ride_requests db))
    = sumOverMembers f db poolId).
  { intros f. rewrite foldl_sumZ, sumOverMembers_alt, Z.add_0_l.
    by apply recalculated_sum. }
  unfold recalculatePoolCapacityInternal, txBind, selectMembersOfPool,
    selectRequestsIn, updatePool.
  destruct (length _ =? 0)%nat eqn:Hempty.
  - intros [= <-]. cbn. split; [done|]. split; [done|].
    apply Forall2_fmap_r, Forall_Forall2_diag, Forall_forall.
    intros q _. unfold compose. cbn beta.
    destruct (decide (pool_id q = poolId)) as [Hq|Hq]; [|done].
    split; [done|]. split; [done|].
    unfold countersMatch, sumOverMembers. cbn. rewrite Hq.
    apply Nat.eqb_eq in Hempty. rewrite length_fmap in Hempty.
    apply nil_length_inv in Hempty. by rewrite Hempty.
  - intros [= <-]. cbn. split; [done|]. split; [done|].
    apply Forall2_fmap_r, Forall_Forall2_diag, Forall_forall.
    intros q _. unfold compose. cbn beta.
    destruct (decide (pool_id q = poolId)) as [Hq|Hq]; [|done].
    split; [done|]. split; [done|].
    unfold countersMatch. cbn. rewrite Hq, !Hsum.
    by unfold sumOverMembers, requestOf.
Qed.

Lemma sumOverMembers_ext f db db' poolId :
  filter (λ m, member_pool_id m = poolId) (pool_members db')
  = filter (λ m, member_pool_id m = poolId) (pool_members db) →
  (∀ i, f <$> requestOf db' i = f <$> requestOf db i) →
  sumOverMembers f db' poolId = sumOverMembers f db poolId.
Proof.
  intros Hmem Hreq. rewrite !sumOverMembers_alt, Hmem. f_equal.
  apply list_fmap_ext. intros _ i _. specialize (Hreq i).
  destruct (requestOf db' i), (requestOf db i); cbn in *; congruence.
Qed.

Lemma head_filter_fmap (g : RideRequest → RideRequest) i requests :
  (∀ r, req_id (g r) = req_id r) →
  head (filter (λ r, req_id r = i) (g <$> requests))
  = g <$> head (filter (λ r, req_id r = i) requests).
Proof.
  intros Hg. induction requests as [|r requests IH]; [done|].
  rewrite fmap_cons, !filter_cons, Hg.
  by destruct (decide (req_id r = i)).
Qed.

Lemma onlyTouches_refl poolId db : onlyTouches poolId db db.
Proof. unfold onlyTouches. auto. Qed.

Lemma onlyTouches_trans poolId db db1 db2 :
  onlyTouches poolId db db1 → onlyTouches poolId db1 db2 →
  onlyTouches poolId db db2.
Proof.
  intros (Hp & Hm & Hpc & Hlc & Hk) (Hp' & Hm' & Hpc' & Hlc' & Hk').
  split; [congruence|]. split.
  { intros other Hne. by rewrite Hm', Hm. }
  split; [intros i; by rewrite Hpc', Hpc|].
  split; [intros i; by rewrite Hlc', Hlc|]. auto.
Qed.

Section CounterFacts.
Variable calculateDistance : Q → Q → Q → Q → Q.
Variable config : RidePoolingConfig.
Variable demandFactor : Q.

Lemma addMemberToPoolInternal_touches poolId rid db db1 :
  addMemberToPoolInternal calculateDistance config demandFactor poolId rid db
    = Ok (tt, db1) →
  onlyTouches poolId db db1.
Proof.
  unfold addMemberToPoolInternal, txBind, selectRequest,
    selectMembersOfRequest, selectMembersOfPool, txThrow, txRet.
  destruct (filter _ (ride_requests db)) as [|ride rows]; [done|].
  destruct (0 <? length _)%nat; [done|].
  unfold insertMember. cbn [member_pool_id ride_request_id].
  destruct (decide (Exists _ _ ∧ Exists _ _)); [|done].
  destruct (decide (Exists _ (pool_members db))) as [|Hfresh]; [done|].
  cbn. intros [= <-]. unfold onlyTouches, requestOf. cbn.
  split; [done|]. split.
  { intros other Hne. rewrite filter_app, filter_cons_False, filter_nil.
    - by rewrite app_nil_r.
    - cbn. congruence. }
  split; [|split].
  - intros i. rewrite head_filter_fmap by (intros r; by destruct decide).
    destruct (head _) as [r|]; [|done]. cbn. by destruct decide.
  - intros i. rewrite head_filter_fmap by (intros r; by destruct decide).
    destruct (head _) as [r|]; [|done]. cbn. by destruct decide.
  - intros [Hreq Hmem]. split; cbn.
    + rewrite <- list_fmap_compose.
      erewrite list_fmap_ext; [exact Hreq|].
      intros _ r _. cbn. by destruct decide.
    + rewrite fmap_app. apply NoDup_app. split; [done|].
      split; [|apply NoDup_singleton].
      intros pr Hin ->%list_elem_of_singleton. apply Hfresh.
      apply list_elem_of_fmap in Hin as (m & Heq & Hm).
      apply Exists_exists. exists m. split; [done|].
      cbn in Heq. split; congruence.
Qed.

Lemma addMembers_touches poolId rids : ∀ db db1,
  addMembers calculateDistance config demandFactor poolId rids db
    = Ok (tt, db1) →
  onlyTouches poolId db db1.
Proof.
  induction rids as [|rid rids IH]; intros db db1; cbn.
  - intros [= <-]. apply onlyTouches_refl.
  - unfold txBind at 1.
    destruct (addMemberToPoolInternal _ _ _ _ _ db) as [[[] db0]| |] eqn:E;
      [|done..].
    intros Hrest. eapply onlyTouches_trans.
    + by eapply addMemberToPoolInternal_touches.
    + by apply IH.
Qed.

Lemma deleteMembers_touches poolId rid db :
  onlyTouches poolId db
    {| ride_requests := ride_requests db;
       ride_pools := ride_pools db;
       pool_members :=
         filter (λ m, ¬ (member_pool_id m = poolId ∧ ride_request_id m = rid))
           (pool_members db) |}.
Proof.
  unfold onlyTouches, requestOf. cbn. split; [done|]. split.
  { intros other Hne. rewrite list_filter_filter.
    apply list_filter_iff. intros m. split; [by intros [? _]|].
    intros Ho. split; [done|]. intros [Hp _]. congruence. }
  split; [done|]. split; [done|].
  intros [Hreq Hmem]. split; [done|]. cbn.
  clear -Hmem. induction (pool_members db) as [|m ms IH]; [constructor|].
  rewrite fmap_cons in Hmem. apply NoDup_cons in Hmem as [Hfresh Hnd].
  rewrite filter_cons. destruct (decide _); [|by apply IH].
  rewrite fmap_cons. apply NoDup_cons. split; [|by apply IH].
  intros Hin. apply Hfresh.
  apply list_elem_of_fmap in Hin as (m' & Heq & Hm').
  apply list_elem_of_filter in Hm' as [_ Hm'].
  apply list_elem_of_fmap. by exists m'.
Qed.

(** Recalculating the one pool whose membership changed restores the
    invariant. *)
Lemma recalculate_after_touch poolId db db1 db2 :
  keysUnique db →
  Forall (λ q, pool_id q ≠ poolId → countersMatch db q) (ride_pools db) →
  onlyTouches poolId db db1 →
  recalculatePoolCapacityInternal poolId db1 = Ok (tt, db2) →
  storeInv db2.
Proof.
  intros Hkeys Hothers (Hpools & Hmem & Hpc & Hlc & Hk1) Hrecalc.
  specialize (Hk1 Hkeys).
  destruct (recalculate_countersMatch poolId db1 db2 Hk1 Hrecalc)
    as (Hreq2 & Hmem2 & Hall).
  split.
  { destruct Hk1 as [? ?]. split; by rewrite ?Hreq2, ?Hmem2. }
  unfold countersConsistent. rewrite Hpools in Hall.
  clear Hrecalc. revert Hothers Hall.
  generalize (ride_pools db) (ride_pools db2). intros l1 l2 Hothers Hall.
  induction Hall as [|q q' qs qs' (Hid & _ & Hq) _ IH]; [constructor|].
  apply Forall_cons in Hothers as [Hq0 Hothers].
  constructor; [|by apply IH].
  destruct (decide (pool_id q = poolId)) as [Hp|Hp]; [done|]. subst q'.
  destruct (Hq0 Hp) as [Hc1 Hc2]. unfold countersMatch.
  rewrite Hc1, Hc2. split; symmetry; apply sumOverMembers_ext.
  - unfold requestOf. by rewrite Hmem2, Hmem.
  - intros i. unfold requestOf. rewrite Hreq2. apply Hpc.
  - by rewrite Hmem2, Hmem.
  - intros i. unfold requestOf. rewrite Hreq2. apply Hlc.
Qed.

Lemma storeInv_others poolId db :
  storeInv db →
  Forall (λ q, pool_id q ≠ poolId → countersMatch db q) (ride_pools db).
Proof. intros [_ H]. eapply Forall_impl; [exact H|]. auto. Qed.

(** The three operations of [PoolService] that change membership keep the
    invariant: each ends by recalculating the pool it touched. *)
Lemma poolService_keeps_counters db :
  storeInv db →
  (∀ poolId rid db',
     addMemberToPool calculateDistance config demandFactor poolId rid db
       = (Ok tt, db') → storeInv db')
  ∧ (∀ poolId rid db',
       removeMemberFromPool poolId rid db = (Ok tt, db') → storeInv db')
  ∧ (∀ newPoolId poolCode rids created db',
       createPool calculateDistance config demandFactor newPoolId poolCode
         rids db = (Ok created, db') → storeInv db').
Proof.
  intros Hinv. pose proof Hinv as [Hkeys Hcons]. split; [|split].
  - intros poolId rid db'. unfold addMemberToPool, transaction, txBind.
    destruct (addMemberToPoolInternal _ _ _ _ _ db) as [[[] db1]| |] eqn:E;
      [|done..].
    destruct (recalculatePoolCapacityInternal _ db1) as [[[] db2]| |] eqn:R;
      [|done..].
    intros [= <-].
    eapply recalculate_after_touch; [done|by apply storeInv_others| |done].
    by eapply addMemberToPoolInternal_touches.
  - intros poolId rid db'.
    unfold removeMemberFromPool, transaction, txBind at 1 2.
    unfold deleteMembers at 1.
    destruct (recalculatePoolCapacityInternal _ _) as [[[] db2]| |] eqn:R;
      [|done..].
    assert (Hinv2 : storeInv db2).
    { eapply recalculate_after_touch;
        [done|by apply storeInv_others| |exact R].
      apply deleteMembers_touches. }
    unfold txBind, selectMembersOfPool, updatePool, txRet.
    destruct (length _ =? 0)%nat; intros [= <-]; [|done].
    destruct Hinv2 as [Hk2 Hc2]. split; [done|].
    unfold countersConsistent in *. cbn.
    apply Forall_fmap. eapply Forall_impl; [exact Hc2|].
    intros q Hq. cbn. by destruct (decide (pool_id q = poolId)).
  - intros newPoolId poolCode rids created db'.
    unfold createPool, transaction, txBind at 1 2 3.
    unfold insertPool at 1.
    destruct (decide (Exists _ (ride_pools db))) as [|Hfresh]; [done|].
    cbn [pool_id].
    destruct (addMembers _ _ _ _ _ _) as [[[] db1]| |] eqn:E; [|done..].
    destruct (recalculatePoolCapacityInternal _ db1) as [[[] db2]| |] eqn:R;
      [|done..].
    unfold txRet. intros Hres. assert (db' = db2) as -> by congruence.
    eapply recalculate_after_touch; [| |by eapply addMembers_touches|exact R].
    + done.
    + cbn. apply Forall_app. split.
      * eapply Forall_impl; [exact Hcons|]. intros q Hq _. exact Hq.
      * constructor; [|constructor]. cbn. done.
Qed.
End CounterFacts.

(** C2 (the code at a failing input).  [createPool], [addMemberToPool] and
    [removeMemberFromPool] keep every pool's counters equal to the sums
    over its current members.  [cancelRideRequest] does not: the pool
    opened for [r-a] (2 passengers, 1 bag) and [r-b] (1 passenger, 2 bags)
    has counters 3 and 3; cancelling the matched request [r-a] succeeds
    and removes its membership, yet the counters stay at 3 and 3 while the
    remaining member sums to 1 and 2.  Removing the same member through
    [removeMemberFromPool] recomputes them to 1 and 2. *)
Theorem cancel_matched_leaves_stale_counters :
  (∀ calculateDistance config demandFactor db,
     storeInv db →
     (∀ poolId rid db',
        addMemberToPool calculateDistance config demandFactor poolId rid db
          = (Ok tt, db') → storeInv db')
     ∧ (∀ poolId rid db',
          removeMemberFromPool poolId rid db = (Ok tt, db') → storeInv db')
     ∧ (∀ newPoolId poolCode rids created db',
          createPool calculateDistance config demandFactor newPoolId
            poolCode rids db = (Ok created, db') → storeInv db'))
  ∧ storeInv poolDb
  ∧ status <$> requestOf poolDb "r-a" = Some matched
  ∧ fst (cancelRideRequest "r-a" poolDb)
    = Ok (setRequestStatus cancelled (setRequestStatus matched rideA))
  ∧ ride_request_id <$> pool_members afterCancelDb = ["r-b"]
  ∧ (current_passenger_count <$> ride_pools afterCancelDb = [3%Z]
     ∧ current_luggage_count <$> ride_pools afterCancelDb = [3%Z])
  ∧ (sumOverMembers passenger_count afterCancelDb "p-1" = 1%Z
     ∧ sumOverMembers luggage_count afterCancelDb "p-1" = 2%Z)
  ∧ ¬ countersConsistent afterCancelDb
  ∧ countersConsistent afterRemoveDb.
Proof.
  split; [apply poolService_keeps_counters|].
  assert (Hfresh : storeInv freshDb).
  { split; [|constructor].
    split; apply (bool_decide_unpack _); vm_compute; exact I. }
  split.
  { apply (proj2 (proj2 (poolService_keeps_counters gridDistance
                           defaultConfig 0 freshDb Hfresh))
             "p-1" "POOLAAAAAA" ["r-a"; "r-b"] openedPool poolDb).
    vm_compute. reflexivity. }
  split; [vm_compute; reflexivity|].
  split; [vm_compute; reflexivity|].
  split; [vm_compute; reflexivity|].
  split; [split; vm_compute; reflexivity|].
  split; [split; vm_compute; reflexivity|].
  split.
  { intros H. apply Forall_cons in H as [[H _] _].
    vm_compute in H. discriminate. }
  repeat constructor.
Qed.

(** * The rest of the code *)

(** ** Rounding and price bounds *)

Lemma cents_le (n m : Z) : (n # 100 <= m # 100)%Q ↔ (n ≤ m)%Z.
Proof. unfold Qle. cbn. lia. Qed.

Lemma cents_nonneg (n : Z) : (0 <= n # 100)%Q ↔ (0 ≤ n)%Z.
Proof. unfold Qle. cbn. lia. Qed.

Lemma cents_nonpos (n : Z) : (n # 100 <= 0)%Q ↔ (n ≤ 0)%Z.
Proof. unfold Qle. cbn. lia. Qed.

Lemma toFixed2_cents x : ∃ n : Z, toFixed2 x = (n # 100)%Q.
Proof.
  unfold toFixed2. destruct (Qlt_le_dec x 0).
  - by exists (- Qfloor (- x * 100 + (1 # 2)))%Z.
  - by eexists.
Qed.

Lemma toFixed2_nonneg x : (0 <= x)%Q → (0 <= toFixed2 x)%Q.
Proof.
  intros Hx. unfold toFixed2. destruct (Qlt_le_dec x 0) as [Hneg|_]; [lra|].
  apply cents_nonneg.
  change 0%Z with (Qfloor 0). apply Qfloor_resp_le. lra.
Qed.

Lemma toFixed2_nonpos x : (x < 0)%Q → (toFixed2 x <= 0)%Q.
Proof.
  intros Hx. unfold toFixed2. destruct (Qlt_le_dec x 0) as [_|Hpos]; [|lra].
  change (- (Qfloor (- x * 100 + (1 # 2)) # 100))%Q
    with ((- Qfloor (- x * 100 + (1 # 2))) # 100)%Q.
  apply cents_nonpos.
  assert (Qfloor 0 ≤ Qfloor (- x * 100 + (1 # 2)))%Z
    by (apply Qfloor_resp_le; lra).
  change (Qfloor 0) with 0%Z in *. lia.
Qed.

Lemma toFixed2_mono x y : (x <= y)%Q → (toFixed2 x <= toFixed2 y)%Q.
Proof.
  intros Hxy.
  destruct (Qlt_le_dec x 0) as [Hx|Hx], (Qlt_le_dec y 0) as [Hy|Hy].
  - unfold toFixed2.
    destruct (Qlt_le_dec x 0); [|lra]. destruct (Qlt_le_dec y 0); [|lra].
    change (- (Qfloor (- x * 100 + (1 # 2)) # 100))%Q
      with ((- Qfloor (- x * 100 + (1 # 2))) # 100)%Q.
    change (- (Qfloor (- y * 100 + (1 # 2)) # 100))%Q
      with ((- Qfloor (- y * 100 + (1 # 2))) # 100)%Q.
    apply cents_le.
    assert (Qfloor (- y * 100 + (1 # 2)) ≤ Qfloor (- x * 100 + (1 # 2)))%Z
      by (apply Qfloor_resp_le; lra).
    lia.
  - apply Qle_trans with 0%Q;
      [by apply toFixed2_nonpos|by apply toFixed2_nonneg].
  - lra.
  - unfold toFixed2.
    destruct (Qlt_le_dec x 0); [lra|]. destruct (Qlt_le_dec y 0); [lra|].
    apply cents_le, Qfloor_resp_le. lra.
Qed.

(** X1.  Whatever the distance, the demand factor and the pool size, the
    final price [calculatePrice] reports is a whole number of cents and is
    never negative; the reported distance is a whole number of hundredths
    of a kilometre. *)
Theorem calculatePrice_final_price_cents
    (calculateDistance : Q → Q → Q → Q → Q) (config : RidePoolingConfig)
    (demandFactor : Q) (request : RideRequest) (isPooled : bool)
    (poolSize : Z) :
  let b := calculatePrice calculateDistance config demandFactor request
             isPooled poolSize in
  (∃ cents : Z, (0 ≤ cents)%Z ∧ final_price b = (cents # 100)%Q)
  ∧ (∃ hundredths : Z, distance_km b = (hundredths # 100)%Q).
Proof.
  intros b. split; [|apply toFixed2_cents].
  unfold b, calculatePrice. cbn [final_price].
  match goal with |- context [toFixed2 ?x] => set (p := x) end.
  destruct (toFixed2_cents p) as [n Hn]. exists n. split; [|done].
  assert (Hp : (0 <= p)%Q) by apply Q.le_max_l.
  apply toFixed2_nonneg in Hp. rewrite Hn in Hp.
  apply cents_nonneg. exact Hp.
Qed.

Section PriceBounds.
Variable calculateDistance : Q → Q → Q → Q → Q.
Variable config : RidePoolingConfig.

Lemma calculateSurgeMultiplier_nonneg demandFactor :
  (0 <= demandFactor)%Q → (0 <= surgeMultiplierMax config)%Q →
  (0 <= calculateSurgeMultiplier config demandFactor)%Q.
Proof.
  intros Hd Hmax. unfold calculateSurgeMultiplier. cbv zeta.
  destruct (Q.min_spec (1 + demandFactor * (1 # 2))
              (surgeMultiplierMax config)) as [[_ ->]|[_ ->]]; lra.
Qed.

Lemma calculatePoolDiscount_range poolSize :
  (0 <= poolDiscountPercent config)%Q → (1 ≤ poolSize)%Z →
  (0 <= calculatePoolDiscount config poolSize <= 30)%Q.
Proof.
  intros Hbase Hsize. unfold calculatePoolDiscount. cbv zeta.
  assert (Hone : (1 <= inject_Z poolSize)%Q).
  { change 1%Q with (inject_Z 1). by rewrite <- Zle_Qle. }
  destruct (Q.min_spec (poolDiscountPercent config
                        + (inject_Z poolSize - 1) * 5) 30)
    as [[? ->]|[? ->]]; lra.
Qed.
End PriceBounds.

(** X2.  With a non-negative fare configuration, distance and demand
    factor, a pooled ride never costs more than the same ride taken alone,
    and never less than 70 percent of the undiscounted amount (rounded to
    cents): the discount is capped at 30 percent. *)
Theorem pooled_price_between
    (calculateDistance : Q → Q → Q → Q → Q) (config : RidePoolingConfig)
    (demandFactor : Q) (request : RideRequest) (poolSize : Z) :
  (0 <= baseFare config)%Q → (0 <= perKmRate config)%Q →
  (0 <= surgeMultiplierMax config)%Q → (0 <= poolDiscountPercent config)%Q →
  (0 <= calculateDistance (pickup_latitude request) (pickup_longitude request)
          (dropoff_latitude request) (dropoff_longitude request))%Q →
  (0 <= demandFactor)%Q → (1 ≤ poolSize)%Z →
  let solo := calculatePrice calculateDistance config demandFactor request
                false 1 in
  let pooled := calculatePrice calculateDistance config demandFactor request
                  true poolSize in
  (final_price pooled <= final_price solo)%Q
  ∧ (toFixed2 ((7 # 10) * (subtotal solo + surge_amount solo))
     <= final_price pooled)%Q.
Proof.
  intros Hbase Hrate Hmax Hdisc Hdist Hdemand Hsize solo pooled.
  unfold solo, pooled, calculatePrice.
  cbn [final_price subtotal surge_amount].
  set (d := calculateDistance _ _ _ _) in *.
  pose proof (calculateSurgeMultiplier_nonneg config demandFactor
                Hdemand Hmax) as Hsurge.
  pose proof (calculatePoolDiscount_range config poolSize Hdisc Hsize)
    as [Hp0 Hp30].
  set (s := calculateSurgeMultiplier config demandFactor) in *.
  set (p := calculatePoolDiscount config poolSize) in *.
  set (sub := (baseFare config + d * perKmRate config)%Q).
  assert (Hsub : (0 <= sub)%Q).
  { unfold sub. pose proof (Qmult_le_0_compat _ _ Hdist Hrate). lra. }
  set (X := (sub + sub * (s - 1))%Q).
  assert (HX : (0 <= X)%Q).
  { assert (HXs : (X == sub * s)%Q) by (unfold X; ring).
    rewrite HXs. by apply Qmult_le_0_compat. }
  set (t := (X * (p / 100))%Q).
  assert (Ht : (0 <= t <= X * (30 # 100))%Q).
  { unfold t. split.
    - apply Qmult_le_0_compat; [done|].
      apply Qle_shift_div_l; [reflexivity|]. lra.
    - rewrite !(Qmult_comm X). apply Qmult_le_compat_r; [|done].
      apply Qle_shift_div_r; [reflexivity|]. lra. }
  split.
  - apply toFixed2_mono, Q.max_le_compat_l. lra.
  - apply toFixed2_mono.
    apply Qle_trans with (X - t)%Q; [lra|apply Q.le_max_r].
Qed.

Lemma pooled_price_between_witness :
  (final_price (calculatePrice gridDistance defaultConfig 1 tenKmTrip true 3)
   <= final_price (calculatePrice gridDistance defaultConfig 1 tenKmTrip
                     false 1))%Q.
Proof.
  apply (pooled_price_between gridDistance defaultConfig 1 tenKmTrip 3);
    vm_compute; discriminate.
Defined.

(** ** The demand factor *)

Lemma demandFactorOf_range pendingCount hour :
  (3 # 4 <= demandFactorOf pendingCount hour <= 7 # 4)%Q
  ∧ (demandFactorOf pendingCount hour < 2)%Q.
Proof.
  unfold demandFactorOf.
  destruct ((7 <=? hour) && (hour <=? 9) || (17 <=? hour) && (hour <=? 20))%Z;
    destruct (50 <? pendingCount)%Z;
    destruct (30 <? pendingCount)%Z;
    destruct (10 <? pendingCount)%Z;
    (split; [split|]); vm_compute; (discriminate || reflexivity).
Qed.

(** X3.  The demand factor computed from the store lies between 0.75 and
    1.75 at every hour and for every number of pending requests, so the cap
    at 2.0 never applies and the documented range from 0.0 to 2.0 is not
    reached at either end; at a fixed hour it does not decrease when the
    number of recent pending requests grows. *)
Theorem calculateDemandFactor_range_and_monotone :
  (∀ now hour db,
     (3 # 4 <= calculateDemandFactor now hour db <= 7 # 4)%Q
     ∧ (calculateDemandFactor now hour db < 2)%Q)
  ∧ (∀ hour count count',
       (count ≤ count')%Z →
       (demandFactorOf count hour <= demandFactorOf count' hour)%Q)
  ∧ (∀ now hour db db',
       (countRecentPending now db ≤ countRecentPending now db')%Z →
       (calculateDemandFactor now hour db
        <= calculateDemandFactor now hour db')%Q).
Proof.
  assert (Hmono : ∀ hour count count', (count ≤ count')%Z →
            (demandFactorOf count hour <= demandFactorOf count' hour)%Q).
  { intros hour count count' Hle. unfold demandFactorOf.
    destruct ((7 <=? hour) && (hour <=? 9)
              || (17 <=? hour) && (hour <=? 20))%Z;
      destruct (Z.ltb_spec 50 count), (Z.ltb_spec 30 count),
        (Z.ltb_spec 10 count), (Z.ltb_spec 50 count'),
        (Z.ltb_spec 30 count'), (Z.ltb_spec 10 count');
      try lia; vm_compute; discriminate. }
  split; [intros; apply demandFactorOf_range|].
  split; [exact Hmono|].
  intros now hour db db' Hle. by apply Hmono.
Qed.

Lemma calculateDemandFactor_range_and_monotone_witness :
  (calculateDemandFactor 1000 8 terminalDb
   <= calculateDemandFactor 1000 8 freshDb)%Q.
Proof.
  apply (proj2 (proj2 calculateDemandFactor_range_and_monotone)
           1000%Z 8%Z terminalDb freshDb).
  vm_compute. discriminate.
Defined.

(** X4.  When the cached demand factor, if there is one, was written by
    this service (it lies between 0.75 and 1.75), [getDemandFactor] returns
    a factor in that range and leaves such an entry in the cache.  Under
    the default configuration the surge multiplier of that factor lies
    between 1.375 and 1.875: a price is always surged, and the surge cap of
    2.5 is never reached. *)
Theorem getDemandFactor_surge_range (cached : option Q) (now hour : Z)
    (db : Db) :
  (∀ c, cached = Some c → (3 # 4 <= c <= 7 # 4)%Q) →
  let demandFactor := (getDemandFactor cached now hour db).1 in
  let cached' := (getDemandFactor cached now hour db).2 in
  (3 # 4 <= demandFactor <= 7 # 4)%Q
  ∧ (∀ c, cached' = Some c → (3 # 4 <= c <= 7 # 4)%Q)
  ∧ (11 # 8 <= calculateSurgeMultiplier defaultConfig demandFactor
     <= 15 # 8)%Q.
Proof.
  intros Hcached.
  assert (Hsurge : ∀ f, (3 # 4 <= f <= 7 # 4)%Q →
    (11 # 8 <= calculateSurgeMultiplier defaultConfig f <= 15 # 8)%Q).
  { intros f [Hlo Hhi]. unfold calculateSurgeMultiplier. cbv zeta.
    cbn [surgeMultiplierMax defaultConfig].
    destruct (Q.min_spec (1 + f * (1 # 2)) (25 # 10)) as [[_ ->]|[? ->]];
      lra. }
  unfold getDemandFactor. destruct cached as [c|]; cbn [fst snd].
  - pose proof (Hcached c eq_refl). auto.
  - pose proof (proj1 (demandFactorOf_range (countRecentPending now db) hour))
      as Hrange.
    split; [exact Hrange|]. split; [|by apply Hsurge].
    intros c [= <-]. exact Hrange.
Qed.

Lemma getDemandFactor_surge_range_witness :
  (11 # 8
   <= calculateSurgeMultiplier defaultConfig
        (getDemandFactor None 1000 8 freshDb).1
   <= 15 # 8)%Q.
Proof.
  apply (getDemandFactor_surge_range None 1000%Z 8%Z freshDb).
  intros c Hc. discriminate Hc.
Defined.

(** ** Route length and detour *)

Lemma List_last_Some {A} (l : list A) (d x : A) :
  last l = Some x → List.last l d = x.
Proof.
  induction l as [|a l IH]; [done|]. destruct l as [|b l].
  - cbn. congruence.
  - intros H. rewrite last_cons_cons in H.
    change (List.last (a :: b :: l) d) with (List.last (b :: l) d).
    by apply IH.
Qed.

Section RouteLength.
Variable calculateDistance : Q → Q → Q → Q → Q.

Lemma sumLegs_points route : ∀ total,
  sumLegs calculateDistance route total
  = sumPointLegs calculateDistance (coordsOf <$> route) total.
Proof.
  induction route as [|a route IH]; intros total; [done|].
  destruct route as [|b route]; [done|].
  change (sumLegs calculateDistance (a :: b :: route) total)
    with (sumLegs calculateDistance (b :: route)
            (total + calculateDistance (lat a) (lon a) (lat b) (lon b))%Q).
  by rewrite IH.
Qed.

Lemma sumPointLegs_acc points : ∀ total,
  (sumPointLegs calculateDistance points total
   == total + sumPointLegs calculateDistance points 0)%Q.
Proof.
  induction points as [|a points IH]; intros total; [cbn; lra|].
  destruct points as [|b points]; [cbn; lra|].
  change (sumPointLegs calculateDistance (a :: b :: points) ?t)
    with (sumPointLegs calculateDistance (b :: points)
            (t + distanceBetween calculateDistance a b)%Q).
  rewrite IH.
  change (sumPointLegs calculateDistance (a :: b :: points) 0)
    with (sumPointLegs calculateDistance (b :: points)
            (0 + distanceBetween calculateDistance a b)%Q).
  rewrite (IH (0 + distanceBetween calculateDistance a b)%Q). lra.
Qed.

Lemma sumPointLegs_snoc points last_ p : ∀ total,
  last points = Some last_ →
  sumPointLegs calculateDistance (points ++ [p]) total
  = (sumPointLegs calculateDistance points total
     + distanceBetween calculateDistance last_ p)%Q.
Proof.
  induction points as [|a points IH]; intros total Hlast; [done|].
  destruct points as [|b points].
  - cbn in Hlast. by injection Hlast as ->.
  - change (sumPointLegs calculateDistance ((a :: b :: points) ++ [p]) total)
      with (sumPointLegs calculateDistance ((b :: points) ++ [p])
              (total + distanceBetween calculateDistance a b)%Q).
    change (sumPointLegs calculateDistance (a :: b :: points) total)
      with (sumPointLegs calculateDistance (b :: points)
              (total + distanceBetween calculateDistance a b)%Q).
    apply IH. by rewrite last_cons_cons in Hlast.
Qed.

(** A path is at least as long as the direct way between its ends. *)
Lemma sumPointLegs_direct first points :
  distanceLaws calculateDistance →
  (distanceBetween calculateDistance first
     (List.last (first :: points) first)
   <= sumPointLegs calculateDistance (first :: points) 0)%Q.
Proof.
  intros (Hnonneg & Hzero & Htriangle).
  induction points as [|p points IH] using rev_ind.
  - cbn. unfold distanceBetween. rewrite Hzero. lra.
  - change (first :: points ++ [p]) with ((first :: points) ++ [p]).
    rewrite List.last_last.
    destruct (last (first :: points)) as [l|] eqn:Hl;
      [|by apply last_None in Hl].
    rewrite (sumPointLegs_snoc _ l p 0 Hl).
    rewrite (List_last_Some _ first l Hl) in IH.
    eapply Qle_trans; [apply (Htriangle _ _ (pt_lat l) (pt_lon l))|].
    unfold distanceBetween in *. lra.
Qed.
End RouteLength.

Lemma gridDistance_laws : distanceLaws gridDistance.
Proof.
  unfold distanceLaws, gridDistance. split; [|split].
  - intros a b c d.
    pose proof (Qabs_nonneg (c - a)). pose proof (Qabs_nonneg (d - b)). lra.
  - intros a b.
    assert (Ha : (a - a == 0)%Q) by ring. assert (Hb : (b - b == 0)%Q) by ring.
    rewrite Ha, Hb. reflexivity.
  - intros a b c d e f.
    assert (H1 : (e - a == (c - a) + (e - c))%Q) by ring.
    assert (H2 : (f - b == (d - b) + (f - d))%Q) by ring.
    rewrite H1, H2.
    pose proof (Qabs_triangle (c - a) (e - c)).
    pose proof (Qabs_triangle (d - b) (f - d)). lra.
Qed.

(** X5.  [calculateTotalDistance] is 0 for a route of fewer than two
    stops, grows by exactly the last leg when a stop is appended, and, for
    a distance that obeys the triangle inequality, is never less than the
    direct distance between the first and the last stop. *)
Theorem calculateTotalDistance_properties
    (calculateDistance : Q → Q → Q → Q → Q) :
  (∀ route, length route < 2 →
     calculateTotalDistance calculateDistance route = 0%Q)
  ∧ (∀ route l s, last route = Some l →
       calculateTotalDistance calculateDistance (route ++ [s])
       = (calculateTotalDistance calculateDistance route
          + calculateDistance (lat l) (lon l) (lat s) (lon s))%Q)
  ∧ (distanceLaws calculateDistance →
     ∀ first route l, last (first :: route) = Some l →
       (calculateDistance (lat first) (lon first) (lat l) (lon l)
        <= calculateTotalDistance calculateDistance (first :: route))%Q).
Proof.
  split; [|split].
  - intros [|a [|b route]] Hlen; cbn in Hlen; [done..|lia].
  - intros route l s Hl. unfold calculateTotalDistance.
    rewrite !sumLegs_points, fmap_app. cbn [fmap list_fmap].
    apply (sumPointLegs_snoc calculateDistance _ (coordsOf l)).
    by rewrite fmap_last, Hl.
  - intros Hlaws first route l Hl. unfold calculateTotalDistance.
    rewrite sumLegs_points, fmap_cons.
    pose proof (sumPointLegs_direct calculateDistance (coordsOf first)
                  (coordsOf <$> route) Hlaws) as Hdirect.
    rewrite (List_last_Some _ (coordsOf first) (coordsOf l)) in Hdirect;
      [exact Hdirect|].
    by rewrite <- fmap_cons, fmap_last, Hl.
Qed.

Lemma calculateTotalDistance_properties_witness :
  (gridDistance 0 0 20 3
   <= calculateTotalDistance gridDistance
        [pickupStop scenarioMember; pickupStop scenarioRequest;
         dropoffStop scenarioMember; dropoffStop scenarioRequest])%Q.
Proof.
  apply (proj2 (proj2 (calculateTotalDistance_properties gridDistance))
           gridDistance_laws (pickupStop scenarioMember)
           [pickupStop scenarioRequest; dropoffStop scenarioMember;
            dropoffStop scenarioRequest] (dropoffStop scenarioRequest)).
  reflexivity.
Defined.

(** X6.  [calculateDetour] is 0 for an empty route.  For a distance that
    obeys the triangle inequality and a non-empty route it is the length of
    the route extended by the new point minus the direct distance between
    the ends of the current route, hence never less than the leg from the
    last point to the new one, and never negative. *)
Theorem calculateDetour_properties
    (calculateDistance : Q → Q → Q → Q → Q) :
  (∀ newPoint, calculateDetour calculateDistance [] newPoint = 0%Q)
  ∧ (distanceLaws calculateDistance →
     ∀ first route l newPoint, last (first :: route) = Some l →
       (distanceBetween calculateDistance l newPoint
        <= calculateDetour calculateDistance (first :: route) newPoint)%Q
       ∧ (0 <= calculateDetour calculateDistance (first :: route) newPoint)%Q).
Proof.
  split; [done|]. intros Hlaws first route l newPoint Hl.
  assert (Hleg : (distanceBetween calculateDistance l newPoint
      <= calculateDetour calculateDistance (first :: route) newPoint)%Q).
  { unfold calculateDetour.
    rewrite (sumPointLegs_snoc calculateDistance _ l newPoint 0 Hl).
    pose proof (sumPointLegs_direct calculateDistance first route Hlaws)
      as Hdirect.
    rewrite (List_last_Some _ first l Hl) in Hdirect |- *.
    lra. }
  split; [exact Hleg|].
  destruct Hlaws as (Hnonneg & _). unfold distanceBetween in Hleg.
  eapply Qle_trans; [apply Hnonneg|exact Hleg].
Qed.

Lemma calculateDetour_properties_witness :
  (0 <= calculateDetour gridDistance
          [{| pt_lat := 0; pt_lon := 0 |}; {| pt_lat := 3; pt_lon := 4 |}]
          {| pt_lat := 1; pt_lon := 1 |})%Q.
Proof.
  apply (proj2 (calculateDetour_properties gridDistance) gridDistance_laws
           {| pt_lat := 0; pt_lon := 0 |} [{| pt_lat := 3; pt_lon := 4 |}]
           {| pt_lat := 3; pt_lon := 4 |} {| pt_lat := 1; pt_lon := 1 |}).
  reflexivity.
Defined.

(** ** The route for every input, and the greedy choice *)

Section RouteAnyInput.
Variable calculateDistance : Q → Q → Q → Q → Q.

Lemma loopBody_appends stops st st' :
  loopBody calculateDistance stops st = Ok st' →
  ∃ k s, stops !! k = Some s ∧ optimized st' = optimized st ++ [s].
Proof.
  unfold loopBody.
  destruct (scanNearest _ _ _ _ _ _) as [r| |]; cbn; [|done..].
  destruct (match r with
            | Some i => Some i
            | None => firstUnvisited (visited st) 0 stops
            end) as [k|]; [|done].
  destruct (stops !! k) as [s|] eqn:Hk; [|done].
  intros [= <-]. by exists k, s.
Qed.

Lemma nearestSoFar_skip st cur pre s acc minD :
  (length pre ∈ visited st ∨ ¬ eligible st s) →
  nearestSoFar calculateDistance st cur pre acc minD →
  nearestSoFar calculateDistance st cur (pre ++ [s]) acc minD.
Proof.
  intros Hskip. unfold nearestSoFar.
  destruct acc as [k|], minD as [m|]; try done.
  - intros (s0 & Hk & Hm & Hv & He & Hall). exists s0.
    split; [by apply lookup_app_l_Some|]. repeat (split; [done|]).
    intros j t [[_ Hj]|[-> <-]]%lookup_snoc_Some Hjv Hje; [by apply Hall|].
    by destruct Hskip.
  - intros Hall j t [[_ Hj]|[-> <-]]%lookup_snoc_Some Hjv Hje;
      [by eapply Hall|]. by destruct Hskip.
Qed.

Lemma scanNearest_nearest st cur : last (optimized st) = Some cur →
  ∀ rest pre acc minD r,
  nearestSoFar calculateDistance st cur pre acc minD →
  scanNearest calculateDistance st (length pre) rest acc minD = Ok r →
  ∃ minD', nearestSoFar calculateDistance st cur (pre ++ rest) r minD'.
Proof.
  intros Hcur rest.
  induction rest as [|s rest IH]; intros pre acc minD r Hinv; cbn.
  { intros [= <-]. exists minD. by rewrite app_nil_r. }
  assert (Hnext : ∀ acc' minD',
    nearestSoFar calculateDistance st cur (pre ++ [s]) acc' minD' →
    scanNearest calculateDistance st (S (length pre)) rest acc' minD' = Ok r →
    ∃ minD'', nearestSoFar calculateDistance st cur (pre ++ s :: rest) r
                minD'').
  { intros acc' minD' Hinv' Hscan.
    rewrite cons_middle, app_assoc. apply (IH (pre ++ [s]) acc' minD').
    - done.
    - by rewrite length_app, Nat.add_1_r. }
  destruct (decide (length pre ∈ visited st)) as [Hv|Hv].
  { apply Hnext, nearestSoFar_skip; auto. }
  destruct (decide (stop_type s = dropoff ∧ userId s ∉ userPickedUp st))
    as [Hne|He].
  { apply Hnext, nearestSoFar_skip; [|done]. right. intros Hel. by apply Hel. }
  rewrite Hcur.
  set (d := calculateDistance (lat cur) (lon cur) (lat s) (lon s)).
  destruct (belowMin d minD) eqn:Hbelow.
  - apply Hnext. unfold nearestSoFar. exists s.
    split; [by apply list_lookup_middle|]. repeat (split; [done|]).
    intros j t [[Hjlt Hj]|[-> <-]]%lookup_snoc_Some Hjv Hje.
    + unfold nearestSoFar in Hinv. destruct acc as [k|], minD as [m|];
        try done.
      * destruct Hinv as (s0 & _ & _ & _ & _ & Hall).
        destruct (Hall j t Hj Hjv Hje) as [Hle _].
        cbn in Hbelow. apply Qlt_bool_iff in Hbelow.
        split; [|intros _]; lra.
      * exfalso. by eapply Hinv.
    + split; [fold d; lra|lia].
  - apply Hnext. destruct minD as [m|]; [|done].
    cbn in Hbelow.
    assert (Hmd : (m <= d)%Q).
    { apply Qnot_lt_le. intros Hlt. apply Qlt_bool_iff in Hlt. congruence. }
    unfold nearestSoFar in Hinv |- *. destruct acc as [k|]; [|done].
    destruct Hinv as (s0 & Hk & Hm & Hkv & Hke & Hall). exists s0.
    split; [by apply lookup_app_l_Some|]. repeat (split; [done|]).
    intros j t [[Hjlt Hj]|[-> <-]]%lookup_snoc_Some Hjv Hje;
      [by apply Hall|].
    split; [done|]. intros Hlt. apply lookup_lt_Some in Hk. lia.
Qed.
End RouteAnyInput.

(** X7.  [optimizeRoute] never throws and never runs out of iterations: for
    every list of stops, also one that breaks the pickup/dropoff pairing,
    it returns a rearrangement of exactly the input stops that begins with
    the input's first stop. *)
Theorem optimizeRoute_rearranges_any_input
    (calculateDistance : Q → Q → Q → Q → Q) (stops : list Stop) :
  ∃ route,
    optimizeRoute calculateDistance stops = Ok route
    ∧ route ≡ₚ stops
    ∧ length route = length stops
    ∧ head route = head stops.
Proof.
  destruct (optimizeRoute_Permutation calculateDistance stops)
    as (route & Hroute & Hperm).
  exists route. split; [done|]. split; [done|].
  split; [by rewrite Hperm|].
  revert Hroute. unfold optimizeRoute.
  destruct (Nat.leb_spec (length stops) 1) as [_|_]; [by intros [= <-]|].
  destruct (stops !! 0) as [s0|] eqn:H0; [|done].
  destruct (whileLoop _ _ _ _) as [st| |] eqn:Hloop; cbn; [|done..].
  intros [= <-]. rewrite (head_lookup stops), H0.
  apply (whileLoop_invariant calculateDistance stops
           (λ st, head (optimized st) = Some s0)) in Hloop; [done| |done].
  intros st1 st2 Hhead _ Hbody.
  apply loopBody_appends in Hbody as (k & s & _ & ->).
  by destruct (optimized st1).
Qed.

(** X8.  One iteration of the route loop is greedy: when some unvisited
    stop is eligible (a pickup, or a dropoff whose rider is on board), the
    stop appended to the route is an unvisited eligible stop at the least
    distance from the current stop, and among several at that distance the
    one that comes first in the input. *)
Theorem loopBody_takes_nearest
    (calculateDistance : Q → Q → Q → Q → Q) (stops : list Stop)
    (st st' : RouteState) (cur : Stop) :
  last (optimized st) = Some cur →
  (∃ j t, stops !! j = Some t ∧ (j ∉ visited st) ∧ eligible st t) →
  loopBody calculateDistance stops st = Ok st' →
  ∃ k s,
    optimized st' = optimized st ++ [s]
    ∧ stops !! k = Some s ∧ (k ∉ visited st) ∧ eligible st s
    ∧ ∀ j t, stops !! j = Some t → j ∉ visited st → eligible st t →
        (calculateDistance (lat cur) (lon cur) (lat s) (lon s)
         <= calculateDistance (lat cur) (lon cur) (lat t) (lon t))%Q
        ∧ (j < k →
           (calculateDistance (lat cur) (lon cur) (lat s) (lon s)
            < calculateDistance (lat cur) (lon cur) (lat t) (lon t))%Q).
Proof.
  intros Hcur (j0 & t0 & Hj0 & Hv0 & He0). unfold loopBody.
  destruct (scanNearest calculateDistance st 0 stops None None)
    as [r| |] eqn:Hscan; cbn; [|done..].
  destruct (scanNearest_nearest calculateDistance st cur Hcur stops []
              None None r) as [minD' Hnearest]; [by intros j t Hj| done |].
  cbn in Hnearest. unfold nearestSoFar in Hnearest.
  destruct r as [k|]; cycle 1.
  { destruct minD'; [done|]. exfalso. by eapply Hnearest. }
  destruct minD' as [m|]; [|done].
  destruct Hnearest as (s & Hk & -> & Hkv & Hke & Hall).
  rewrite Hk. intros [= <-]. cbn. by exists k, s.
Qed.

Lemma loopBody_takes_nearest_witness :
  ∃ k s,
    optimized scenarioSecondState
    = optimized (initialState (pickupStop scenarioMember)) ++ [s]
    ∧ scenarioStops !! k = Some s
    ∧ (k ∉ visited (initialState (pickupStop scenarioMember)))
    ∧ eligible (initialState (pickupStop scenarioMember)) s
    ∧ ∀ j t, scenarioStops !! j = Some t →
        j ∉ visited (initialState (pickupStop scenarioMember)) →
        eligible (initialState (pickupStop scenarioMember)) t →
        (gridDistance 0 0 (lat s) (lon s)
         <= gridDistance 0 0 (lat t) (lon t))%Q
        ∧ (j < k →
           (gridDistance 0 0 (lat s) (lon s)
            < gridDistance 0 0 (lat t) (lon t))%Q).
Proof.
  apply (loopBody_takes_nearest gridDistance scenarioStops
           (initialState (pickupStop scenarioMember)) scenarioSecondState
           (pickupStop scenarioMember)).
  - reflexivity.
  - exists 2, (pickupStop scenarioRequest). split; [reflexivity|]. split.
    + cbn. intros Hin. apply elem_of_singleton in Hin. discriminate Hin.
    + intros [Hdrop _]. discriminate Hdrop.
  - vm_compute. reflexivity.
Defined.

(** ** The groups of the batch loop *)

Lemma sum_list_snoc (l : list nat) (x : nat) :
  sum_list (l ++ [x]) = sum_list l + x.
Proof. induction l as [|y l IH]; cbn; [lia|]. rewrite IH. lia. Qed.

Lemma insertByTime_Permutation x sorted : insertByTime x sorted ≡ₚ x :: sorted.
Proof.
  induction sorted as [|y sorted IH]; cbn; [done|].
  destruct (requested_at y <? requested_at x)%Z; [|done].
  rewrite IH. apply Permutation_swap.
Qed.

Lemma sortByTime_Permutation l : sortByTime l ≡ₚ l.
Proof.
  induction l as [|x l IH]; cbn; [done|].
  by rewrite insertByTime_Permutation, IH.
Qed.

Section BatchGroups.
Variable calculateDistance : Q → Q → Q → Q → Q.
Variable config : RidePoolingConfig.

Lemma absorbLoop_spec others : ∀ compatible assigned compatible' assigned',
  absorbLoop calculateDistance config others compatible assigned
    = (compatible', assigned') →
  ∃ added,
    compatible' = compatible ++ added
    ∧ (∀ r, r ∈ added → r ∈ others)
    ∧ NoDup (req_id <$> added)
    ∧ (∀ r, r ∈ added → req_id r ∉ assigned)
    ∧ assigned' = list_to_set (req_id <$> added) ∪ assigned
    ∧ (added ≠ [] → withinCaps config compatible').
Proof.
  induction others as [|other others IH];
    intros compatible assigned compatible' assigned'; cbn.
  { intros [= <- <-]. exists []. rewrite app_nil_r.
    split; [done|]. split; [by intros r Hr%elem_of_nil|].
    split; [constructor|]. split; [by intros r Hr%elem_of_nil|].
    split; [|done]. cbn. by rewrite union_empty_l_L. }
  assert (Hskip :
    absorbLoop calculateDistance config others compatible assigned
      = (compatible', assigned') →
    ∃ added,
      compatible' = compatible ++ added
      ∧ (∀ r, r ∈ added → r ∈ other :: others)
      ∧ NoDup (req_id <$> added)
      ∧ (∀ r, r ∈ added → req_id r ∉ assigned)
      ∧ assigned' = list_to_set (req_id <$> added) ∪ assigned
      ∧ (added ≠ [] → withinCaps config compatible')).
  { intros H. apply IH in H as (added & ? & Hsub & ? & ? & ? & ?).
    exists added. repeat (split; [done|]). split; [|done].
    intros r Hr. right. by apply Hsub. }
  destruct (decide (req_id other ∈ assigned)) as [Hin|Hfresh]; [done|].
  destruct (Z.leb_spec (maxPassengersPerPool config)
              (Z.of_nat (length compatible))) as [Hfull|Hroom].
  { intros [= <- <-]. exists []. rewrite app_nil_r.
    split; [done|]. split; [by intros r Hr%elem_of_nil|].
    split; [constructor|]. split; [by intros r Hr%elem_of_nil|].
    split; [|done]. cbn. by rewrite union_empty_l_L. }
  destruct (checkLocationCompatibility _ _ _ _); [|done].
  destruct (Z.leb_spec
              (foldl (λ sum r, sum + passenger_count r) 0 compatible
               + passenger_count other)
              (maxPassengersPerPool config))%Z as [Hpass|Hpass]; [|done].
  destruct (Z.leb_spec
              (foldl (λ sum r, sum + luggage_count r) 0 compatible
               + luggage_count other)
              (maxLuggageCapacity config))%Z as [Hlug|Hlug]; [|done].
  cbn. intros H.
  apply IH in H as (added & -> & Hsub & Hnd & Hnew & -> & Hcaps).
  exists (other :: added). rewrite <- app_assoc. cbn.
  split; [done|]. split.
  { intros r [->|Hr]%elem_of_cons; [left|right; by apply Hsub]. }
  split.
  { apply NoDup_cons. split; [|done].
    intros (r & Hid & Hr)%list_elem_of_fmap.
    apply (Hnew r Hr). rewrite <- Hid. apply elem_of_union. left.
    by apply elem_of_singleton. }
  split.
  { intros r [->|Hr]%elem_of_cons; [done|].
    intros Hin. apply (Hnew r Hr). apply elem_of_union. by right. }
  split.
  { rewrite !(assoc_L (∪)). f_equal. apply (comm_L (∪)). }
  intros _. destruct added as [|a added].
  - rewrite app_nil_r in *. unfold withinCaps, totalPassengersOf,
      totalLuggageOf.
    rewrite length_app, !foldl_app. cbn. lia.
  - rewrite (cons_middle other), app_assoc. by apply Hcaps.
Qed.

Lemma seedLoop_count MatchResult sortedRequests rest : ∀ st,
  (∀ r, r ∈ rest → r ∈ sortedRequests) →
  let st' := seedLoop calculateDistance config MatchResult sortedRequests
               rest st in
  assigned st ⊆ assigned st'
  ∧ (∀ r, r ∈ rest → req_id r ∈ assigned st')
  ∧ (∀ i, i ∈ assigned st' → i ∈ assigned st
                              ∨ i ∈ req_id <$> sortedRequests)
  ∧ sum_list (createdSizes st') + size (assigned st)
    = sum_list (createdSizes st) + size (assigned st')
  ∧ (Forall (λ n, 1 ≤ n) (createdSizes st) →
     Forall (λ n, 1 ≤ n) (createdSizes st')).
Proof.
  induction rest as [|request rest IH]; intros st Hsub; cbn.
  { split; [done|]. split; [by intros r Hr%elem_of_nil|].
    split; [by left|]. split; [lia|done]. }
  assert (Hsub' : ∀ r, r ∈ rest → r ∈ sortedRequests)
    by (intros r Hr; apply Hsub; by right).
  destruct (decide (req_id request ∈ assigned st)) as [Hin|Hfresh].
  { destruct (IH st Hsub') as (Hmono & Hall & Hfrom & Hsum & Hpos).
    split; [done|]. split; [|done].
    intros r [->|Hr]%elem_of_cons; [by apply Hmono|by apply Hall]. }
  destruct (absorbLoop _ _ _ _ _) as [compatible assigned'] eqn:Habsorb.
  apply absorbLoop_spec in Habsorb
    as (added & -> & Hadded & Hnd & Hnew & -> & _).
  match goal with |- context [seedLoop _ _ _ _ _ ?s] => set (st1 := s) end.
  destruct (IH st1 Hsub') as (Hmono & Hall & Hfrom & Hsum & Hpos).
  cbn in Hmono, Hsum, Hfrom, Hpos.
  assert (Hsize : size (list_to_set (req_id <$> added)
                         ∪ ({[req_id request]} ∪ assigned st) : gset string)
                  = length added + 1 + size (assigned st)).
  { rewrite size_union, size_union, size_singleton, size_list_to_set,
      length_fmap; [lia|done| |].
    - apply elem_of_disjoint. intros i ->%elem_of_singleton. done.
    - apply elem_of_disjoint.
      intros i (r & -> & Hr)%elem_of_list_to_set%list_elem_of_fmap.
      by apply Hnew. }
  split; [|split; [|split; [|split]]].
  - intros i Hi. apply Hmono, elem_of_union. right.
    apply elem_of_union. by right.
  - intros r [->|Hr]%elem_of_cons; [|by apply Hall].
    apply Hmono, elem_of_union. right. apply elem_of_union. left.
    by apply elem_of_singleton.
  - intros i Hi. destruct (Hfrom i Hi) as [Hold|?]; [|by right].
    apply elem_of_union in Hold as [Hnewid|Hold].
    + right. apply elem_of_list_to_set, list_elem_of_fmap in Hnewid
        as (r & -> & Hr).
      apply list_elem_of_fmap. exists r. split; [done|]. by apply Hadded.
    + apply elem_of_union in Hold as [->%elem_of_singleton|?]; [|by left].
      right. apply list_elem_of_fmap. exists request. split; [done|].
      apply Hsub. left.
  - rewrite sum_list_snoc, Hsize in Hsum. cbn in Hsum. lia.
  - intros Hst. apply Hpos. apply Forall_app. split; [done|].
    constructor; [cbn; lia|constructor].
Qed.
End BatchGroups.

(** X9.  Every group the batch loop forms around a seed starts with the
    seed and takes its other members from the unassigned requests, each at
    most once; unless it is the seed alone, it has at most
    [maxPassengersPerPool] members and its passenger and luggage totals are
    within [maxPassengersPerPool] and [maxLuggageCapacity]. *)
Theorem absorbLoop_group_within_caps
    (calculateDistance : Q → Q → Q → Q → Q) (config : RidePoolingConfig)
    (sortedRequests : list RideRequest) (request : RideRequest)
    (assigned : gset string) :
  let group :=
    (absorbLoop calculateDistance config sortedRequests [request]
       ({[req_id request]} ∪ assigned)).1 in
  head group = Some request
  ∧ (∀ r, r ∈ tail group →
       r ∈ sortedRequests ∧ (req_id r ∉ assigned)
       ∧ req_id r ≠ req_id request)
  ∧ NoDup (req_id <$> tail group)
  ∧ (group = [request] ∨ withinCaps config group).
Proof.
  intros group. unfold group.
  destruct (absorbLoop _ _ _ _ _) as [compatible assigned'] eqn:Habsorb.
  apply absorbLoop_spec in Habsorb
    as (added & -> & Hadded & Hnd & Hnew & _ & Hcaps).
  cbn. split; [done|]. split.
  { intros r Hr. split; [by apply Hadded|].
    specialize (Hnew r Hr). split.
    - intros Hin. apply Hnew, elem_of_union. by right.
    - intros Heq. apply Hnew, elem_of_union. left.
      by apply elem_of_singleton. }
  split; [done|].
  destruct added as [|a added]; [by left|]. right. by apply Hcaps.
Qed.

(** X10.  The batch loop puts every request in exactly one group: the
    sizes it logs are all at least 1 and add up to the number of distinct
    request identifiers, which is the number of requests when no
    identifier occurs twice. *)
Theorem batchRun_groups_cover_requests
    (calculateDistance : Q → Q → Q → Q → Q) (config : RidePoolingConfig)
    (MatchResult : Type) (requests : list RideRequest) :
  let sizes :=
    createdSizes (batchRun calculateDistance config MatchResult requests) in
  Forall (λ n, 1 ≤ n) sizes
  ∧ sum_list sizes = size (list_to_set (req_id <$> requests) : gset string)
  ∧ (NoDup (req_id <$> requests) → sum_list sizes = length requests).
Proof.
  intros sizes. unfold sizes, batchRun.
  pose proof (seedLoop_count calculateDistance config MatchResult
                (sortByTime requests) (sortByTime requests)
                {| pools := []; assigned := ∅; createdSizes := [] |}
                (λ r Hr, Hr)) as Hcount.
  cbv zeta in Hcount. cbn [assigned createdSizes] in Hcount.
  destruct Hcount as (_ & Hall & Hfrom & Hsum & Hpos).
  set (final := seedLoop _ _ _ _ _ _) in *.
  assert (Hassigned : assigned final
                      = list_to_set (req_id <$> requests)).
  { apply set_eq. intros i. rewrite elem_of_list_to_set.
    assert (Hperm : req_id <$> sortByTime requests ≡ₚ req_id <$> requests)
      by (by rewrite sortByTime_Permutation).
    rewrite <- Hperm. split.
    - intros Hi. destruct (Hfrom i Hi) as [Hempty|?]; [|done].
      by apply elem_of_empty in Hempty.
    - intros (r & -> & Hr)%list_elem_of_fmap. by apply Hall. }
  assert (Htotal : sum_list (createdSizes final)
                   = size (list_to_set (req_id <$> requests) : gset string)).
  { rewrite size_empty in Hsum. cbn in Hsum. rewrite <- Hassigned. lia. }
  split; [apply Hpos; constructor|]. split; [done|].
  intros Hnd. by rewrite Htotal, size_list_to_set, length_fmap.
Qed.

Lemma batchRun_groups_cover_requests_witness :
  sum_list (createdSizes (batchRun gridDistance defaultConfig
                            (list RideRequest) fiveRequests))
  = length fiveRequests.
Proof.
  apply (batchRun_groups_cover_requests gridDistance defaultConfig
           (list RideRequest) fiveRequests).
  apply (bool_decide_unpack _). vm_compute. exact I.
Defined.

(** ** The pool service on an arbitrary store *)

Lemma filter_nil_not_Exists {A} (P : A → Prop) `{∀ x, Decision (P x)}
    (l : list A) :
  filter P l = [] ↔ ¬ Exists P l.
Proof.
  rewrite Exists_exists. split.
  - intros Hnil (x & Hx & HP).
    assert (x ∈ filter P l) as Hin by (by apply list_elem_of_filter).
    rewrite Hnil in Hin. by apply elem_of_nil in Hin.
  - intros Hno. destruct (filter P l) as [|x rest] eqn:Hf; [done|].
    exfalso. apply Hno. exists x.
    assert (x ∈ filter P l) as Hin by (rewrite Hf; left).
    apply list_elem_of_filter in Hin as [? ?]. done.
Qed.

Lemma recalculatePoolCapacityInternal_total poolId db :
  ∃ db', recalculatePoolCapacityInternal poolId db = Ok (tt, db').
Proof.
  unfold recalculatePoolCapacityInternal, txBind, selectMembersOfPool,
    selectRequestsIn, updatePool.
  destruct (length _ =? 0)%nat; eauto.
Qed.

Section PoolServiceFacts.
Variable calculateDistance : Q → Q → Q → Q → Q.
Variable config : RidePoolingConfig.
Variable demandFactor : Q.

Lemma addMemberToPoolInternal_outcome poolId rid db :
  match requestOf db rid with
  | None =>
    addMemberToPoolInternal calculateDistance config demandFactor
      poolId rid db = Throw "Ride request not found"
  | Some _ =>
    if decide (Exists (λ m, ride_request_id m = rid) (pool_members db))
    then addMemberToPoolInternal calculateDistance config demandFactor
           poolId rid db = Throw "Ride already in a pool"
    else if decide (Exists (λ p, pool_id p = poolId) (ride_pools db))
    then ∃ db', addMemberToPoolInternal calculateDistance config demandFactor
                  poolId rid db = Ok (tt, db')
    else addMemberToPoolInternal calculateDistance config demandFactor
           poolId rid db
         = Throw "insert or update violates foreign key constraint"
  end.
Proof.
  unfold requestOf, addMemberToPoolInternal, txBind, selectRequest,
    selectMembersOfRequest, selectMembersOfPool, txThrow.
  destruct (filter (λ r, req_id r = rid) (ride_requests db))
    as [|ride rest] eqn:Hreq; [done|].
  cbn [head].
  assert (Hex : Exists (λ r, req_id r = rid) (ride_requests db)).
  { apply dec_stable. intros Hno.
    apply (proj2 (filter_nil_not_Exists _ _)) in Hno.
    by rewrite Hno in Hreq. }
  destruct (decide (Exists (λ m, ride_request_id m = rid) (pool_members db)))
    as [Hmem|Hmem].
  - destruct (filter (λ m, ride_request_id m = rid) (pool_members db))
      as [|m ms] eqn:Hf.
    + by apply (proj1 (filter_nil_not_Exists _ _)) in Hf.
    + done.
  - pose proof (proj2 (filter_nil_not_Exists _ _) Hmem) as Hf. rewrite Hf. cbn [length Nat.ltb Nat.leb].
    unfold insertMember. cbn [member_pool_id ride_request_id].
    destruct (decide (Exists (λ p, pool_id p = poolId) (ride_pools db)))
      as [Hpool|Hpool].
    + rewrite decide_True by done.
      rewrite decide_False.
      * unfold updateRequestStatus, txRet. eauto.
      * intros (m & Hm & _ & Hrid)%Exists_exists. apply Hmem.
        apply Exists_exists. eauto.
    + rewrite decide_False; [done|]. by intros [? _].
Qed.

(** X11.  [addMemberToPool] looks at three things only: the request must
    exist, it must not be a member of any pool, and the pool must exist.
    Each failure raises its own error and leaves the store as it was; in
    every other case the member is added, whatever the status of the pool
    and of the request and however full the pool is. *)
Theorem addMemberToPool_outcome poolId rid db :
  match requestOf db rid with
  | None =>
    addMemberToPool calculateDistance config demandFactor poolId rid db
    = (Throw "Ride request not found", db)
  | Some _ =>
    if decide (Exists (λ m, ride_request_id m = rid) (pool_members db))
    then addMemberToPool calculateDistance config demandFactor poolId rid db
         = (Throw "Ride already in a pool", db)
    else if decide (Exists (λ p, pool_id p = poolId) (ride_pools db))
    then ∃ db', addMemberToPool calculateDistance config demandFactor
                  poolId rid db = (Ok tt, db')
    else addMemberToPool calculateDistance config demandFactor poolId rid db
         = (Throw "insert or update violates foreign key constraint", db)
  end.
Proof.
  pose proof (addMemberToPoolInternal_outcome poolId rid db) as Hint.
  unfold addMemberToPool, transaction, txBind.
  destruct (requestOf db rid); [|by rewrite Hint].
  destruct (decide _); [by rewrite Hint|].
  destruct (decide _); [|by rewrite Hint].
  destruct Hint as [db1 ->].
  destruct (recalculatePoolCapacityInternal_total poolId db1) as [db2 ->].
  eauto.
Qed.
End PoolServiceFacts.

Lemma sumZ_app l1 l2 : sumZ (l1 ++ l2) = (sumZ l1 + sumZ l2)%Z.
Proof.
  induction l1 as [|x l1 IH]; [done|].
  cbn [app]. rewrite !sumZ_cons, IH. lia.
Qed.

Lemma setPoolCounts_same p :
  setPoolCounts (current_passenger_count p) (current_luggage_count p) p = p.
Proof. by destruct p. Qed.

(** The recalculation writes the sums over the members into the rows of the
    pool and changes nothing else. *)
Lemma recalculate_pools poolId db db' :
  keysUnique db →
  recalculatePoolCapacityInternal poolId db = Ok (tt, db') →
  ride_requests db' = ride_requests db
  ∧ pool_members db' = pool_members db
  ∧ ride_pools db'
    = (λ p, if decide (pool_id p = poolId)
            then setPoolCounts (sumOverMembers passenger_count db poolId)
                   (sumOverMembers luggage_count db poolId) p
            else p) <$> ride_pools db.
Proof.
  intros [Hreq Hmem].
  pose proof (members_of_pool_NoDup _ poolId Hmem) as Hids.
  assert (Hsum : ∀ f,
    foldl (λ sum r, sum + f r)%Z 0%Z
      (filter (λ r, req_id r ∈ ride_request_id
                      <$> filter (λ m, member_pool_id m = poolId)
                            (pool_members db)) (ride_requests db))
    = sumOverMembers f db poolId).
  { intros f. rewrite foldl_sumZ, sumOverMembers_alt, Z.add_0_l.
    by apply recalculated_sum. }
  unfold recalculatePoolCapacityInternal, txBind, selectMembersOfPool,
    selectRequestsIn, updatePool.
  destruct (length _ =? 0)%nat eqn:Hempty.
  - intros [= <-]. cbn. split; [done|]. split; [done|].
    apply Nat.eqb_eq in Hempty. rewrite length_fmap in Hempty.
    apply nil_length_inv in Hempty.
    unfold sumOverMembers. by rewrite Hempty.
  - intros [= <-]. cbn. split; [done|]. split; [done|].
    by rewrite !Hsum.
Qed.

Lemma NoDup_fmap_filter {A B} (f : A → B) (P : A → Prop)
    `{∀ x, Decision (P x)} (l : list A) :
  NoDup (f <$> l) → NoDup (f <$> filter P l).
Proof.
  induction l as [|x l IH]; [done|].
  rewrite fmap_cons. intros [Hfresh Hnd]%NoDup_cons. rewrite filter_cons.
  destruct (decide (P x)); [|by apply IH].
  rewrite fmap_cons. apply NoDup_cons. split; [|by apply IH].
  intros (y & Hy & Hin)%list_elem_of_fmap.
  apply list_elem_of_filter in Hin as [_ Hin].
  apply Hfresh, list_elem_of_fmap. by exists y.
Qed.

Section MembershipFacts.
Variable calculateDistance : Q → Q → Q → Q → Q.
Variable config : RidePoolingConfig.
Variable demandFactor : Q.

(** What a successful [addMemberToPoolInternal] found and did. *)
Lemma addMemberToPoolInternal_effect poolId rid db db1 :
  addMemberToPoolInternal calculateDistance config demandFactor poolId rid db
    = Ok (tt, db1) →
  ∃ ride,
    requestOf db rid = Some ride
    ∧ ¬ Exists (λ m, ride_request_id m = rid) (pool_members db)
    ∧ Exists (λ p, pool_id p = poolId) (ride_pools db)
    ∧ ride_pools db1 = ride_pools db
    ∧ ride_requests db1
      = (λ r, if decide (req_id r = rid) then setRequestStatus matched r
              else r) <$> ride_requests db
    ∧ pool_members db1
      = pool_members db
        ++ [{| member_pool_id := poolId;
               ride_request_id := rid;
               pickup_sequence := memberCountOf poolId (pool_members db) + 1;
               dropoff_sequence :=
                 (memberCountOf poolId (pool_members db) + 1) * 2;
               detour_distance_km := 0;
               price :=
                 final_price
                   (calculatePrice calculateDistance config demandFactor ride
                      (0 <? memberCountOf poolId (pool_members db))%Z
                      (memberCountOf poolId (pool_members db) + 1)) |}].
Proof.
  unfold requestOf, addMemberToPoolInternal, txBind, selectRequest,
    selectMembersOfRequest, selectMembersOfPool, txThrow, txRet.
  destruct (filter _ (ride_requests db)) as [|ride rows]; [done|].
  destruct (filter (λ m, ride_request_id m = rid) (pool_members db))
    as [|m ms] eqn:Hf; [|done].
  cbn [length Nat.ltb Nat.leb].
  unfold insertMember. cbn [member_pool_id ride_request_id].
  destruct (decide (Exists _ _ ∧ Exists _ _)) as [[Hpool _]|]; [|done].
  destruct (decide (Exists _ (pool_members db))); [done|].
  cbn. intros [= <-]. exists ride. cbn.
  split; [done|].
  split; [by apply (proj1 (filter_nil_not_Exists _ _))|]. done.
Qed.

Lemma sumOverMembers_joined f poolId rid ride db db1 :
  (∀ r s, f (setRequestStatus s r) = f r) →
  addMemberToPoolInternal calculateDistance config demandFactor poolId rid db
    = Ok (tt, db1) →
  requestOf db rid = Some ride →
  sumOverMembers f db1 poolId = (sumOverMembers f db poolId + f ride)%Z.
Proof.
  intros Hf Hadd Hride.
  apply addMemberToPoolInternal_effect in Hadd
    as (ride' & Hride' & _ & _ & _ & Hreq & Hmem).
  assert (ride' = ride) as -> by congruence.
  assert (Hsame : ∀ i,
    from_option f 0%Z (requestOf db1 i) = from_option f 0%Z (requestOf db i)).
  { intros i. unfold requestOf. rewrite Hreq.
    rewrite head_filter_fmap by (intros r; by destruct decide).
    destruct (head _) as [r|]; [|done]. cbn. destruct decide; [apply Hf|done]. }
  rewrite !sumOverMembers_alt, Hmem, filter_app, filter_cons_True by done.
  rewrite filter_nil, !fmap_app, sumZ_app. cbn [fmap list_fmap ride_request_id].
  rewrite sumZ_cons, Hsame, Hride. cbn [from_option].
  replace (sumZ []) with 0%Z by done.
  rewrite Z.add_0_r. f_equal. f_equal.
  apply list_fmap_ext. intros _ i _. apply Hsame.
Qed.

(** X12.  Joining a pool never looks at its capacity: on a store whose
    counters are right, a successful [addMemberToPool] adds the request's
    passengers and luggage to the counters of the pool and leaves
    [max_passengers], [max_luggage], the status and every other pool as
    they were, so a full pool ends above its maximum. *)
Theorem addMemberToPool_ignores_capacity poolId rid db db' ride :
  storeInv db →
  requestOf db rid = Some ride →
  addMemberToPool calculateDistance config demandFactor poolId rid db
    = (Ok tt, db') →
  ride_pools db'
  = (λ p, if decide (pool_id p = poolId)
          then setPoolCounts
                 (current_passenger_count p + passenger_count ride)
                 (current_luggage_count p + luggage_count ride) p
          else p) <$> ride_pools db.
Proof.
  intros [Hkeys Hcons] Hride. unfold addMemberToPool, transaction, txBind.
  destruct (addMemberToPoolInternal _ _ _ _ _ db) as [[[] db1]| |] eqn:E;
    [|done..].
  destruct (recalculatePoolCapacityInternal _ db1) as [[[] db2]| |] eqn:R;
    [|done..].
  intros [= <-].
  pose proof (addMemberToPoolInternal_touches _ _ _ _ _ _ _ E)
    as (Hpools & _ & _ & _ & Hk1).
  destruct (recalculate_pools _ _ _ (Hk1 Hkeys) R) as (_ & _ & ->).
  rewrite Hpools.
  rewrite (sumOverMembers_joined passenger_count _ _ _ _ _
             (λ _ _, eq_refl) E Hride).
  rewrite (sumOverMembers_joined luggage_count _ _ _ _ _
             (λ _ _, eq_refl) E Hride).
  apply list_fmap_ext. intros i p Hp.
  destruct (decide (pool_id p = poolId)) as [<-|]; [|done].
  unfold countersConsistent in Hcons.
  rewrite Forall_lookup in Hcons. destruct (Hcons i p Hp) as [-> ->]. done.
Qed.

Lemma addMemberToPoolInternal_atMostOnePool poolId rid db db1 :
  addMemberToPoolInternal calculateDistance config demandFactor poolId rid db
    = Ok (tt, db1) →
  atMostOnePool db → atMostOnePool db1.
Proof.
  intros (ride & _ & Hfresh & _ & _ & _ & Hmem)%addMemberToPoolInternal_effect.
  unfold atMostOnePool. rewrite Hmem, fmap_app. intros Hnd.
  apply NoDup_app. split; [done|]. split; [|apply NoDup_singleton].
  intros i (m & -> & Hm)%list_elem_of_fmap Hin.
  apply list_elem_of_singleton in Hin. cbn in Hin.
  apply Hfresh, Exists_exists. eauto.
Qed.

Lemma addMembers_atMostOnePool poolId rids : ∀ db db1,
  addMembers calculateDistance config demandFactor poolId rids db
    = Ok (tt, db1) →
  atMostOnePool db → atMostOnePool db1.
Proof.
  induction rids as [|rid rids IH]; intros db db1; cbn.
  - by intros [= <-].
  - unfold txBind at 1.
    destruct (addMemberToPoolInternal _ _ _ _ _ db) as [[[] db0]| |] eqn:E;
      [|done..].
    intros Hrest Hone. eapply IH; [done|].
    by eapply addMemberToPoolInternal_atMostOnePool.
Qed.

Lemma recalculate_atMostOnePool poolId db db' :
  recalculatePoolCapacityInternal poolId db = Ok (tt, db') →
  atMostOnePool db → atMostOnePool db'.
Proof.
  intros [Hmem _]%recalculatePoolCapacityInternal_members.
  unfold atMostOnePool. by rewrite Hmem.
Qed.

(** X13.  A request is a member of at most one pool, and no operation of
    the two services breaks this: whatever the arguments and whether the
    operation commits or rolls back, the store it leaves has at most one
    membership row for every request. *)
Theorem membership_stays_unique db :
  atMostOnePool db →
  (∀ poolId rid,
     atMostOnePool
       (addMemberToPool calculateDistance config demandFactor
          poolId rid db).2)
  ∧ (∀ newPoolId poolCode rids,
       atMostOnePool
         (createPool calculateDistance config demandFactor
            newPoolId poolCode rids db).2)
  ∧ (∀ poolId rid, atMostOnePool (removeMemberFromPool poolId rid db).2)
  ∧ (∀ rid, atMostOnePool (cancelRideRequest rid db).2).
Proof.
  intros Hone. split; [|split; [|split]].
  - intros poolId rid. unfold addMemberToPool, transaction, txBind.
    destruct (addMemberToPoolInternal _ _ _ _ _ db) as [[[] db1]| |] eqn:E;
      [|done..].
    destruct (recalculatePoolCapacityInternal _ db1) as [[[] db2]| |] eqn:R;
      [|done..].
    cbn. eapply recalculate_atMostOnePool; [done|].
    by eapply addMemberToPoolInternal_atMostOnePool.
  - intros newPoolId poolCode rids.
    unfold createPool, transaction, txBind at 1 2 3.
    unfold insertPool at 1.
    destruct (decide (Exists _ (ride_pools db))); [done|].
    cbn [pool_id].
    destruct (addMembers _ _ _ _ _ _) as [[[] db1]| |] eqn:E; [|done..].
    destruct (recalculatePoolCapacityInternal _ db1) as [[[] db2]| |] eqn:R;
      [|done..].
    cbn. eapply recalculate_atMostOnePool; [done|].
    eapply addMembers_atMostOnePool; [done|]. done.
  - intros poolId rid.
    unfold removeMemberFromPool, transaction, txBind at 1 2.
    unfold deleteMembers at 1.
    destruct (recalculatePoolCapacityInternal _ _) as [[[] db2]| |] eqn:R;
      [|done..].
    assert (Hone2 : atMostOnePool db2).
    { eapply recalculate_atMostOnePool; [done|].
      unfold atMostOnePool. cbn. by apply NoDup_fmap_filter. }
    unfold txBind, selectMembersOfPool, updatePool, txRet.
    by destruct (length _ =? 0)%nat.
  - intros rid. unfold cancelRideRequest, transaction, txBind at 1.
    unfold selectRequest at 1.
    destruct (filter _ (ride_requests db)) as [|rideRequest rows]; [done|].
    destruct (decide (status rideRequest = cancelled)); [done|].
    destruct (decide (status rideRequest = completed)); [done|].
    unfold txBind at 1. unfold updateRequestStatus at 1.
    destruct (filter _ _) as [|updatedRequest rows']; [done|].
    destruct (decide (status rideRequest = matched)); [|done].
    unfold txBind, deleteMembers, selectMembersOfRequest, txRet.
    cbn [pool_members].
    destruct (filter (λ m, ride_request_id m = rid) _) as [|row rest] eqn:Hf.
    + cbn. unfold atMostOnePool. cbn. by apply NoDup_fmap_filter.
    + destruct (recalculatePoolCapacityInternal _ _) as [[[] db2]| |] eqn:R;
        [|done..].
      cbn. eapply recalculate_atMostOnePool; [done|].
      unfold atMostOnePool. cbn. by apply NoDup_fmap_filter.
Qed.
End MembershipFacts.

Lemma storeInv_fullPoolDb : storeInv fullPoolDb.
Proof.
  split; [split; apply (bool_decide_unpack _); vm_compute; exact I|].
  repeat constructor.
Qed.

Lemma addMemberToPool_ignores_capacity_witness :
  ride_pools overfullDb
  = (λ p, if decide (pool_id p = "p-1")
          then setPoolCounts
                 (current_passenger_count p + passenger_count rideD)
                 (current_luggage_count p + luggage_count rideD) p
          else p) <$> ride_pools fullPoolDb.
Proof.
  apply (addMemberToPool_ignores_capacity gridDistance defaultConfig 0
           "p-1" "r-d" fullPoolDb overfullDb rideD).
  - exact storeInv_fullPoolDb.
  - vm_compute. reflexivity.
  - vm_compute. reflexivity.
Defined.

Lemma membership_stays_unique_witness :
  atMostOnePool
    (addMemberToPool gridDistance defaultConfig 0 "p-1" "r-c" poolDb).2.
Proof.
  apply (membership_stays_unique gridDistance defaultConfig 0 poolDb).
  apply (bool_decide_unpack _). vm_compute. exact I.
Defined.

(** The recalculation always succeeds and rewrites only the two counters
    of the rows of the pool. *)
Lemma recalculate_shape poolId db :
  ∃ passengers luggage,
    recalculatePoolCapacityInternal poolId db
    = Ok (tt, {| ride_requests := ride_requests db;
                 ride_pools :=
                   (λ p, if decide (pool_id p = poolId)
                         then setPoolCounts passengers luggage p else p)
                     <$> ride_pools db;
                 pool_members := pool_members db |}).
Proof.
  unfold recalculatePoolCapacityInternal, txBind, selectMembersOfPool,
    selectRequestsIn, updatePool.
  destruct (length _ =? 0)%nat; eauto.
Qed.

(** X14.  [removeMemberFromPool] never fails, whether or not the pool
    exists and the request is a member of it.  It deletes the rows of that
    request in that pool, leaves [ride_requests] alone (the removed request
    keeps its status), rewrites the counters of the pool and sets the pool
    to 'cancelled', whatever its status was, exactly when no member is
    left. *)
Theorem removeMemberFromPool_outcome poolId rid db :
  ∃ db' passengers luggage,
    removeMemberFromPool poolId rid db = (Ok tt, db')
    ∧ ride_requests db' = ride_requests db
    ∧ pool_members db'
      = filter (λ m, ¬ (member_pool_id m = poolId ∧ ride_request_id m = rid))
          (pool_members db)
    ∧ ride_pools db'
      = (λ p, if decide (pool_id p = poolId)
              then if decide (memberCountOf poolId (pool_members db') = 0%Z)
                   then setPoolStatus pool_cancelled
                          (setPoolCounts passengers luggage p)
                   else setPoolCounts passengers luggage p
              else p) <$> ride_pools db.
Proof.
  unfold removeMemberFromPool, transaction, txBind at 1 2.
  unfold deleteMembers at 1.
  match goal with
  | |- context [recalculatePoolCapacityInternal poolId ?d] =>
    destruct (recalculate_shape poolId d) as (passengers & luggage & ->)
  end.
  cbn [ride_requests ride_pools pool_members].
  unfold txBind, selectMembersOfPool, updatePool, txRet.
  cbn [ride_requests ride_pools pool_members].
  destruct (length _ =? 0)%nat eqn:Hempty.
  - eexists _, passengers, luggage. split; [done|]. cbn.
    split; [done|]. split; [done|].
    rewrite <- list_fmap_compose. apply list_fmap_ext. intros _ p _. cbn.
    apply Nat.eqb_eq in Hempty.
    destruct (decide (pool_id p = poolId)) as [Hp|Hp].
    + rewrite decide_True by done.
      rewrite decide_True; [done|]. unfold memberCountOf. by rewrite Hempty.
    + by rewrite decide_False.
  - eexists _, passengers, luggage. split; [done|]. cbn.
    split; [done|]. split; [done|].
    apply list_fmap_ext. intros _ p _.
    apply Nat.eqb_neq in Hempty.
    destruct (decide (pool_id p = poolId)) as [Hp|Hp]; [|done].
    rewrite decide_False; [done|]. unfold memberCountOf. lia.
Qed.

Lemma filter_all {A} (P : A → Prop) `{∀ x, Decision (P x)} (l : list A) :
  (∀ x, x ∈ l → P x) → filter P l = l.
Proof.
  induction l as [|x l IH]; [done|]. intros Hall.
  rewrite filter_cons_True by (apply Hall; left).
  f_equal. apply IH. intros y Hy. apply Hall. by right.
Qed.

Lemma filter_none {A} (P : A → Prop) `{∀ x, Decision (P x)} (l : list A) :
  (∀ x, x ∈ l → ¬ P x) → filter P l = [].
Proof.
  induction l as [|x l IH]; [done|]. intros Hall.
  rewrite filter_cons_False by (apply Hall; left).
  apply IH. intros y Hy. apply Hall. by right.
Qed.

Section RoundTrip.
Variable calculateDistance : Q → Q → Q → Q → Q.
Variable config : RidePoolingConfig.
Variable demandFactor : Q.

(** X15.  Removing a member right after it was added is not an undo.  On a
    store whose counters are right it restores the membership rows and
    every counter, but the request stays 'matched' with no pool, and a pool
    that had no other member is now 'cancelled'. *)
Theorem add_then_remove_is_no_undo poolId rid db db1 :
  storeInv db →
  addMemberToPool calculateDistance config demandFactor poolId rid db
    = (Ok tt, db1) →
  ∃ db2,
    removeMemberFromPool poolId rid db1 = (Ok tt, db2)
    ∧ pool_members db2 = pool_members db
    ∧ ride_pools db2
      = (λ p, if decide (pool_id p = poolId
                         ∧ memberCountOf poolId (pool_members db) = 0%Z)
              then setPoolStatus pool_cancelled p else p) <$> ride_pools db
    ∧ status <$> requestOf db2 rid = Some matched.
Proof.
  intros [Hkeys Hcons]. unfold addMemberToPool, transaction, txBind.
  destruct (addMemberToPoolInternal _ _ _ _ _ db) as [[[] db0]| |] eqn:E;
    [|done..].
  destruct (recalculatePoolCapacityInternal _ db0) as [[[] db1']| |] eqn:R;
    [|done..].
  intros [= <-].
  pose proof (addMemberToPoolInternal_touches _ _ _ _ _ _ _ E)
    as (_ & _ & Hpc & Hlc & Hk0).
  specialize (Hk0 Hkeys).
  pose proof E as (ride & Hride & Hfresh & _ & Hpools0 & Hreq0 & Hmem0)
    %addMemberToPoolInternal_effect.
  destruct (recalculate_pools _ _ _ Hk0 R) as (Hreq1 & Hmem1 & Hpools1).
  destruct (removeMemberFromPool_outcome poolId rid db1')
    as (db2 & passengers & luggage & Hrem & Hreq2 & Hmem2 & Hpools2).
  assert (Hback : pool_members db2 = pool_members db).
  { rewrite Hmem2, Hmem1, Hmem0, filter_app, filter_cons_False, filter_nil.
    - rewrite app_nil_r. apply filter_all. intros m Hm [_ Hrid].
      apply Hfresh, Exists_exists. eauto.
    - cbn. intros Hno. by apply Hno. }
  exists db2. split; [done|]. split; [done|]. split.
  - (* the counters the removal wrote are those of the store before *)
    revert Hrem. unfold removeMemberFromPool, transaction, txBind at 1 2.
    unfold deleteMembers at 1.
    set (dbX := {| ride_requests := ride_requests db1';
                   ride_pools := ride_pools db1';
                   pool_members := _ |}).
    assert (HmemX : pool_members dbX = pool_members db)
      by (cbn; by rewrite <- Hmem2).
    assert (HkX : keysUnique dbX).
    { destruct Hk0 as [Hr0 _], Hkeys as [_ Hm]. split.
      - cbn. by rewrite Hreq1.
      - by rewrite HmemX. }
    destruct (recalculatePoolCapacityInternal poolId dbX)
      as [[[] dbY]| |] eqn:RX;
      [|by destruct (recalculatePoolCapacityInternal_total poolId dbX)
           as [? Htot]; rewrite Htot in RX..].
    destruct (recalculate_pools _ _ _ HkX RX) as (HreqY & HmemY & HpoolsY).
    assert (Hsums : ∀ f, (∀ r s, f (setRequestStatus s r) = f r) →
      sumOverMembers f dbX poolId = sumOverMembers f db poolId).
    { intros f Hf. apply sumOverMembers_ext; [by rewrite HmemX|].
      intros i. unfold requestOf. cbn [ride_requests dbX].
      rewrite Hreq1, Hreq0.
      rewrite head_filter_fmap by (intros r; by destruct (decide (req_id r = rid))).
      destruct (head _) as [r|]; [|done]. cbn. f_equal.
      destruct (decide (req_id r = rid)); [apply Hf|done]. }
    rewrite !Hsums in HpoolsY by done.
    unfold txBind, selectMembersOfPool, updatePool, txRet.
    rewrite HmemY, HmemX.
    assert (Hrestored : ride_pools dbY = ride_pools db).
    { rewrite HpoolsY. cbn [ride_pools dbX]. rewrite Hpools1, Hpools0.
      rewrite <- list_fmap_compose.
      transitivity (id <$> ride_pools db); [|apply list_fmap_id].
      apply list_fmap_ext. intros i p Hp. cbn.
      unfold countersConsistent in Hcons. rewrite Forall_lookup in Hcons.
      destruct (Hcons i p Hp) as [Hc1 Hc2].
      destruct (decide (pool_id p = poolId)) as [Hid|Hid].
      - cbn. rewrite decide_True by done. subst poolId.
        rewrite <- Hc1, <- Hc2. by destruct p.
      - by rewrite decide_False. }
    destruct (length _ =? 0)%nat eqn:Hempty; intros [= <-]; cbn.
    + rewrite Hrestored. apply list_fmap_ext. intros _ p _.
      apply Nat.eqb_eq in Hempty.
      destruct (decide (pool_id p = poolId)) as [Hid|Hid].
      * rewrite decide_True; [done|]. split; [done|].
        unfold memberCountOf. by rewrite Hempty.
      * rewrite decide_False; [done|]. by intros [? _].
    + rewrite Hrestored.
      transitivity (id <$> ride_pools db); [by rewrite list_fmap_id|].
      apply list_fmap_ext. intros _ p _. cbn.
      apply Nat.eqb_neq in Hempty.
      rewrite decide_False; [done|]. intros [_ Hzero].
      unfold memberCountOf in Hzero. lia.
  - unfold requestOf. rewrite Hreq2, Hreq1, Hreq0.
    rewrite head_filter_fmap by (intros r; by destruct (decide (req_id r = rid))).
    unfold requestOf in Hride. rewrite Hride. cbn.
    assert (req_id ride = rid) as Hid.
    { apply head_Some_elem_of in Hride.
      by apply list_elem_of_filter in Hride as [? _]. }
    by rewrite decide_True.
Qed.
End RoundTrip.

Lemma add_then_remove_is_no_undo_witness :
  ∃ db2,
    removeMemberFromPool "p-1" "r-c" joinedDb = (Ok tt, db2)
    ∧ pool_members db2 = pool_members poolDb
    ∧ ride_pools db2
      = (λ p, if decide (pool_id p = "p-1"
                         ∧ memberCountOf "p-1" (pool_members poolDb) = 0%Z)
              then setPoolStatus pool_cancelled p else p) <$> ride_pools poolDb
    ∧ status <$> requestOf db2 "r-c" = Some matched.
Proof.
  apply (add_then_remove_is_no_undo gridDistance defaultConfig 0
           "p-1" "r-c" poolDb joinedDb).
  - split; [split; apply (bool_decide_unpack _); vm_compute; exact I|].
    repeat constructor.
  - vm_compute. reflexivity.
Defined.

(** ** Cancellation and status updates on an arbitrary store *)

Lemma requestOf_filter db rid r :
  requestOf db rid = Some r →
  req_id r = rid
  ∧ ∃ rows, filter (λ x, req_id x = rid) (ride_requests db) = r :: rows.
Proof.
  unfold requestOf.
  destruct (filter _ (ride_requests db)) as [|x rows] eqn:Hf; [done|].
  intros [= ->]. split; [|by exists rows].
  assert (Hin : r ∈ filter (λ x, req_id x = rid) (ride_requests db))
    by (rewrite Hf; left).
  by apply list_elem_of_filter in Hin as [? _].
Qed.

Lemma requestOf_updated db rid s r :
  requestOf db rid = Some r →
  ∃ rows,
    filter (λ x, req_id x = rid)
      ((λ x, if decide (req_id x = rid) then setRequestStatus s x else x)
         <$> ride_requests db)
    = setRequestStatus s r :: rows.
Proof.
  intros Hr. pose proof (requestOf_filter _ _ _ Hr) as [Hid _].
  pose proof (head_filter_fmap
                (λ x, if decide (req_id x = rid) then setRequestStatus s x
                      else x) rid (ride_requests db)) as Hhead.
  cbn beta in Hhead. unfold requestOf in Hr. rewrite Hr in Hhead.
  cbn in Hhead. rewrite decide_True in Hhead by done.
  destruct (filter _ (_ <$> ride_requests db)) as [|x rows].
  - discriminate Hhead; intros x; by destruct (decide (req_id x = rid)).
  - exists rows. f_equal.
    assert (head (x :: rows) = Some (setRequestStatus s r)) as [= ->]; [|done].
    apply Hhead. intros y. by destruct (decide (req_id y = rid)).
Qed.

(** X16.  Cancelling a request that is neither cancelled nor completed
    succeeds and returns the row with status 'cancelled'.  It never writes
    to [ride_pools].  The membership rows of the request are deleted only
    if its status was exactly 'matched': a request that was moved on to
    'confirmed' or 'in_progress' stays a member of its pool after it is
    cancelled.  A second cancellation is rejected and changes nothing. *)
Theorem cancelRideRequest_effect rid db r :
  requestOf db rid = Some r →
  status r ≠ cancelled →
  status r ≠ completed →
  ∃ db',
    cancelRideRequest rid db = (Ok (setRequestStatus cancelled r), db')
    ∧ ride_pools db' = ride_pools db
    ∧ ride_requests db'
      = (λ x, if decide (req_id x = rid) then setRequestStatus cancelled x
              else x) <$> ride_requests db
    ∧ pool_members db'
      = (if decide (status r = matched)
         then filter (λ m, ride_request_id m ≠ rid) (pool_members db)
         else pool_members db)
    ∧ cancelRideRequest rid db'
      = (Throw "Ride request already cancelled", db').
Proof.
  intros Hr Hnc Hnd.
  destruct (requestOf_filter _ _ _ Hr) as (Hid & rows & Hrows).
  destruct (requestOf_updated db rid cancelled r Hr) as (rows' & Hrows').
  assert (Hagain : ∀ members,
    cancelRideRequest rid
      {| ride_requests :=
           (λ x, if decide (req_id x = rid) then setRequestStatus cancelled x
                 else x) <$> ride_requests db;
         ride_pools := ride_pools db;
         pool_members := members |}
    = (Throw "Ride request already cancelled",
       {| ride_requests :=
            (λ x, if decide (req_id x = rid) then setRequestStatus cancelled x
                  else x) <$> ride_requests db;
          ride_pools := ride_pools db;
          pool_members := members |})).
  { intros members. unfold cancelRideRequest, transaction, txBind at 1.
    unfold selectRequest at 1. cbn [ride_requests]. rewrite Hrows'.
    by rewrite decide_True. }
  unfold cancelRideRequest at 1. unfold transaction, txBind at 1.
  unfold selectRequest at 1. rewrite Hrows.
  rewrite decide_False by done. rewrite decide_False by done.
  unfold txBind at 1. unfold updateRequestStatus at 1. rewrite Hrows'.
  destruct (decide (status r = matched)) as [Hm|Hm].
  - unfold txBind, deleteMembers, selectMembersOfRequest, txRet.
    cbn [pool_members].
    rewrite (filter_none (λ m, ride_request_id m = rid)).
    + eexists. split; [done|]. cbn.
      split; [done|]. split; [done|]. split; [done|]. apply Hagain.
    + intros m Hin. by apply list_elem_of_filter in Hin as [? _].
  - unfold txBind, txRet. eexists. split; [done|]. cbn.
    split; [done|]. split; [done|]. split; [done|]. apply Hagain.
Qed.

Lemma cancelRideRequest_effect_witness :
  ∃ db',
    cancelRideRequest "r-a" poolDb
    = (Ok (setRequestStatus cancelled (setRequestStatus matched rideA)), db')
    ∧ ride_pools db' = ride_pools poolDb
    ∧ ride_requests db'
      = (λ x, if decide (req_id x = "r-a") then setRequestStatus cancelled x
              else x) <$> ride_requests poolDb
    ∧ pool_members db'
      = (if decide (status (setRequestStatus matched rideA) = matched)
         then filter (λ m, ride_request_id m ≠ "r-a") (pool_members poolDb)
         else pool_members poolDb)
    ∧ cancelRideRequest "r-a" db'
      = (Throw "Ride request already cancelled", db').
Proof.
  apply (cancelRideRequest_effect "r-a" poolDb
           (setRequestStatus matched rideA)).
  - vm_compute. reflexivity.
  - discriminate.
  - discriminate.
Defined.

Lemma fmap_unchanged {A} (g : A → A) (l : list A) :
  (∀ x, x ∈ l → g x = x) → g <$> l = l.
Proof.
  intros Hg. induction l as [|x l IH]; [done|].
  rewrite fmap_cons, Hg by left. f_equal. apply IH.
  intros y Hy. apply Hg. by right.
Qed.

(** X17.  [updateRideStatus] accepts any target status from any current
    status: it fails only when the request does not exist, and then the
    store is as before.  Otherwise it returns the row with the new status,
    which is what a later read of the request finds; no other request, no
    pool and no membership row changes. *)
Theorem updateRideStatus_outcome rid s db :
  match requestOf db rid with
  | None => updateRideStatus rid s db = (Throw "Ride request not found", db)
  | Some r =>
    ∃ db',
      updateRideStatus rid s db = (Ok (setRequestStatus s r), db')
      ∧ (getRideRequest None rid db').1 = Some (setRequestStatus s r)
      ∧ (∀ other, other ≠ rid → requestOf db' other = requestOf db other)
      ∧ ride_pools db' = ride_pools db
      ∧ pool_members db' = pool_members db
  end.
Proof.
  destruct (requestOf db rid) as [r|] eqn:Hr.
  - destruct (requestOf_updated db rid s r Hr) as (rows' & Hrows').
    unfold updateRideStatus, updateRequestStatus. rewrite Hrows'.
    eexists. split; [done|]. cbn [ride_requests ride_pools pool_members].
    split; [|split; [|done]].
    + unfold getRideRequest. cbn [ride_requests]. by rewrite Hrows'.
    + intros other Hne. unfold requestOf. cbn [ride_requests].
      rewrite head_filter_fmap
        by (intros x; by destruct (decide (req_id x = rid))).
      destruct (filter _ (ride_requests db)) as [|x rows] eqn:Hf; [done|].
      cbn. rewrite decide_False; [done|].
      assert (Hin : x ∈ filter (λ r, req_id r = other) (ride_requests db))
        by (rewrite Hf; left).
      apply list_elem_of_filter in Hin as [? _]. congruence.
  - unfold updateRideStatus, updateRequestStatus.
    assert (Hnone : ∀ x, x ∈ ride_requests db → req_id x ≠ rid).
    { intros x Hx Hid. unfold requestOf in Hr.
      assert (Hin : x ∈ filter (λ r, req_id r = rid) (ride_requests db))
        by (by apply list_elem_of_filter).
      destruct (filter _ (ride_requests db)); [|done].
      by apply elem_of_nil in Hin. }
    rewrite (fmap_unchanged _ (ride_requests db))
      by (intros x Hx; rewrite decide_False; [done|by apply Hnone]).
    rewrite (filter_none (λ r, req_id r = rid)) by done.
    by destruct db.
Qed.

(** ** Matching a new request *)

Section TriggerMatching.
Variable calculateDistance : Q → Q → Q → Q → Q.
Variable config : RidePoolingConfig.
Variable demandFactor : Q.

(** What [createPool] leaves when it is called for a single request. *)
Lemma createPool_single newPoolId poolCode rid db res db' :
  createPool calculateDistance config demandFactor newPoolId poolCode [rid] db
    = (res, db') →
  ((∃ e, res = Throw e) ∧ db' = db)
  ∨ ∃ passengers luggage row,
      res = Ok (openedRow config newPoolId poolCode)
      ∧ ride_pools db'
        = ride_pools db
          ++ [setPoolCounts passengers luggage
                (openedRow config newPoolId poolCode)]
      ∧ pool_members db' = pool_members db ++ [row]
      ∧ member_pool_id row = newPoolId
      ∧ ride_request_id row = rid
      ∧ ride_requests db'
        = (λ r, if decide (req_id r = rid) then setRequestStatus matched r
                else r) <$> ride_requests db.
Proof.
  unfold createPool, transaction, txBind at 1 2 3.
  unfold insertPool at 1.
  fold (openedRow config newPoolId poolCode).
  destruct (decide (Exists _ (ride_pools db))) as [|Hfresh].
  { intros [= <- <-]. left. split; [by eexists|done]. }
  cbn [pool_id addMembers openedRow]. unfold txBind at 1.
  fold (openedRow config newPoolId poolCode).
  destruct (addMemberToPoolInternal calculateDistance config demandFactor
              newPoolId rid _) as [[[] db1]|e|] eqn:E.
  - apply addMemberToPoolInternal_effect in E
      as (ride & _ & _ & _ & Hpools & Hreq & Hmem).
    cbn [ride_pools pool_members ride_requests] in Hpools, Hreq, Hmem.
    unfold txRet at 1.
    destruct (recalculate_shape newPoolId db1) as (passengers & luggage & ->).
    unfold txRet. intros [= <- <-]. right.
    eexists passengers, luggage, _. cbn [ride_pools pool_members ride_requests].
    split; [done|]. split; [|split; [exact Hmem|done]].
    rewrite Hpools, fmap_app. cbn [fmap list_fmap].
    rewrite decide_True by done. f_equal.
    apply fmap_unchanged. intros q Hq. rewrite decide_False; [done|].
    intros Hid. apply Hfresh, Exists_exists. eauto.
  - intros [= <- <-]. left. split; [by eexists|done].
  - exfalso. revert E.
    unfold addMemberToPoolInternal, txBind, selectRequest,
      selectMembersOfRequest, selectMembersOfPool, txThrow, txRet,
      insertMember, updateRequestStatus.
    repeat (first [ destruct (filter _ _) | destruct (_ <? _)%nat
                  | destruct (decide _) ]; try done).
Qed.

(** X18.  [triggerMatching] never puts a request into an existing pool.
    Whatever the cached entry, the store and the pools on offer, it either
    leaves the store as it was, or appends one new pool and one membership
    row of the request in that pool and marks the request 'matched'; the
    rows of the pools and memberships that existed are not touched. *)
Theorem triggerMatching_never_joins cached rid newPoolId poolCode db :
  let db' := (triggerMatching calculateDistance config demandFactor
                cached rid newPoolId poolCode db).2 in
  db' = db
  ∨ ∃ created row,
      ride_pools db' = ride_pools db ++ [created]
      ∧ pool_id created = newPoolId
      ∧ pool_members db' = pool_members db ++ [row]
      ∧ member_pool_id row = newPoolId
      ∧ ride_request_id row = rid
      ∧ ride_requests db'
        = (λ r, if decide (req_id r = rid) then setRequestStatus matched r
                else r) <$> ride_requests db.
Proof.
  intros db'. unfold db', triggerMatching.
  destruct (getRideRequest cached rid db).1 as [request|]; [|by left].
  destruct (decide (status request ≠ pending)); [by left|].
  rewrite findBestMatch_none.
  destruct (createPool _ _ _ _ _ _ db) as [res db1] eqn:Hcreate.
  apply createPool_single in Hcreate
    as [[[e ->] ->]|(passengers & luggage & row & -> & Hrest)].
  - by left.
  - right. exists (setPoolCounts passengers luggage
                     (openedRow config newPoolId poolCode)), row. cbn.
    destruct Hrest as (? & ? & ? & ? & ?). done.
Qed.

(** X19.  On a store that satisfies the constraints of the schema, a
    pending request that is in no pool always ends alone in a pool of its
    own, whatever pools are open: [triggerMatching] appends a 'forming'
    pool whose counters are the request's passengers and luggage, gives
    the request the first pickup and the second stop of that pool at the
    solo price, and marks it 'matched'. *)
Theorem triggerMatching_opens_solo_pool cached rid newPoolId poolCode db
    seen request :
  (getRideRequest cached rid db).1 = Some seen →
  status seen = pending →
  requestOf db rid = Some request →
  keysUnique db →
  ¬ Exists (λ m, ride_request_id m = rid) (pool_members db) →
  ¬ Exists (λ q, pool_id q = newPoolId ∨ pool_code q = poolCode)
      (ride_pools db) →
  Forall (λ m, Exists (λ p, pool_id p = member_pool_id m) (ride_pools db))
    (pool_members db) →
  triggerMatching calculateDistance config demandFactor
    cached rid newPoolId poolCode db
  = (Ok tt,
     {| ride_requests :=
          (λ r, if decide (req_id r = rid) then setRequestStatus matched r
                else r) <$> ride_requests db;
        ride_pools :=
          ride_pools db
          ++ [setPoolCounts (passenger_count request) (luggage_count request)
                (openedRow config newPoolId poolCode)];
        pool_members :=
          pool_members db
          ++ [{| member_pool_id := newPoolId;
                 ride_request_id := rid;
                 pickup_sequence := 1;
                 dropoff_sequence := 2;
                 detour_distance_km := 0;
                 price :=
                   final_price
                     (calculatePrice calculateDistance config demandFactor
                        request false 1) |}] |}).
Proof.
  intros Hseen Hpending Hreq Hkeys Hfree Hfresh Hfk.
  unfold triggerMatching. rewrite Hseen.
  rewrite decide_False by (intros Hne; by apply Hne).
  rewrite findBestMatch_none.
  unfold createPool, transaction, txBind at 1 2 3.
  unfold insertPool at 1.
  fold (openedRow config newPoolId poolCode).
  rewrite decide_False by exact Hfresh.
  cbn [pool_id addMembers openedRow]. unfold txBind at 1.
  fold (openedRow config newPoolId poolCode).
  set (dbP := {| ride_requests := ride_requests db;
                 ride_pools := ride_pools db
                               ++ [openedRow config newPoolId poolCode];
                 pool_members := pool_members db |}).
  assert (Hnone : filter (λ m, member_pool_id m = newPoolId) (pool_members db)
                  = []).
  { apply filter_none. intros m Hm Hid.
    rewrite Forall_forall in Hfk.
    apply Hfk in Hm as (q & Hq & Hqid)%Exists_exists.
    apply Hfresh, Exists_exists. exists q. split; [done|]. left. congruence. }
  assert (Hcount : memberCountOf newPoolId (pool_members dbP) = 0%Z).
  { unfold memberCountOf. cbn [pool_members dbP]. by rewrite Hnone. }
  assert (HreqP : requestOf dbP rid = Some request) by exact Hreq.
  pose proof (addMemberToPoolInternal_outcome calculateDistance config
                demandFactor newPoolId rid dbP) as Hout.
  rewrite HreqP in Hout.
  rewrite decide_False in Hout by exact Hfree.
  rewrite decide_True in Hout.
  2:{ apply Exists_exists. exists (openedRow config newPoolId poolCode).
      split; [|done]. cbn. apply elem_of_app. right. left. }
  destruct Hout as [db1 E]. rewrite E.
  pose proof (addMemberToPoolInternal_touches _ _ _ _ _ _ _ E)
    as (_ & _ & _ & _ & Hk1).
  assert (Hk : keysUnique db1) by (apply Hk1; exact Hkeys).
  pose proof (sumOverMembers_joined calculateDistance config demandFactor
                passenger_count _ _ _ _ _ (λ _ _, eq_refl) E HreqP) as Hsp.
  pose proof (sumOverMembers_joined calculateDistance config demandFactor
                luggage_count _ _ _ _ _ (λ _ _, eq_refl) E HreqP) as Hsl.
  assert (Hzero : ∀ f, sumOverMembers f dbP newPoolId = 0%Z).
  { intros f. unfold sumOverMembers. cbn [pool_members dbP].
    by rewrite Hnone. }
  rewrite Hzero, Z.add_0_l in Hsp, Hsl.
  apply addMemberToPoolInternal_effect in E
    as (ride & Hride & _ & _ & Hpools & Hrequests & Hmembers).
  assert (ride = request) as -> by congruence.
  rewrite Hcount in Hmembers. cbn [dbP ride_pools ride_requests pool_members]
    in Hpools, Hrequests, Hmembers.
  unfold txRet at 1.
  destruct (recalculatePoolCapacityInternal newPoolId db1)
    as [[[] db2]| |] eqn:R;
    [|by destruct (recalculatePoolCapacityInternal_total newPoolId db1)
         as [? Htot]; rewrite Htot in R..].
  destruct (recalculate_pools _ _ _ Hk R) as (Hreq2 & Hmem2 & Hpools2).
  rewrite Hsp, Hsl, Hpools in Hpools2.
  unfold txRet. f_equal. destruct db2 as [requests2 pools2 members2].
  cbn [ride_pools ride_requests pool_members] in Hreq2, Hmem2, Hpools2.
  subst requests2 pools2 members2. f_equal; [done| |done].
  rewrite fmap_app. cbn [fmap list_fmap].
  rewrite decide_True by done. f_equal.
  apply fmap_unchanged. intros q Hq. rewrite decide_False; [done|].
  intros Hid. apply Hfresh, Exists_exists. eauto.
Qed.
End TriggerMatching.

Lemma triggerMatching_opens_solo_pool_witness :
  triggerMatching gridDistance defaultConfig 0 None "r-c" "p-2" "POOLBBBBBB"
    poolDb
  = (Ok tt,
     {| ride_requests :=
          (λ r, if decide (req_id r = "r-c") then setRequestStatus matched r
                else r) <$> ride_requests poolDb;
        ride_pools :=
          ride_pools poolDb
          ++ [setPoolCounts (passenger_count rideC) (luggage_count rideC)
                (openedRow defaultConfig "p-2" "POOLBBBBBB")];
        pool_members :=
          pool_members poolDb
          ++ [{| member_pool_id := "p-2";
                 ride_request_id := "r-c";
                 pickup_sequence := 1;
                 dropoff_sequence := 2;
                 detour_distance_km := 0;
                 price :=
                   final_price
                     (calculatePrice gridDistance defaultConfig 0
                        rideC false 1) |}] |}).
Proof.
  apply (triggerMatching_opens_solo_pool gridDistance defaultConfig 0
           None "r-c" "p-2" "POOLBBBBBB" poolDb rideC rideC).
  - vm_compute. reflexivity.
  - reflexivity.
  - vm_compute. reflexivity.
  - split; apply (bool_decide_unpack _); vm_compute; exact I.
  - apply (bool_decide_unpack _). vm_compute. exact I.
  - apply (bool_decide_unpack _). vm_compute. exact I.
  - apply (bool_decide_unpack _). vm_compute. exact I.
Defined.

(** ** The pools offered to the matcher *)

(** X20.  On a store whose counters are right, [getAvailablePools] offers
    at most 50 candidates; each is a pool of the store that is 'forming'
    or 'confirmed' and has a free seat, and the requests it lists are
    those of the members of the pool, so that the counters the capacity
    check reads are the sums over the listed requests.  Free luggage room
    is not asked for. *)
Theorem getAvailablePools_candidates db :
  storeInv db →
  length (getAvailablePools db) ≤ 50
  ∧ Forall
      (λ c,
         pool c ∈ ride_pools db
         ∧ (pool_status (pool c) = forming
            ∨ pool_status (pool c) = pool_confirmed)
         ∧ (current_passenger_count (pool c) < max_passengers (pool c))%Z
         ∧ current_passenger_count (pool c)
           = sumZ (passenger_count <$> existingRequests c)
         ∧ current_luggage_count (pool c)
           = sumZ (luggage_count <$> existingRequests c)
         ∧ ∀ r, r ∈ existingRequests c
                ↔ r ∈ ride_requests db
                  ∧ ∃ m, m ∈ pool_members db
                         ∧ member_pool_id m = pool_id (pool c)
                         ∧ ride_request_id m = req_id r)
      (getAvailablePools db).
Proof.
  intros [[Hreq Hmem] Hcons]. unfold getAvailablePools. split.
  { rewrite length_fmap, length_take. lia. }
  apply Forall_fmap, Forall_forall. intros p Hp. cbn.
  apply elem_of_take in Hp as (i & Hp & _).
  apply list_elem_of_lookup_2 in Hp.
  apply list_elem_of_filter in Hp as [[Hstatus Hseat] Hp].
  unfold countersConsistent in Hcons. rewrite Forall_forall in Hcons.
  destruct (Hcons p Hp) as [Hc1 Hc2].
  pose proof (members_of_pool_NoDup _ (pool_id p) Hmem) as Hids.
  split; [done|]. split; [done|]. split; [done|].
  split; [|split].
  - rewrite Hc1, sumOverMembers_alt. symmetry. by apply recalculated_sum.
  - rewrite Hc2, sumOverMembers_alt. symmetry. by apply recalculated_sum.
  - intros r. rewrite list_elem_of_filter, list_elem_of_fmap.
    split.
    + intros [(m & Hid & Hm) Hr]. split; [done|].
      apply list_elem_of_filter in Hm as [Hpool Hm]. by exists m.
    + intros [Hr (m & Hm & Hpool & Hid)]. split; [|done].
      exists m. split; [done|]. by apply list_elem_of_filter.
Qed.

Lemma getAvailablePools_candidates_witness :
  length (getAvailablePools poolDb) ≤ 50
  ∧ Forall
      (λ c,
         pool c ∈ ride_pools poolDb
         ∧ (pool_status (pool c) = forming
            ∨ pool_status (pool c) = pool_confirmed)
         ∧ (current_passenger_count (pool c) < max_passengers (pool c))%Z
         ∧ current_passenger_count (pool c)
           = sumZ (passenger_count <$> existingRequests c)
         ∧ current_luggage_count (pool c)
           = sumZ (luggage_count <$> existingRequests c)
         ∧ ∀ r, r ∈ existingRequests c
                ↔ r ∈ ride_requests poolDb
                  ∧ ∃ m, m ∈ pool_members poolDb
                         ∧ member_pool_id m = pool_id (pool c)
                         ∧ ride_request_id m = req_id r)
      (getAvailablePools poolDb).
Proof.
  apply (getAvailablePools_candidates poolDb).
  split; [split; apply (bool_decide_unpack _); vm_compute; exact I|].
  repeat constructor.
Defined.

(** X21.  [updatePoolStatus] accepts any status from any status: it fails
    only when the pool does not exist.  It returns the row with the new
    status, leaves requests, memberships and every counter alone, and a
    pool set to anything but 'forming' or 'confirmed' is no longer offered
    to the matcher. *)
Theorem updatePoolStatus_outcome poolId s db :
  (filter (λ p, pool_id p = poolId) (ride_pools db) = [] →
   updatePoolStatus poolId s db = (Throw "Pool not found", db))
  ∧ ∀ p rows,
      filter (λ p, pool_id p = poolId) (ride_pools db) = p :: rows →
      ∃ db',
        updatePoolStatus poolId s db = (Ok (setPoolStatus s p), db')
        ∧ ride_requests db' = ride_requests db
        ∧ pool_members db' = pool_members db
        ∧ Forall2 (λ q q', q' = q ∨ (pool_id q = poolId
                                     ∧ q' = setPoolStatus s q))
            (ride_pools db) (ride_pools db')
        ∧ (countersConsistent db → countersConsistent db')
        ∧ (s ≠ forming → s ≠ pool_confirmed →
           Forall (λ c, pool_id (pool c) ≠ poolId) (getAvailablePools db')).
Proof.
  assert (Hfilter : ∀ l : list RidePool,
    filter (λ p, pool_id p = poolId)
      ((λ p, if decide (pool_id p = poolId) then setPoolStatus s p else p)
         <$> l)
    = setPoolStatus s <$> filter (λ p, pool_id p = poolId) l).
  { induction l as [|q l IH]; [done|].
    rewrite fmap_cons, !filter_cons.
    destruct (decide (pool_id q = poolId)) as [Hq|Hq].
    - rewrite decide_True by done. by rewrite fmap_cons, IH.
    - by rewrite decide_False. }
  unfold updatePoolStatus. rewrite Hfilter. split.
  { by intros ->. }
  intros p rows ->. rewrite fmap_cons. eexists. split; [done|].
  cbn [ride_requests ride_pools pool_members].
  split; [done|]. split; [done|]. split; [|split].
  - apply Forall2_fmap_r, Forall_Forall2_diag, Forall_forall.
    intros q _. unfold compose. cbn beta.
    destruct (decide (pool_id q = poolId)); [by right|by left].
  - unfold countersConsistent. cbn [ride_pools].
    intros Hcons. apply Forall_fmap. eapply Forall_impl; [exact Hcons|].
    intros q Hq. cbn. by destruct (decide (pool_id q = poolId)).
  - intros Hs1 Hs2. unfold getAvailablePools.
    cbn [ride_requests ride_pools pool_members].
    apply Forall_fmap, Forall_forall. intros q Hq. cbn.
    apply elem_of_take in Hq as (i & Hq & _).
    apply list_elem_of_lookup_2 in Hq.
    apply list_elem_of_filter in Hq as [[Hstatus _] Hq].
    apply list_elem_of_fmap in Hq as (q0 & -> & _).
    destruct (decide (pool_id q0 = poolId)) as [Hid|Hid]; [|done].
    cbn in Hstatus. by destruct Hstatus.
Qed.

Lemma updatePoolStatus_outcome_witness :
  ∃ db',
    updatePoolStatus "p-1" pool_cancelled poolDb
    = (Ok (setPoolStatus pool_cancelled
             (setPoolCounts 3 3 openedPool)), db')
    ∧ ride_requests db' = ride_requests poolDb
    ∧ pool_members db' = pool_members poolDb
    ∧ Forall2 (λ q q', q' = q ∨ (pool_id q = "p-1"
                                 ∧ q' = setPoolStatus pool_cancelled q))
        (ride_pools poolDb) (ride_pools db')
    ∧ (countersConsistent poolDb → countersConsistent db')
    ∧ (pool_cancelled ≠ forming → pool_cancelled ≠ pool_confirmed →
       Forall (λ c, pool_id (pool c) ≠ "p-1") (getAvailablePools db')).
Proof.
  apply (proj2 (updatePoolStatus_outcome "p-1" pool_cancelled poolDb)
           (setPoolCounts 3 3 openedPool) []).
  vm_compute. reflexivity.
Defined.

(** ** The pairwise location check and the groups built from it *)

(** X22.  For a distance that is symmetric and obeys the metric laws,
    [areLocationsCompatible] is symmetric in the two trips and monotone in
    the tolerance, holds of a trip and itself exactly when the tolerance is
    not negative, and composes along a chain with the tolerances added
    up: it is not transitive at a fixed tolerance. *)
Theorem areLocationsCompatible_laws (calculateDistance : Q → Q → Q → Q → Q)
    (p1 d1 p2 d2 p3 d3 : LatLon) (m m' : Q) :
  (∀ a b c d, calculateDistance a b c d == calculateDistance c d a b)%Q →
  distanceLaws calculateDistance →
  areLocationsCompatible calculateDistance p1 d1 p2 d2 m
  = areLocationsCompatible calculateDistance p2 d2 p1 d1 m
  ∧ ((m <= m')%Q →
     areLocationsCompatible calculateDistance p1 d1 p2 d2 m = true →
     areLocationsCompatible calculateDistance p1 d1 p2 d2 m' = true)
  ∧ (areLocationsCompatible calculateDistance p1 d1 p1 d1 m = true
     ↔ (0 <= m)%Q)
  ∧ (areLocationsCompatible calculateDistance p1 d1 p2 d2 m = true →
     areLocationsCompatible calculateDistance p2 d2 p3 d3 m' = true →
     areLocationsCompatible calculateDistance p1 d1 p3 d3 (m + m') = true).
Proof.
  intros Hsym (Hnonneg & Hself & Htriangle).
  split; [|split; [|split]].
  - apply Bool.eq_true_iff_eq. rewrite !areLocationsCompatible_iff.
    by rewrite (Hsym (pt_lat p1)), (Hsym (pt_lat d1)).
  - rewrite !areLocationsCompatible_iff. intros Hle [Hp Hd]. split; lra.
  - rewrite areLocationsCompatible_iff, !Hself. split; [by intros [? _]|].
    intros Hm. split; lra.
  - rewrite !areLocationsCompatible_iff. intros [Hp Hd] [Hp' Hd'].
    pose proof (Htriangle (pt_lat p1) (pt_lon p1) (pt_lat p2) (pt_lon p2)
                  (pt_lat p3) (pt_lon p3)).
    pose proof (Htriangle (pt_lat d1) (pt_lon d1) (pt_lat d2) (pt_lon d2)
                  (pt_lat d3) (pt_lon d3)).
    split; lra.
Qed.

Lemma gridDistance_symmetric a b c d :
  (gridDistance a b c d == gridDistance c d a b)%Q.
Proof.
  unfold gridDistance.
  rewrite <- (Qabs_opp (c - a)), <- (Qabs_opp (d - b)).
  assert (- (c - a) == a - c)%Q as -> by ring.
  assert (- (d - b) == b - d)%Q as -> by ring. reflexivity.
Qed.

Lemma areLocationsCompatible_laws_witness :
  areLocationsCompatible gridDistance
    (pickupOf rideA) (dropoffOf rideA) (pickupOf rideB) (dropoffOf rideB) 5
  = areLocationsCompatible gridDistance
      (pickupOf rideB) (dropoffOf rideB) (pickupOf rideA) (dropoffOf rideA) 5.
Proof.
  refine (proj1 (areLocationsCompatible_laws gridDistance
                   (pickupOf rideA) (dropoffOf rideA)
                   (pickupOf rideB) (dropoffOf rideB)
                   (pickupOf rideC) (dropoffOf rideC) 5 5 _ _)).
  - apply gridDistance_symmetric.
  - apply gridDistance_laws.
Defined.

Section Chains.
Variable calculateDistance : Q → Q → Q → Q → Q.
Variable config : RidePoolingConfig.

Lemma checkLocationCompatibility_member newRequest existingRequests :
  existingRequests ≠ [] →
  checkLocationCompatibility calculateDistance config newRequest
    existingRequests = true →
  ∃ m, m ∈ existingRequests
    ∧ areLocationsCompatible calculateDistance
        (pickupOf newRequest) (dropoffOf newRequest)
        (pickupOf m) (dropoffOf m) (maxDetourToleranceKm config) = true.
Proof.
  intros Hne. unfold checkLocationCompatibility.
  destruct existingRequests as [|e es]; [done|].
  cbn [length Nat.eqb].
  destruct (existsb _ _) eqn:Hex; [|done]. intros _.
  apply existsb_exists in Hex as (m & Hin & Hm).
  exists m. split; [|done]. by apply list_elem_of_In.
Qed.

(** X23.  The batch loop grows a group as a chain: every request it adds
    passed the location check against some request that was already in
    the group, not necessarily against the request the group was opened
    for. *)
Theorem absorbLoop_members_chained others :
  ∀ compatible assigned compatible' assigned',
    compatible ≠ [] →
    absorbLoop calculateDistance config others compatible assigned
      = (compatible', assigned') →
    ∀ k r, length compatible ≤ k → compatible' !! k = Some r →
      ∃ j r', j < k ∧ compatible' !! j = Some r'
        ∧ areLocationsCompatible calculateDistance
            (pickupOf r) (dropoffOf r) (pickupOf r') (dropoffOf r')
            (maxDetourToleranceKm config) = true.
Proof.
  induction others as [|other others IH];
    intros compatible assigned compatible' assigned' Hne; cbn.
  { intros [= <- <-] k r Hk Hr. apply lookup_lt_Some in Hr. lia. }
  destruct (decide (req_id other ∈ assigned)); [by apply IH|].
  destruct (_ <=? _)%Z.
  { intros [= <- <-] k r Hk Hr. apply lookup_lt_Some in Hr. lia. }
  destruct (checkLocationCompatibility _ _ _ _) eqn:Hcheck; [|by apply IH].
  destruct (_ && _); [|by apply IH].
  intros Hloop k r Hk Hr.
  destruct (absorbLoop_spec _ _ _ _ _ _ _ Hloop) as (added & Hall & _).
  destruct (decide (k = length compatible)) as [->|Hlater].
  - rewrite Hall, <- app_assoc in Hr.
    rewrite lookup_app_r, Nat.sub_diag in Hr by done.
    cbn in Hr. injection Hr as <-.
    destruct (checkLocationCompatibility_member _ _ Hne Hcheck)
      as (m & Hm & Hcompat).
    apply list_elem_of_lookup_1 in Hm as [j Hj].
    exists j, m. split; [by apply lookup_lt_Some in Hj|].
    split; [|done].
    rewrite Hall, <- app_assoc. by apply lookup_app_l_Some.
  - eapply (IH (compatible ++ [other])); [|exact Hloop| |exact Hr].
    + by destruct compatible.
    + rewrite length_app. cbn. lia.
Qed.
End Chains.

Lemma absorbLoop_members_chained_witness :
  ∀ k r, length (take 1 fiveRequests) ≤ k →
    (absorbLoop gridDistance defaultConfig (drop 1 fiveRequests)
       (take 1 fiveRequests) {["req-1"]}).1 !! k = Some r →
    ∃ j r', j < k
      ∧ (absorbLoop gridDistance defaultConfig (drop 1 fiveRequests)
           (take 1 fiveRequests) {["req-1"]}).1 !! j = Some r'
      ∧ areLocationsCompatible gridDistance
          (pickupOf r) (dropoffOf r) (pickupOf r') (dropoffOf r')
          (maxDetourToleranceKm defaultConfig) = true.
Proof.
  apply (absorbLoop_members_chained gridDistance defaultConfig
           (drop 1 fiveRequests) (take 1 fiveRequests) {["req-1"]}
           _ (absorbLoop gridDistance defaultConfig (drop 1 fiveRequests)
                (take 1 fiveRequests) {["req-1"]}).2).
  - discriminate.
  - by destruct (absorbLoop _ _ _ _ _).
Defined.

(** ** The ranking score *)

Lemma foldl_Qplus_nonneg (l : list Q) : ∀ acc,
  (0 <= acc)%Q → Forall (λ d, 0 <= d)%Q l → (0 <= foldl Qplus acc l)%Q.
Proof.
  induction l as [|x l IH]; intros acc Hacc Hall; [done|].
  apply Forall_cons in Hall as [Hx Hall]. cbn [foldl].
  apply IH; [lra|done].
Qed.

(** X24.  For a pool whose passenger counter lies between 0 and its
    maximum and a route analysis with at least one detour, none negative,
    and a total distance that is not negative, the ranking score lies
    between 0 and 1930 (30 for a full pool, 400 for no detour, 1500 for a
    route of no length), and of two pools of the same size with the same
    analysis the fuller one never scores lower. *)
Theorem calculateMatchScore_bounds (routeAnalysis : RouteAnalysis)
    (p p' : RidePool) (request : RideRequest) :
  (0 < max_passengers p)%Z →
  (0 ≤ current_passenger_count p ≤ max_passengers p)%Z →
  detours routeAnalysis ≠ [] →
  Forall (λ d, 0 <= d.2)%Q (detours routeAnalysis) →
  (0 <= totalDistance routeAnalysis)%Q →
  (0 <= calculateMatchScore routeAnalysis p request <= 1930)%Q
  ∧ (max_passengers p' = max_passengers p →
     (current_passenger_count p ≤ current_passenger_count p')%Z →
     (calculateMatchScore routeAnalysis p request
      <= calculateMatchScore routeAnalysis p' request)%Q).
Proof.
  intros Hmax [Hlo Hhi] Hne Hdetours Htotal.
  assert (HposQ : (0 < inject_Z (max_passengers p))%Q).
  { change 0%Q with (inject_Z 0). by rewrite <- Zlt_Qlt. }
  assert (HloQ : (0 <= inject_Z (current_passenger_count p))%Q).
  { change 0%Q with (inject_Z 0). by rewrite <- Zle_Qle. }
  assert (HhiQ : (inject_Z (current_passenger_count p)
                  <= inject_Z (max_passengers p))%Q)
    by (by rewrite <- Zle_Qle).
  assert (Hutil : (0 <= inject_Z (current_passenger_count p)
                        / inject_Z (max_passengers p) <= 1)%Q).
  { split.
    - apply Qle_shift_div_l; [done|]. lra.
    - apply Qle_shift_div_r; [done|]. lra. }
  assert (Hsum : (0 <= foldl Qplus 0 (snd <$> detours routeAnalysis))%Q).
  { apply foldl_Qplus_nonneg; [lra|]. by apply Forall_fmap. }
  assert (Hlen : (0 < inject_Z (Z.of_nat (length (detours routeAnalysis))))%Q).
  { change 0%Q with (inject_Z 0). rewrite <- Zlt_Qlt.
    destruct (detours routeAnalysis); [done|]. cbn [length]. lia. }
  assert (Havg : (0 <= foldl Qplus 0 (snd <$> detours routeAnalysis)
                       / inject_Z (Z.of_nat
                                     (length (detours routeAnalysis))))%Q).
  { apply Qle_shift_div_l; [done|]. lra. }
  unfold calculateMatchScore.
  set (avgDetour := (foldl Qplus 0 (snd <$> detours routeAnalysis) / _)%Q)
    in *.
  set (utilization := (inject_Z (current_passenger_count p) / _)%Q) in *.
  pose proof (Q.le_max_l 0 (10 - avgDetour)) as Hd0.
  pose proof (Q.le_max_l 0 (50 - totalDistance routeAnalysis)) as Ht0.
  assert (Hd1 : (Qmax 0 (10 - avgDetour) <= 10)%Q)
    by (apply Q.max_lub; lra).
  assert (Ht1 : (Qmax 0 (50 - totalDistance routeAnalysis) <= 50)%Q)
    by (apply Q.max_lub; lra).
  split; [split; lra|].
  intros Hsame Hfuller. rewrite Hsame.
  assert (Hmono : (utilization
                   <= inject_Z (current_passenger_count p')
                      / inject_Z (max_passengers p))%Q).
  { unfold utilization, Qdiv. apply Qmult_le_compat_r.
    - by rewrite <- Zle_Qle.
    - apply Qinv_le_0_compat. lra. }
  lra.
Qed.

Lemma calculateMatchScore_bounds_witness :
  (0 <= calculateMatchScore
          {| valid := true; route := []; detours := [("req-m", 0%Q)];
             totalDistance := 21 |} scenarioPool scenarioRequest
   <= 1930)%Q.
Proof.
  refine (proj1 (calculateMatchScore_bounds
                   {| valid := true; route := [];
                      detours := [("req-m", 0%Q)]; totalDistance := 21 |}
                   scenarioPool scenarioPool scenarioRequest _ _ _ _ _)).
  - reflexivity.
  - split; discriminate.
  - discriminate.
  - repeat constructor. discriminate.
  - discriminate.
Defined.
